(** * emu_sort_local: a shallow embedding of the local sorting kernels

    The C file [emu_c_utils/emu_sort_local.c] sorts a flat buffer of
    fixed-size records through [void *] pointers, byte offsets and a
    three-way comparator.  The embedding keeps that shape:

    - memory is a handful of byte blocks (the caller's buffer, the merge
      scratch buffer, the insertion-sort key and the quick-sort pivot);
      a pointer is a block and a byte offset;
    - [size_t] and [long] arithmetic is carried out on [Z] with the
      64-bit wrap-around written out;
    - a [long] access moves the 8 bytes at a byte offset;
    - an access outside a block, an access through a null pointer and a
      failed [assert] end the run with an error;
    - [cilk_spawn]/[cilk_sync] are read through their serial elision:
      the spawned calls work on disjoint ranges and are joined before
      the caller goes on. *)

From Stdlib Require Import ZArith Lia List Sorted Permutation.
From stdpp Require Import base tactics option list sorting.

Open Scope Z_scope.

(** ** Machine integers *)

Definition u64 (x : Z) : Z := x mod 2 ^ 64.
Definition s64 (x : Z) : Z := (x + 2 ^ 63) mod 2 ^ 64 - 2 ^ 63.

Definition add64 (a b : Z) : Z := u64 (a + b).
Definition sub64 (a b : Z) : Z := u64 (a - b).
Definition mul64 (a b : Z) : Z := u64 (a * b).
Definition shl64 (a n : Z) : Z := u64 (Z.shiftl a n).

Infix "+!" := add64 (at level 50, left associativity).
Infix "-!" := sub64 (at level 50, left associativity).
Infix "*!" := mul64 (at level 40, left associativity).

(** ** Memory *)

(** A byte is a number; a record is the list of its bytes. *)
Abbreviation byte := Z (only parsing).
Abbreviation elem := (list Z) (only parsing).

Inductive block := Base | Temp | Key | Pivot.

#[global] Instance block_eq_dec : EqDecision block.
Proof. solve_decision. Defined.

Record ptr := Ptr { p_blk : block; p_off : Z }.

(** [p + d] on a [char *] (and, as GNU C has it, on a [void *]). *)
Definition padd (p : ptr) (d : Z) : ptr := Ptr (p_blk p) (u64 (p_off p + d)).
Infix "+>" := padd (at level 50, left associativity).

Record mem := Mem {
  m_base : list byte;
  m_temp : option (list byte);   (* [None] is the null pointer *)
  m_key : list byte;
  m_pivot : list byte
}.

Definition get_blk (b : block) (m : mem) : option (list byte) :=
  match b with
  | Base => Some (m_base m)
  | Temp => m_temp m
  | Key => Some (m_key m)
  | Pivot => Some (m_pivot m)
  end.

Definition set_blk (b : block) (v : list byte) (m : mem) : mem :=
  match b with
  | Base => Mem v (m_temp m) (m_key m) (m_pivot m)
  | Temp => Mem (m_base m) (Some v) (m_key m) (m_pivot m)
  | Key => Mem (m_base m) (m_temp m) v (m_pivot m)
  | Pivot => Mem (m_base m) (m_temp m) (m_key m) v
  end.

Inductive error := AssertFail | OutOfRange | NullDeref.

Inductive result (A : Type) :=
  | Ok (a : A)
  | Err (e : error)
  | OutOfFuel.
Arguments Ok {A} a.
Arguments Err {A} e.
Arguments OutOfFuel {A}.

(** Bytes [off, off + n) of a block. *)
Definition in_range (buf : list byte) (off n : Z) : bool :=
  (0 <=? off) && (0 <=? n) && (off + n <=? Z.of_nat (length buf)).

Definition read_bytes (buf : list byte) (off n : Z) : option (list byte) :=
  if in_range buf off n
  then Some (take (Z.to_nat n) (drop (Z.to_nat off) buf))
  else None.

Definition write_bytes (buf : list byte) (off : Z) (bs : list byte) : option (list byte) :=
  if in_range buf off (Z.of_nat (length bs))
  then Some (take (Z.to_nat off) buf ++ bs ++ drop (Z.to_nat off + length bs) buf)
  else None.

(** ** The state-and-error monad of the embedding *)

Definition M (A : Type) : Type := mem -> result (A * mem).

Definition ret {A} (a : A) : M A := fun m => Ok (a, m).
Definition fail {A} (e : error) : M A := fun _ => Err e.
Definition bind {A B} (c : M A) (k : A -> M B) : M B :=
  fun m => match c m with
           | Ok (a, m') => k a m'
           | Err e => Err e
           | OutOfFuel => OutOfFuel
           end.

Notation "x <- c1 ;; c2" := (bind c1 (fun x => c2))
  (at level 100, c1 at next level, right associativity).
Notation "c1 ;;; c2" := (bind c1 (fun _ => c2))
  (at level 100, right associativity).

Definition load (p : ptr) (n : Z) : M (list byte) := fun m =>
  match get_blk (p_blk p) m with
  | None => Err NullDeref
  | Some buf =>
      match read_bytes buf (p_off p) n with
      | Some bs => Ok (bs, m)
      | None => Err OutOfRange
      end
  end.

Definition store (p : ptr) (bs : list byte) : M unit := fun m =>
  match get_blk (p_blk p) m with
  | None => Err NullDeref
  | Some buf =>
      match write_bytes buf (p_off p) bs with
      | Some buf' => Ok (tt, set_blk (p_blk p) buf' m)
      | None => Err OutOfRange
      end
  end.

(** [((long * ) p)[i]]: the long at byte offset [8 * i] from [p]. *)
Definition load_long (p : ptr) (i : Z) : M (list byte) := load (p +> 8 *! i) 8.
Definition store_long (p : ptr) (i : Z) (v : list byte) : M unit := store (p +> 8 *! i) v.

(** [for (i = start; i < bound; i += step) body], run [cnt] times; the guard
    keeps [i] below the bound, so the increment does not wrap. *)
Fixpoint for_loop (cnt : nat) (i step : Z) (body : Z -> M unit) : M unit :=
  match cnt with
  | O => ret tt
  | S cnt' => body i ;;; for_loop cnt' (i + step) step body
  end.

(** Trip count of [for (i = lo; i < hi; i += step)], [step > 0]. *)
Definition trips (lo hi step : Z) : nat := Z.to_nat ((hi - lo + step - 1) / step).

(** ** Constants *)

Definition P_MERGE_SIZE_HIGH : Z := 128.
Definition P_MERGE_FACTOR_HIGH : Z := 6.
Definition P_MERGE_FACTOR_LOW : Z := 3.
Definition P_MERGE_INSERTION_COND : Z := 32.
Definition MIN_BITONIC_LENGTH : Z := 32.
Definition BITONIC_GRAIN (n : Z) : Z := Z.shiftr n 5.
Definition P_QUICK_FACTOR : Z := 3.
Definition P_QUICK_SORT_GRAIN (n : Z) : Z := Z.shiftr n P_QUICK_FACTOR.

(** ** Copy and exchange primitives *)

Definition my_memcpy (to from : ptr) (n : Z) : M unit :=
  if Z.land n 7 =? 0 then
    let n := Z.shiftr n 3 in
    for_loop (trips 0 n 1) 0 1 (fun i =>
      v <- load_long from i ;;
      store_long to i v)
  else fail AssertFail.

Definition swap (a b : ptr) (size : Z) : M unit :=
  if size mod 8 =? 0 then
    for_loop (trips 0 size 8) 0 8 (fun i =>
      t <- load_long a i ;;
      q <- load_long b i ;;
      store_long a i q ;;;
      store_long b i t)
  else ret tt.

(** ** The algorithms, over a comparator and the platform's [qsort] *)

Section Sort.

(** The user's comparator, a function of the two records' bytes. *)
Variable compar : elem -> elem -> Z.

(** The C library's [qsort], as a function on the array of records. *)
Variable libc_qsort : (elem -> elem -> Z) -> list elem -> list elem.

Definition call_compar (p q : ptr) (size : Z) : M Z :=
  a <- load p size ;;
  b <- load q size ;;
  ret (compar a b).

Definition qsort (base : ptr) (num size : Z) : M unit :=
  bs <- load base (num *! size) ;;
  let es := reshape (replicate (Z.to_nat num) (Z.to_nat size)) bs in
  store base (concat (libc_qsort compar es)).

(** [malloc(n)]; [ok = false] is the allocation that fails. *)
Definition malloc_temp (ok : bool) (n : Z) : M unit := fun m =>
  Ok (tt, Mem (m_base m) (if ok then Some (replicate (Z.to_nat n) 0) else None)
              (m_key m) (m_pivot m)).
Definition malloc_key (n : Z) : M unit := fun m =>
  Ok (tt, set_blk Key (replicate (Z.to_nat n) 0) m).
Definition alloca_pivot (n : Z) : M unit := fun m =>
  Ok (tt, set_blk Pivot (replicate (Z.to_nat n) 0) m).
Definition free_temp : M unit := fun m =>
  Ok (tt, Mem (m_base m) None (m_key m) (m_pivot m)).
Definition free_key : M unit := fun m => Ok (tt, set_blk Key [] m).

(** *** Insertion sort *)

Fixpoint insertion_shift (fuel : nat) (base : ptr) (size : Z) (j : Z) : M Z :=
  match fuel with
  | O => fun _ => OutOfFuel
  | S fuel' =>
      if 0 <=? j then
        c <- call_compar (base +> u64 j *! size) (Ptr Key 0) size ;;
        if 0 <? c then
          my_memcpy (base +> u64 (s64 (j + 1)) *! size) (base +> u64 j *! size) size ;;;
          insertion_shift fuel' base size (s64 (j - 1))
        else ret j
      else ret j
  end.

(** The body of the outer loop, for the record [i]. *)
Definition insertion_body (base : ptr) (size : Z) (i : Z) : M unit :=
  my_memcpy (Ptr Key 0) (base +> i *! size) size ;;;
  let j := s64 (i -! 1) in
  j' <- insertion_shift (Z.to_nat (j + 2)) base size j ;;
  my_memcpy (base +> u64 (s64 (j' + 1)) *! size) (Ptr Key 0) size.

Definition insertion_sort (base : ptr) (nelem size : Z) : M unit :=
  malloc_key size ;;;
  for_loop (trips 1 nelem 1) 1 1 (insertion_body base size) ;;;
  free_key.

(** *** Merge sort *)

Fixpoint merge_loop (fuel : nat) (base temp : ptr) (size : Z)
    (iend jend : Z) (i j k : Z) : M (Z * Z * Z) :=
  match fuel with
  | O => fun _ => OutOfFuel
  | S fuel' =>
      if (i <? iend) && (j <? jend) then
        c <- call_compar (temp +> i *! size) (temp +> j *! size) size ;;
        if 0 <? c then
          my_memcpy (base +> k *! size) (temp +> j *! size) size ;;;
          merge_loop fuel' base temp size iend jend i (j +! 1) (k +! 1)
        else
          my_memcpy (base +> k *! size) (temp +> i *! size) size ;;;
          merge_loop fuel' base temp size iend jend (i +! 1) j (k +! 1)
      else ret (i, j, k)
  end.

(** [while (i < iend) { my_memcpy(base + k * size, temp + i * size, size); i++; k++; }] *)
Fixpoint copy_rest (cnt : nat) (base temp : ptr) (size : Z) (i k : Z) : M Z :=
  match cnt with
  | O => ret k
  | S cnt' =>
      my_memcpy (base +> k *! size) (temp +> i *! size) size ;;;
      copy_rest cnt' base temp size (i +! 1) (k +! 1)
  end.

(** [my_memcpy(temp + (i + off) * size, base + (i + off) * size, size)] *)
Definition copy_body (temp base : ptr) (size off : Z) (i : Z) : M unit :=
  my_memcpy (temp +> (i +! off) *! size) (base +> (i +! off) *! size) size.

Definition p_merge (base temp : ptr) (size : Z) (l r m : Z) : M unit :=
  let n1 := m -! l +! 1 in
  let n2 := r -! m in
  for_loop (trips 0 n1 1) 0 1 (copy_body temp base size l) ;;;
  for_loop (trips 0 n2 1) 0 1 (copy_body temp base size (m +! 1)) ;;;
  let k := l in
  let i := l in
  let j := m +! 1 in
  ijk <- merge_loop (Z.to_nat (n1 + n2 + 1)) base temp size
           (n1 +! l) (n2 +! m +! 1) i j k ;;
  let '(i, j, k) := ijk in
  k <- copy_rest (trips i (n1 +! l) 1) base temp size i k ;;
  k <- copy_rest (trips j (n2 +! m +! 1) 1) base temp size j k ;;
  ret tt.

Fixpoint p_merge_sort (fuel : nat) (base temp : ptr) (nelem size : Z)
    (l r : Z) (grain : Z) : M unit :=
  match fuel with
  | O => fun _ => OutOfFuel
  | S fuel' =>
      if l <? r then
        if grain <? nelem then
          let m := (l +! r) / 2 in
          p_merge_sort fuel' base temp (m -! l +! 1) size l m grain ;;;
          p_merge_sort fuel' base temp (r -! m) size (m +! 1) r grain ;;;
          p_merge base temp size l r m
        else if 1 <? nelem then
          if nelem <=? P_MERGE_INSERTION_COND then
            insertion_sort (base +> l *! size) nelem size
          else
            let m := (l +! r) / 2 in
            p_merge_sort fuel' base temp (m -! l +! 1) size l m grain ;;;
            p_merge_sort fuel' base temp (r -! m) size (m +! 1) r grain ;;;
            p_merge base temp size l r m
        else ret tt
      else ret tt
  end.

(** *** Bitonic sort *)

Fixpoint hp2_loop (fuel : nat) (res n : Z) : Z :=
  match fuel with
  | O => res
  | S fuel' =>
      if (0 <? res) && (res <? n) then hp2_loop fuel' (shl64 res 1) n else res
  end.

(** [res] doubles at every turn and is [0] after 64 of them. *)
Definition highestPowerofTwoLessThan (n : Z) : Z :=
  Z.shiftr (hp2_loop 65 1 n) 1.

(** Modelled from the spec: the fork-join range-apply primitive
    [emu_local_for] of [emu_for_local.h], which is not part of the
    sources at hand: [forEachInRange(start, end, grainSize, workerFn)]
    applies the worker over the index range; its forks are joined before
    it returns, so the worker is run here on the whole range. *)
Definition emu_local_for (begin end_ grain : Z) (worker : Z -> Z -> M unit) : M unit :=
  worker (s64 begin) (s64 end_).

Definition merge_worker (base : ptr) (asec : bool) (m size : Z) (begin end_ : Z) : M unit :=
  for_loop (trips begin end_ 1) begin 1 (fun i =>
    let left := base +> u64 i *! size in
    let right := base +> (u64 i +! m) *! size in
    c <- call_compar left right size ;;
    if asec then
      if 0 <? c then swap left right size else ret tt
    else
      if c <? 0 then swap left right size else ret tt).

(** [for (size_t i = 0, j = num - 1; i < j; i++, j--) swap(base + (i + low) * size, ...)] *)
Fixpoint reverse_loop (fuel : nat) (base : ptr) (low size : Z) (i j : Z) : M unit :=
  match fuel with
  | O => fun _ => OutOfFuel
  | S fuel' =>
      if i <? j then
        swap (base +> (i +! low) *! size) (base +> (j +! low) *! size) size ;;;
        reverse_loop fuel' base low size (i +! 1) (j -! 1)
      else ret tt
  end.

Definition sort_leaf (base : ptr) (low num : Z) (asec : bool) (size : Z) : M unit :=
  qsort (base +> size *! low) num size ;;;
  if negb asec then reverse_loop (Z.to_nat num) base low size 0 (num -! 1)
  else ret tt.

Fixpoint p_bitonic_merge (fuel : nat) (base : ptr) (low num : Z) (asec : bool)
    (size grain : Z) : M unit :=
  match fuel with
  | O => fun _ => OutOfFuel
  | S fuel' =>
      if grain <? num then
        let m := highestPowerofTwoLessThan num in
        emu_local_for low (low +! (num -! m)) grain (merge_worker base asec m size) ;;;
        p_bitonic_merge fuel' base low m asec size grain ;;;
        p_bitonic_merge fuel' base (low +! m) (num -! m) asec size grain
      else if 1 <? num then sort_leaf base low num asec size
      else ret tt
  end.

Fixpoint p_bitonic_sort (fuel : nat) (base : ptr) (low num : Z) (asec : bool)
    (size grain : Z) : M unit :=
  match fuel with
  | O => fun _ => OutOfFuel
  | S fuel' =>
      if grain <? num then
        let m := num / 2 in
        p_bitonic_sort fuel' base low m asec size grain ;;;
        p_bitonic_sort fuel' base (low +! m) (num -! m) (negb asec) size grain ;;;
        p_bitonic_merge (Z.to_nat num) base low num asec size grain
      else if 1 <? num then sort_leaf base low num asec size
      else ret tt
  end.

(** *** Quick sort *)

(** [while (compar(base + i * size, pivot) < 0) i++;] *)
Fixpoint scan_up (fuel : nat) (base : ptr) (size : Z) (i : Z) : M Z :=
  match fuel with
  | O => fun _ => OutOfFuel
  | S fuel' =>
      c <- call_compar (base +> u64 i *! size) (Ptr Pivot 0) size ;;
      if c <? 0 then scan_up fuel' base size (s64 (i + 1)) else ret i
  end.

(** [while (compar(base + j * size, pivot) > 0) j--;] *)
Fixpoint scan_down (fuel : nat) (base : ptr) (size : Z) (j : Z) : M Z :=
  match fuel with
  | O => fun _ => OutOfFuel
  | S fuel' =>
      c <- call_compar (base +> u64 j *! size) (Ptr Pivot 0) size ;;
      if 0 <? c then scan_down fuel' base size (s64 (j - 1)) else ret j
  end.

(** The partition loop [while (i <= j) { ... }]; when the inner test
    [i <= j] fails the outer one fails as well and the loop is left. *)
Fixpoint partition_loop (fuel : nat) (base : ptr) (size : Z) (i j : Z) : M (Z * Z) :=
  match fuel with
  | O => fun _ => OutOfFuel
  | S fuel' =>
      if i <=? j then
        i <- scan_up (S fuel') base size i ;;
        j <- scan_down (S fuel') base size j ;;
        if i <=? j then
          (if i <? j then swap (base +> u64 i *! size) (base +> u64 j *! size) size
           else ret tt) ;;;
          partition_loop fuel' base size (s64 (i + 1)) (s64 (j - 1))
        else ret (i, j)
      else ret (i, j)
  end.

(** Median of three, then the copy of the pivot. *)
Definition select_pivot (base : ptr) (size : Z) (left right : Z) : M unit :=
  alloca_pivot size ;;;
  let lo := base +> u64 left *! size in
  let hi := base +> u64 right *! size in
  let mid := lo +> size *! Z.shiftr (u64 (p_off hi - p_off lo) / size) 1 in
  c <- call_compar mid lo size ;;
  (if c <? 0 then swap lo mid size else ret tt) ;;;
  c <- call_compar hi mid size ;;
  (if c <? 0 then
     swap mid hi size ;;;
     c <- call_compar mid lo size ;;
     if c <? 0 then swap mid lo size else ret tt
   else ret tt) ;;;
  my_memcpy (Ptr Pivot 0) mid size.

Fixpoint p_quick_sort (fuel : nat) (base : ptr) (nelem size : Z)
    (left right : Z) (grain : Z) : M unit :=
  match fuel with
  | O => fun _ => OutOfFuel
  | S fuel' =>
      select_pivot base size left right ;;;
      ij <- partition_loop (S fuel') base size left right ;;
      let '(i, j) := ij in
      if grain <? u64 (s64 (right - left)) then
        (if left <? j
         then p_quick_sort fuel' base (u64 (s64 (s64 (j - left) + 1))) size left j grain
         else ret tt) ;;;
        (if i <? right
         then p_quick_sort fuel' base (u64 (s64 (s64 (right - i) + 1))) size i right grain
         else ret tt)
      else
        (if left <? j
         then p_quick_sort fuel' base (u64 (s64 (s64 (j - left) + 1))) size left j grain
         else ret tt) ;;;
        (if i <? right
         then p_quick_sort fuel' base (u64 (s64 (s64 (right - i) + 1))) size i right grain
         else ret tt)
  end.

(** *** Entry points *)

Definition merge_grain (num : Z) : Z :=
  if P_MERGE_SIZE_HIGH <? num then Z.shiftr num P_MERGE_FACTOR_HIGH
  else Z.shiftr num P_MERGE_FACTOR_LOW.

Definition emu_sort_local (malloc_ok : bool) (base : ptr) (num size : Z) : M unit :=
  if MIN_BITONIC_LENGTH <=? num then
    let grain := merge_grain num in
    malloc_temp malloc_ok (size *! num) ;;;
    p_merge_sort (Z.to_nat num) base (Ptr Temp 0) num size 0 (num -! 1) grain ;;;
    free_temp
  else qsort base num size.

Definition emu_sort_local_bitonic (base : ptr) (num size : Z) : M unit :=
  if MIN_BITONIC_LENGTH <=? num then
    p_bitonic_sort (Z.to_nat num) base 0 num true size (BITONIC_GRAIN num)
  else qsort base num size.

Definition emu_sort_local_merge (malloc_ok : bool) (base : ptr) (num size : Z) : M unit :=
  if 1 <? num then
    malloc_temp malloc_ok (size *! num) ;;;
    let grain := merge_grain num in
    p_merge_sort (Z.to_nat num) base (Ptr Temp 0) num size 0 (num -! 1) grain ;;;
    free_temp
  else ret tt.

Definition emu_sort_local_quick (fuel : nat) (base : ptr) (num size : Z) : M unit :=
  p_quick_sort fuel base num size 0 (s64 (num -! 1)) (P_QUICK_SORT_GRAIN num).

(** A call on the caller's buffer [buf]; what comes back is the buffer. *)
Definition run (c : ptr -> M unit) (buf : list byte) : result (list byte) :=
  match c (Ptr Base 0) (Mem buf None [] []) with
  | Ok (_, m) => Ok (m_base m)
  | Err e => Err e
  | OutOfFuel => OutOfFuel
  end.

End Sort.

(** ** The memory seen as arrays of records *)

Record astate := AState {
  a_base : list elem;
  a_temp : option (list elem);
  a_key : elem;
  a_pivot : elem
}.

(** The memory that holds the given arrays. *)
Definition cm (s : astate) : mem :=
  Mem (concat (a_base s)) (@concat Z <$> a_temp s) (a_key s) (a_pivot s).

Definition blk_elems (b : block) (s : astate) : option (list elem) :=
  match b with
  | Base => Some (a_base s)
  | Temp => a_temp s
  | Key => Some [a_key s]
  | Pivot => Some [a_pivot s]
  end.

Definition set_elems (b : block) (es : list elem) (s : astate) : astate :=
  match b with
  | Base => AState es (a_temp s) (a_key s) (a_pivot s)
  | Temp => AState (a_base s) (Some es) (a_key s) (a_pivot s)
  | Key => AState (a_base s) (a_temp s) (concat es) (a_pivot s)
  | Pivot => AState (a_base s) (a_temp s) (a_key s) (concat es)
  end.

Definition uniform (size : Z) (es : list elem) : Prop :=
  Forall (fun e => Z.of_nat (length e) = size) es.

(** The address of record [i] of a block. *)
Definition eptr (size : Z) (b : block) (i : nat) : ptr := Ptr b (Z.of_nat i * size).

(** ** What the loops compute, on lists of records *)

Section Specs.

Variable compar : elem -> elem -> Z.

(** The insertion step of [insertion_sort], on the reversed prefix: the
    key passes every record that compares greater and stops at the first
    one that does not. *)
Fixpoint rinsert (key : elem) (rl : list elem) : list elem :=
  match rl with
  | [] => [key]
  | x :: rl' =>
      if 0 <? compar x key then x :: rinsert key rl' else key :: x :: rl'
  end.

Definition insert_right (key : elem) (l : list elem) : list elem :=
  reverse (rinsert key (reverse l)).

Definition isort (l : list elem) : list elem :=
  foldl (fun acc x => insert_right x acc) [] l.

(** The merge step of [p_merge]: the right record is taken only when the
    left one compares greater. *)
Fixpoint merge (l1 : list elem) : list elem -> list elem :=
  fix merge_aux (l2 : list elem) : list elem :=
    match l1, l2 with
    | [], _ => l2
    | _, [] => l1
    | x :: l1', y :: l2' =>
        if 0 <? compar x y then y :: merge_aux l2' else x :: merge l1' l2
    end.

(** The recursion of [p_merge_sort] on a range of [length X] records:
    the range is halved above the grain and above the insertion
    threshold, and handed to the insertion sort otherwise. *)
Fixpoint msort (fuel : nat) (grain : Z) (X : list elem) : list elem :=
  match fuel with
  | O => X
  | S fuel' =>
      let n := Z.of_nat (length X) in
      if 1 <? n then
        if (grain <? n) || negb (n <=? P_MERGE_INSERTION_COND) then
          let h := Z.to_nat ((n - 1) / 2 + 1) in
          merge (msort fuel' grain (take h X)) (msort fuel' grain (drop h X))
        else isort X
      else X
  end.

End Specs.

(** ** Comparators and what a sort owes its caller *)

(** A comparator that is consistent in the sense [qsort] asks for: the
    sign flips with the arguments, and "not greater" is transitive. *)
Record total_order (compar : elem -> elem -> Z) : Prop := {
  compar_antisym : forall x y, Z.sgn (compar y x) = - Z.sgn (compar x y);
  compar_trans : forall x y z, compar x y <= 0 -> compar y z <= 0 -> compar x z <= 0
}.

(** [x] is not greater than [y]. *)
Definition cle (compar : elem -> elem -> Z) (x y : elem) : Prop := compar x y <= 0.

(** The records of [l] that compare equal to [x], in the order of [l]. *)
Definition eq_class (compar : elem -> elem -> Z) (x : elem) (l : list elem) : list elem :=
  filter (fun y => compar y x = 0) l.

(** [out] keeps the records that compare equal in the order of [inp]. *)
Definition stable (compar : elem -> elem -> Z) (inp out : list elem) : Prop :=
  forall x, eq_class compar x out = eq_class compar x inp.

(** [out] is [inp] in non-decreasing order. *)
Definition sorted_perm (compar : elem -> elem -> Z) (inp out : list elem) : Prop :=
  out ≡ₚ inp /\ Sorted (cle compar) out.

(** Every record of [es] at an index in [lo, hi) satisfies [P]. *)
Definition all_in (P : elem -> Prop) (es : list elem) (lo hi : Z) : Prop :=
  forall (k : nat) x, lo <= Z.of_nat k < hi -> es !! k = Some x -> P x.

(** [es'] is [es] with the records at the indices [left .. right]
    rearranged. *)
Definition permuted_within (left right : nat) (es es' : list elem) : Prop :=
  es' ≡ₚ es /\ forall k : nat, (k < left \/ right < k)%nat -> es' !! k = es !! k.

(** ** A comparator and records for the examples *)

(** A [compar] callback that orders records by their first byte, as a
    comparator on a one-byte key field does. *)
Definition key_compar (a b : elem) : Z := hd 0 a - hd 0 b.

(** A record of 8 bytes: the key, a tag, and padding. *)
Definition rec8 (k t : Z) : elem := [k; t; 0; 0; 0; 0; 0; 0].

(** A record of 4 bytes. *)
Definition rec4 (k t : Z) : elem := [k; t; 0; 0].

(** A record of 16 bytes; the key and the tag are repeated in the second
    half, so that a record torn in two is recognised. *)
Definition rec16 (k t : Z) : elem :=
  [k; t; 0; 0; 0; 0; 0; 0; k; t; 1; 1; 1; 1; 1; 1].

(** The records of 8 bytes with the keys [ks], tagged by their position. *)
Definition tagged8 (ks : list Z) : list elem :=
  imap (fun i k => rec8 k (Z.of_nat i)) ks.

Definition tagged4 (ks : list Z) : list elem :=
  imap (fun i k => rec4 k (Z.of_nat i)) ks.

Definition tagged16 (ks : list Z) : list elem :=
  imap (fun i k => rec16 k (Z.of_nat i)) ks.

(** Six records, three of them with the key [3] and two with the key [1]. *)
Definition six_records : list elem := tagged8 [3; 1; 3; 1; 2; 3].

(** The [n] bytes at [p] lie inside the block of [p]. *)
Definition readable (p : ptr) (n : Z) (m : mem) : bool :=
  match get_blk (p_blk p) m with
  | Some buf => in_range buf (p_off p) n
  | None => false
  end.

(** The blocks of [m'] have the sizes of those of [m]. *)
Definition same_shape (m m' : mem) : Prop :=
  forall b, length <$> get_blk b m' = length <$> get_blk b m.

(** The computation [c] never stops at an assertion. *)
Definition no_assert {A} (c : M A) : Prop := forall m, c m <> Err AssertFail.

(** ** The compare-and-exchange pass of the bitonic merge, on records *)

(** The test of [merge_worker]: the pair is exchanged when it stands
    against the direction [asec]. *)
Definition out_of_order (compar : elem -> elem -> Z) (asec : bool) (x y : elem) : bool :=
  if asec then 0 <? compar x y else compar x y <? 0.

(** The loop of [merge_worker] over the [cnt] pairs [(i, i + m)],
    [(i + 1, i + 1 + m)], ... *)
Fixpoint exchange_pass (compar : elem -> elem -> Z) (asec : bool) (m cnt i : nat)
    (es : list elem) : list elem :=
  match cnt with
  | O => es
  | S cnt' =>
      let es1 :=
        match es !! i, es !! (i + m)%nat with
        | Some x, Some y =>
            if out_of_order compar asec x y then <[(i + m)%nat:=x]> (<[i:=y]> es) else es
        | _, _ => es
        end in
      exchange_pass compar asec m cnt' (S i) es1
  end.

(** A [compar] callback in the manner of [memcmp]: the records are
    compared byte by byte, and only identical records compare equal. *)
Fixpoint bytes_compar (a b : elem) : Z :=
  match a, b with
  | [], [] => 0
  | [], _ :: _ => -1
  | _ :: _, [] => 1
  | x :: a', y :: b' => if x =? y then bytes_compar a' b' else x - y
  end.

(** The first part of [p_quick_sort], up to the recursive calls: the
    selection of the pivot and the partition loop; it returns the cursors
    [(i, j)]. *)
Definition quick_partition (compar : elem -> elem -> Z) (fuel : nat) (base : ptr)
    (size left right : Z) : M (Z * Z) :=
  select_pivot compar base size left right ;;;
  partition_loop compar fuel base size left right.

(** The records of [l] are in non-decreasing order: each one is not
    greater than the next. *)
Fixpoint ascending (compar : elem -> elem -> Z) (l : list elem) : bool :=
  match l with
  | x :: (y :: _) as l' => (compar x y <=? 0) && ascending compar l'
  | _ => true
  end.

(** Forty records, with the ten keys [0 .. 9] four times each. *)
Definition forty_records : list elem :=
  tagged8 [7; 3; 9; 1; 5; 3; 8; 2; 6; 4; 0; 9; 3; 7; 1; 5; 2; 8; 4; 6;
           0; 3; 9; 7; 1; 5; 8; 2; 6; 4; 0; 7; 3; 9; 1; 5; 3; 8; 2; 6].

(** ** Two-colourings of the records, for the bitonic merge *)

(** The colour of [x] against the threshold [t]: [x] is greater than [t]. *)
Definition above (compar : elem -> elem -> Z) (t x : elem) : bool := 0 <? compar x t.

(** A two-colouring that respects the order: every record coloured
    [false] is less than every record coloured [true]. *)
Definition monotone (compar : elem -> elem -> Z) (c : elem -> bool) : Prop :=
  forall x y, c x = false -> c y = true -> compar x y < 0 /\ 0 < compar y x.

(** The colours along [l] are [negb neg] at the positions [a .. b - 1] and
    [neg] at the others. *)
Definition shape (c : elem -> bool) (neg : bool) (a b : nat) (l : list elem) : Prop :=
  forall i x, l !! i = Some x -> c x = xorb neg (bool_decide (a <= i < b)%nat).

(** The colours along [l] change at most twice, the end taken as next to
    the start: what a bitonic sequence looks like under a threshold. *)
Definition col_bitonic (c : elem -> bool) (l : list elem) : Prop :=
  exists neg a b, shape c neg a b l.

(** The colours along [l] change at most once, from [false] to [true] for
    [asec = true] and from [true] to [false] for [asec = false]. *)
Definition col_sorted (c : elem -> bool) (asec : bool) (l : list elem) : Prop :=
  exists a, forall i x, l !! i = Some x -> c x = xorb (negb asec) (bool_decide (a <= i)%nat).

(** [l] is in non-decreasing order for [asec = true], in non-increasing
    order for [asec = false]. *)
Definition sorted_in (compar : elem -> elem -> Z) (asec : bool) (l : list elem) : Prop :=
  if asec then StronglySorted (cle compar) l else StronglySorted (flip (cle compar)) l.

(** Sixty-four records, with keys that neither rise nor fall. *)
Definition sixty_four_records : list elem :=
  tagged8 [37; 3; 59; 1; 45; 3; 28; 62; 6; 14; 0; 9; 33; 7; 51; 5;
           2; 48; 4; 26; 60; 13; 9; 17; 41; 5; 8; 22; 56; 34; 10; 7;
           63; 19; 1; 35; 23; 58; 12; 46; 30; 54; 16; 40; 25; 11; 49; 38;
           20; 61; 29; 43; 15; 52; 31; 47; 18; 36; 55; 21; 42; 27; 50; 24].

(** ** The pass of the bitonic merge, as the specification words it *)




(** The [n] bytes at [q] do not meet the long at [p]. *)
Definition clear_of_long (q : ptr) (n : Z) (p : ptr) : Prop :=
  p_blk q <> p_blk p \/ p_off q + n <= p_off p \/ p_off p + 8 <= p_off q.

(** A block of 272 bytes: 136 bytes [1], then 136 bytes [2]. *)
Definition two_runs : list byte := replicate 136 1 ++ replicate 136 2.

(** * Verification *)

(** ** Machine arithmetic within range *)

Lemma u64_small x : 0 <= x < 2 ^ 64 -> u64 x = x.
Proof. intros. unfold u64. apply Z.mod_small. lia. Qed.

Lemma s64_small x : - 2 ^ 63 <= x < 2 ^ 63 -> s64 x = x.
Proof. intros. unfold s64. rewrite Z.mod_small; lia. Qed.

Lemma u64_range x : 0 <= u64 x < 2 ^ 64.
Proof. unfold u64. apply Z.mod_pos_bound. lia. Qed.

Ltac arith := first [ lia | nia ].

(** Lengths of the lists at hand, for the arithmetic side conditions. *)
Create Rewrite HintDb len.
#[local] Hint Rewrite @length_app @length_cons @length_nil @length_insert
  @length_replicate @length_reverse : len.
Ltac lin H := autorewrite with len in H; simpl length in H.
Ltac lens := autorewrite with len; simpl length.
Ltac len := lens; arith.

(** Removes the wrap-arounds of the goal, innermost first, where the
    context bounds the operands. *)
Ltac unwrap_step :=
  match goal with
  | |- context [u64 ?x] =>
      lazymatch x with
      | context [u64 _] => fail
      | context [s64 _] => fail
      | _ => rewrite (u64_small x) by arith
      end
  | |- context [s64 ?x] =>
      lazymatch x with
      | context [u64 _] => fail
      | context [s64 _] => fail
      | _ => rewrite (s64_small x) by arith
      end
  end.
Ltac unwrap := unfold add64, sub64, mul64, padd in *; simpl p_off; simpl p_blk; repeat unwrap_step.

(** ** Blocks as byte lists *)

Lemma read_bytes_Some buf off n bs :
  read_bytes buf off n = Some bs <->
  0 <= off /\ 0 <= n /\ off + n <= Z.of_nat (length buf) /\
  bs = take (Z.to_nat n) (drop (Z.to_nat off) buf).
Proof.
  unfold read_bytes, in_range.
  destruct (0 <=? off) eqn:E1, (0 <=? n) eqn:E2,
    (off + n <=? Z.of_nat (length buf)) eqn:E3; simpl;
    split; intros H; try discriminate; try (destruct H as (?&?&?&?); lia).
  - inversion H. repeat split; lia.
  - destruct H as (_&_&_&->). reflexivity.
Qed.

Lemma write_bytes_Some buf off bs buf' :
  write_bytes buf off bs = Some buf' <->
  0 <= off /\ off + Z.of_nat (length bs) <= Z.of_nat (length buf) /\
  buf' = take (Z.to_nat off) buf ++ bs ++ drop (Z.to_nat off + length bs) buf.
Proof.
  unfold write_bytes, in_range.
  destruct (0 <=? off) eqn:E1,
    (off + Z.of_nat (length bs) <=? Z.of_nat (length buf)) eqn:E3; simpl;
    replace (0 <=? Z.of_nat (length bs)) with true by (symmetry; apply Z.leb_le; lia);
    simpl; split; intros H; try discriminate; try (destruct H as (?&?&?); lia).
  - inversion H. repeat split; lia.
  - destruct H as (_&_&->). reflexivity.
Qed.

Lemma read_bytes_app (A X B : list byte) :
  read_bytes (A ++ X ++ B) (Z.of_nat (length A)) (Z.of_nat (length X)) = Some X.
Proof.
  apply read_bytes_Some. rewrite !length_app, !Nat2Z.id.
  repeat split; try lia.
  by rewrite drop_app_length, take_app_length.
Qed.

Lemma write_bytes_app (A X B Y : list byte) :
  length Y = length X ->
  write_bytes (A ++ X ++ B) (Z.of_nat (length A)) Y = Some (A ++ Y ++ B).
Proof.
  intros HY. apply write_bytes_Some. rewrite !length_app, !Nat2Z.id.
  repeat split; try lia.
  rewrite take_app_length, HY.
  by rewrite (app_assoc A X B), <- length_app, drop_app_length.
Qed.

Lemma length_write_bytes buf off bs buf' :
  write_bytes buf off bs = Some buf' -> length buf' = length buf.
Proof.
  intros (?&?&->)%write_bytes_Some.
  rewrite !length_app, length_take, length_drop. lia.
Qed.

(** ** Arrays of records *)

Lemma length_concat_uniform size es :
  uniform size es -> Z.of_nat (length (concat es)) = Z.of_nat (length es) * size.
Proof.
  induction 1 as [|e es He _ IH]; simpl; [lia|].
  rewrite length_app. lia.
Qed.

Lemma uniform_app size es1 es2 :
  uniform size (es1 ++ es2) <-> uniform size es1 /\ uniform size es2.
Proof. apply Forall_app. Qed.

Lemma uniform_insert size es i e :
  uniform size es -> Z.of_nat (length e) = size -> uniform size (<[i:=e]> es).
Proof. intros. by apply Forall_insert. Qed.

Lemma uniform_lookup size es (i : nat) e :
  uniform size es -> es !! i = Some e -> Z.of_nat (length e) = size.
Proof. intros H Hi. by apply (Forall_lookup_1 _ _ _ _ H Hi). Qed.

Lemma read_elem size es (i : nat) e :
  uniform size es -> es !! i = Some e ->
  read_bytes (concat es) (Z.of_nat i * size) size = Some e.
Proof.
  intros Hu Hi.
  pose proof (uniform_lookup _ _ _ _ Hu Hi) as He.
  pose proof (lookup_lt_Some _ _ _ Hi) as Hlt.
  rewrite <- (take_drop_middle es i e Hi) in Hu |- *.
  apply uniform_app in Hu as [Hu1 _].
  pose proof (length_concat_uniform _ _ Hu1) as Hl.
  rewrite length_take_le in Hl by lia.
  rewrite concat_app. simpl. rewrite <- Hl, <- He.
  apply read_bytes_app.
Qed.

Lemma insert_middle {A} (l1 l2 : list A) (i : nat) x y :
  length l1 = i -> <[i:=x]> (l1 ++ y :: l2) = l1 ++ x :: l2.
Proof.
  intros <-. rewrite insert_app_r_alt by lia.
  by rewrite Nat.sub_diag.
Qed.

Lemma write_elem size es (i : nat) e :
  uniform size es -> (i < length es)%nat -> Z.of_nat (length e) = size ->
  write_bytes (concat es) (Z.of_nat i * size) e = Some (concat (<[i:=e]> es)).
Proof.
  intros Hu Hi He.
  destruct (lookup_lt_is_Some_2 es i Hi) as [e0 He0].
  pose proof (uniform_lookup _ _ _ _ Hu He0) as Hl0.
  rewrite <- (take_drop_middle es i e0 He0) in Hu |- *.
  apply uniform_app in Hu as [Hu1 _].
  pose proof (length_concat_uniform _ _ Hu1) as Hl.
  rewrite length_take_le in Hl by lia.
  assert (length (take i es) = i) as Hti by (rewrite length_take_le; lia).
  rewrite insert_middle by done.
  rewrite !concat_app. simpl. rewrite <- Hl.
  apply write_bytes_app. lia.
Qed.

(** ** Loads and stores *)

Lemma get_set_blk b v m : get_blk b (set_blk b v m) = Some v.
Proof. by destruct b. Qed.

Lemma get_set_blk_ne b b' v m : b <> b' -> get_blk b' (set_blk b v m) = get_blk b' m.
Proof. by destruct b, b'. Qed.

Lemma set_set_blk b v v' m : set_blk b v' (set_blk b v m) = set_blk b v' m.
Proof. by destruct b. Qed.

Lemma load_Ok p n m bs m' :
  load p n m = Ok (bs, m') <->
  m' = m /\ exists buf, get_blk (p_blk p) m = Some buf /\ read_bytes buf (p_off p) n = Some bs.
Proof.
  unfold load. destruct (get_blk (p_blk p) m) as [buf|].
  - destruct (read_bytes buf (p_off p) n) as [bs'|] eqn:E; split.
    + intros [= <- <-]. eauto.
    + intros (-> & ? & [= <-] & H). rewrite E in H. by inversion H.
    + discriminate.
    + intros (_ & ? & [= <-] & H). by rewrite E in H.
  - split; [discriminate|]. intros (_ & ? & [=] & _).
Qed.

Lemma store_Ok p bs m m' :
  store p bs m = Ok (tt, m') <->
  exists buf buf', get_blk (p_blk p) m = Some buf /\
    write_bytes buf (p_off p) bs = Some buf' /\ m' = set_blk (p_blk p) buf' m.
Proof.
  unfold store. destruct (get_blk (p_blk p) m) as [buf|].
  - destruct (write_bytes buf (p_off p) bs) as [buf'|] eqn:E; split.
    + intros [= <-]. eauto.
    + intros (? & ? & [= <-] & H & ->). rewrite E in H. by inversion H.
    + discriminate.
    + intros (? & ? & [= <-] & H & _). by rewrite E in H.
  - split; [discriminate|]. intros (? & ? & [=] & _).
Qed.

Lemma padd_small p d :
  0 <= p_off p + d < 2 ^ 64 -> p +> d = Ptr (p_blk p) (p_off p + d).
Proof. intros. unfold padd. by rewrite u64_small. Qed.

Lemma load_split p a b m bs :
  0 <= a -> 0 <= b ->
  load p (a + b) m = Ok (bs, m) ->
  load p a m = Ok (take (Z.to_nat a) bs, m) /\
  load (Ptr (p_blk p) (p_off p + a)) b m = Ok (drop (Z.to_nat a) bs, m).
Proof.
  intros Ha Hb (_ & buf & Hg & (?&?&?&->)%read_bytes_Some)%load_Ok.
  split; apply load_Ok; (split; [done|]); exists buf; (split; [done|]);
    apply read_bytes_Some; simpl; (repeat split; [lia..|]).
  - rewrite take_take. f_equal. lia.
  - rewrite take_drop_commute, drop_drop, take_drop_commute.
    f_equal; [lia|]. f_equal. lia.
Qed.

Lemma store_split p b1 b2 m m' :
  store p (b1 ++ b2) m = Ok (tt, m') ->
  exists m1, store p b1 m = Ok (tt, m1) /\
    store (Ptr (p_blk p) (p_off p + Z.of_nat (length b1))) b2 m1 = Ok (tt, m').
Proof.
  intros (buf & buf' & Hg & (H0 & Hlen & ->)%write_bytes_Some & ->)%store_Ok.
  rewrite length_app in Hlen.
  set (off := Z.to_nat (p_off p)) in *.
  set (buf1 := take off buf ++ b1 ++ drop (off + length b1) buf).
  exists (set_blk (p_blk p) buf1 m). split.
  - apply store_Ok. exists buf, buf1. repeat split; [done|].
    apply write_bytes_Some. repeat split; try lia; done.
  - apply store_Ok. simpl. exists buf1, (take off buf ++ (b1 ++ b2) ++ drop (off + length (b1 ++ b2)) buf).
    rewrite get_set_blk, set_set_blk. repeat split.
    apply write_bytes_Some.
    assert (length (take off buf) = off) as Ht by (rewrite length_take_le; lia).
    repeat split; [lia| |].
    + unfold buf1. rewrite !length_app, Ht, length_drop. lia.
    + unfold buf1.
      replace (Z.to_nat (p_off p + Z.of_nat (length b1))) with (length (take off buf ++ b1))
        by (rewrite length_app; lia).
      rewrite (app_assoc (take off buf) b1), take_app_length.
      rewrite drop_app_add' by done.
      rewrite <- !app_assoc. do 3 f_equal.
      rewrite drop_drop, length_app. f_equal. lia.
Qed.

Lemma load_store_other p v q n m m1 bs :
  store p v m = Ok (tt, m1) ->
  load q n m = Ok (bs, m) ->
  p_blk p <> p_blk q \/ p_off q + n <= p_off p \/ p_off p + Z.of_nat (length v) <= p_off q ->
  load q n m1 = Ok (bs, m1).
Proof.
  intros (buf & buf' & Hg & (H0 & Hlen & ->)%write_bytes_Some & ->)%store_Ok.
  intros (_ & buf2 & Hg2 & Hr)%load_Ok Hdis.
  apply load_Ok. split; [done|].
  destruct (decide (p_blk p = p_blk q)) as [Heq|Hne].
  2: { exists buf2. by rewrite get_set_blk_ne. }
  rewrite <- Heq in *. rewrite get_set_blk. eexists; split; [done|].
  assert (buf2 = buf) as -> by congruence.
  apply read_bytes_Some in Hr as (?&?&?&->).
  set (off := Z.to_nat (p_off p)) in *.
  assert (length (take off buf) = off) as Ht by (rewrite length_take_le; lia).
  apply read_bytes_Some. repeat split; [lia..| |].
  { rewrite !length_app, Ht, length_drop. lia. }
  destruct Hdis as [?|[Hd|Hd]]; [done| |].
  - (* the load lies before the store *)
    rewrite !take_drop_commute. f_equal.
    rewrite take_app_le by lia. rewrite take_take. f_equal. lia.
  - (* the load lies after the store *)
    f_equal.
    rewrite (app_assoc (take off buf) v).
    rewrite drop_app_ge by (rewrite length_app; lia).
    rewrite length_app, Ht, drop_drop. f_equal. lia.
Qed.

(** A store is read back by a load of the same place. *)
Lemma load_store_same p bs m m' :
  store p bs m = Ok (tt, m') -> load p (Z.of_nat (length bs)) m' = Ok (bs, m').
Proof.
  intros H. apply store_Ok in H as (buf & buf' & Hb & Hw & ->).
  apply load_Ok. split; [done|]. exists buf'. split; [apply get_set_blk|].
  apply write_bytes_Some in Hw as (Hoff & Hlen & ->).
  apply read_bytes_Some. split; [done|]. split; [lia|]. split.
  - rewrite !length_app, length_take, length_drop. lia.
  - rewrite Nat2Z.id.
    rewrite drop_app_length' by (rewrite length_take; lia).
    by rewrite take_app_length.
Qed.

Lemma for_loop_S cnt i step body :
  for_loop (S cnt) i step body = (body i ;;; for_loop cnt (i + step) step body).
Proof. done. Qed.

Lemma bind_Ok {A B} (c : M A) (k : A -> M B) m a m' :
  c m = Ok (a, m') -> bind c k m = k a m'.
Proof. unfold bind. by intros ->. Qed.

Lemma bind_Err {A B} (c : M A) (k : A -> M B) m e :
  c m = Err e -> bind c k m = Err e.
Proof. unfold bind. by intros ->. Qed.

Lemma memcpy_loop_ok to from cnt : forall i m bs m',
  0 <= i -> 0 <= p_off to -> 0 <= p_off from ->
  p_off to + 8 * (i + Z.of_nat cnt) < 2 ^ 64 ->
  p_off from + 8 * (i + Z.of_nat cnt) < 2 ^ 64 ->
  load (Ptr (p_blk from) (p_off from + 8 * i)) (8 * Z.of_nat cnt) m = Ok (bs, m) ->
  store (Ptr (p_blk to) (p_off to + 8 * i)) bs m = Ok (tt, m') ->
  p_blk to <> p_blk from \/
  p_off to + 8 * (i + Z.of_nat cnt) <= p_off from + 8 * i \/
  p_off from + 8 * (i + Z.of_nat cnt) <= p_off to + 8 * i ->
  for_loop cnt i 1 (fun i => v <- load_long from i ;; store_long to i v) m = Ok (tt, m').
Proof.
  induction cnt as [|cnt IH]; intros i m bs m' Hi Hto Hfrom Hbt Hbf Hld Hst Hdis.
  - simpl. unfold ret.
    apply load_Ok in Hld as (_ & buf & Hg & (?&?&?&->)%read_bytes_Some).
    simpl in Hst. rewrite take_0 in Hst.
    apply store_Ok in Hst as (buf1 & buf' & Hg1 & (?&?&->)%write_bytes_Some & ->).
    simpl. rewrite Nat.add_0_r, take_drop.
    f_equal. f_equal. destruct m, (p_blk to); simpl in *; congruence.
  - rewrite for_loop_S.
    pose proof Hld as Hld0.
    apply load_Ok in Hld0 as (_ & buf & Hg & (?&?&?&Hbs)%read_bytes_Some).
    pose proof Hst as Hst0.
    apply store_Ok in Hst0 as (dbuf & buf' & Hgd & (?&?&_)%write_bytes_Some & _).
    simpl in *.
    replace (8 * Z.of_nat (S cnt)) with (8 + 8 * Z.of_nat cnt) in Hld by lia.
    apply load_split in Hld as [Hl1 Hl2]; [|lia..].
    rewrite <- (take_drop (Z.to_nat 8) bs) in Hst.
    apply store_split in Hst as (m1 & Hs1 & Hs2). simpl in Hs1, Hs2.
    assert (length (take (Z.to_nat 8) bs) = 8%nat) as Hl8.
    { rewrite Hbs, length_take_le; [lia|]. rewrite length_take, length_drop. lia. }
    rewrite Hl8 in Hs2.
    unfold load_long, store_long, mul64.
    rewrite (u64_small (8 * i)) by lia.
    rewrite !padd_small by lia.
    erewrite bind_Ok; [|erewrite bind_Ok; [|exact Hl1]; exact Hs1].
    simpl p_off in *.
    apply (IH (i + 1) m1 (drop (Z.to_nat 8) bs) m'); [lia..| | |].
    3: { destruct Hdis as [?|?]; [by left|right; lia]. }
    + eapply load_store_other; [exact Hs1| |].
      * replace (p_off from + 8 * (i + 1)) with (p_off from + 8 * i + 8) by lia. exact Hl2.
      * simpl. rewrite Hl8. destruct Hdis as [?|?]; [by left|right; lia].
    + replace (p_off to + 8 * (i + 1)) with (p_off to + 8 * i + Z.of_nat 8) by lia. exact Hs2.
Qed.

Lemma land7 n : 0 <= n -> Z.land n 7 = n mod 8.
Proof. intros. change 7 with (Z.ones 3). by rewrite Z.land_ones. Qed.

Lemma trips_unit lo hi : trips lo hi 1 = Z.to_nat (hi - lo).
Proof. unfold trips. rewrite Z.div_1_r. f_equal. lia. Qed.

(** [my_memcpy] is a load of the source followed by a store to the target,
    for a size that passes the assertion and regions that do not overlap. *)
Lemma my_memcpy_ok to from n m bs m' :
  0 <= n -> n mod 8 = 0 ->
  p_off to + n < 2 ^ 64 -> p_off from + n < 2 ^ 64 ->
  load from n m = Ok (bs, m) ->
  store to bs m = Ok (tt, m') ->
  p_blk to <> p_blk from \/ p_off to + n <= p_off from \/ p_off from + n <= p_off to ->
  my_memcpy to from n m = Ok (tt, m').
Proof.
  intros Hn Hmod Hbt Hbf Hld Hst Hdis. unfold my_memcpy.
  rewrite land7, Hmod by done. simpl.
  rewrite trips_unit, Z.shiftr_div_pow2, Z.sub_0_r by lia.
  change (2 ^ 3) with 8.
  assert (8 * Z.of_nat (Z.to_nat (n / 8)) = n) as Hk.
  { rewrite Z2Nat.id by (apply Z.div_pos; lia).
    pose proof (Z.div_mod n 8). lia. }
  pose proof Hld as (_ & ? & _ & (?&_)%read_bytes_Some)%load_Ok.
  pose proof Hst as (? & ? & _ & (?&_)%write_bytes_Some & _)%store_Ok.
  destruct from as [fb fo], to as [tb to_]. simpl in *.
  eapply (memcpy_loop_ok (Ptr tb to_) (Ptr fb fo) _ 0 m bs m'); simpl;
    rewrite ?Z.add_0_r, ?Z.add_0_l, ?Z.mul_0_r, ?Hk; try done; lia.
Qed.

(** ** Record-level reading of the primitives *)

Lemma get_blk_cm b s : get_blk b (cm s) = @concat Z <$> blk_elems b s.
Proof. destruct b; simpl; by rewrite ?app_nil_r. Qed.

Lemma set_blk_cm b es s :
  set_blk b (concat es) (cm s) = cm (set_elems b es s).
Proof. by destruct b. Qed.

Lemma load_elem size b s es (i : nat) e :
  blk_elems b s = Some es -> uniform size es -> es !! i = Some e ->
  load (eptr size b i) size (cm s) = Ok (e, cm s).
Proof.
  intros Hb Hu Hi. apply load_Ok. split; [done|]. simpl.
  rewrite get_blk_cm, Hb. simpl. eexists; split; [done|].
  by apply read_elem.
Qed.

Lemma store_elem size b s es (i : nat) e :
  blk_elems b s = Some es -> uniform size es -> (i < length es)%nat ->
  Z.of_nat (length e) = size ->
  store (eptr size b i) e (cm s) = Ok (tt, cm (set_elems b (<[i:=e]> es) s)).
Proof.
  intros Hb Hu Hi He. apply store_Ok. simpl.
  rewrite get_blk_cm, Hb. simpl. do 2 eexists. split; [done|].
  split; [by apply write_elem|].
  by rewrite set_blk_cm.
Qed.

Lemma memcpy_elem size s bp ps (i : nat) bq qs (j : nat) e :
  0 < size -> size mod 8 = 0 ->
  blk_elems bp s = Some ps -> uniform size ps -> (i < length ps)%nat ->
  blk_elems bq s = Some qs -> uniform size qs -> qs !! j = Some e ->
  bp <> bq \/ i <> j ->
  Z.of_nat (length ps) * size < 2 ^ 64 -> Z.of_nat (length qs) * size < 2 ^ 64 ->
  my_memcpy (eptr size bp i) (eptr size bq j) size (cm s)
  = Ok (tt, cm (set_elems bp (<[i:=e]> ps) s)).
Proof.
  intros Hs Hmod Hp Hup Hi Hq Huq Hj Hne Hbp Hbq.
  pose proof (lookup_lt_Some _ _ _ Hj) as Hjlt.
  assert (Z.of_nat (length e) = size) as He by (by eapply uniform_lookup).
  eapply my_memcpy_ok; simpl; [lia|done|nia|nia| | |].
  - by eapply load_elem.
  - by eapply store_elem.
  - destruct Hne as [?|Hij]; [by left|right]. nia.
Qed.

(** *** Pointer arithmetic on record addresses *)

Lemma eptr_add size b (n : nat) (d : Z) (k : nat) :
  0 < size -> 0 <= d -> Z.of_nat n * size + d = Z.of_nat k * size ->
  Z.of_nat k * size < 2 ^ 64 ->
  eptr size b n +> d = eptr size b k.
Proof.
  intros Hs Hd Hk Hb. unfold eptr, padd. simpl.
  rewrite Hk. by rewrite u64_small by lia.
Qed.

(** Rewrites a pointer [eptr size b n +> d] of the goal into the address of
    record [k]. *)
Ltac to_eptr k :=
  match goal with
  | |- context [eptr ?size ?b ?n +> ?d] =>
      rewrite (eptr_add size b n d k)
        by (try done; unfold add64, sub64, mul64; repeat unwrap_step; arith)
  end.

Ltac blk := simpl; reflexivity.

(** Splits and rebuilds [uniform] facts along [++] and [::]. *)
Ltac uni :=
  unfold uniform in *;
  repeat match goal with
         | H : Forall _ (_ ++ _) |- _ => apply Forall_app in H as [? ?]
         | H : Forall _ (_ :: _) |- _ => apply Forall_cons in H as [? ?]
         end;
  repeat first [ assumption
               | apply Forall_nil_2
               | apply Forall_app; split
               | apply Forall_cons; split ].

Section SortFacts.

Variable compar : elem -> elem -> Z.
Variable libc_qsort : (elem -> elem -> Z) -> list elem -> list elem.

Lemma compar_elem size s bp ps (i : nat) a bq qs (j : nat) b :
  blk_elems bp s = Some ps -> uniform size ps -> ps !! i = Some a ->
  blk_elems bq s = Some qs -> uniform size qs -> qs !! j = Some b ->
  call_compar compar (eptr size bp i) (eptr size bq j) size (cm s)
  = Ok (compar a b, cm s).
Proof.
  intros Hp Hup Hi Hq Huq Hj. unfold call_compar.
  erewrite bind_Ok by (by eapply load_elem).
  erewrite bind_Ok by (by eapply load_elem).
  done.
Qed.

(** *** Insertion sort *)

Lemma insert_right_snoc_gt key T x :
  0 < compar x key ->
  insert_right compar key (T ++ [x]) = insert_right compar key T ++ [x].
Proof.
  intros Hc. unfold insert_right. rewrite reverse_snoc. simpl.
  assert ((0 <? compar x key) = true) as -> by (by apply Z.ltb_lt).
  by rewrite reverse_cons.
Qed.

Lemma insert_right_snoc_le key T x :
  compar x key <= 0 ->
  insert_right compar key (T ++ [x]) = (T ++ [x]) ++ [key].
Proof.
  intros Hc. unfold insert_right. rewrite reverse_snoc. simpl.
  assert ((0 <? compar x key) = false) as -> by (apply Z.ltb_ge; lia).
  by rewrite !reverse_cons, reverse_involutive.
Qed.

Lemma insertion_shift_spec size pre post ts key pv :
  0 < size -> size mod 8 = 0 -> Z.of_nat (length key) = size ->
  forall T h D fuel,
  uniform size (pre ++ T ++ h :: D ++ post) ->
  Z.of_nat (length (pre ++ T ++ h :: D ++ post)) * size < 2 ^ 63 ->
  (length T < fuel)%nat ->
  exists T1 T2 h',
    T = T1 ++ T2 /\ insert_right compar key T = T1 ++ key :: T2 /\
    Z.of_nat (length h') = size /\
    insertion_shift compar fuel (eptr size Base (length pre)) size
      (Z.of_nat (length T) - 1)
      (cm (AState (pre ++ T ++ h :: D ++ post) ts key pv))
    = Ok (Z.of_nat (length T1) - 1,
          cm (AState (pre ++ T1 ++ h' :: T2 ++ D ++ post) ts key pv)).
Proof.
  intros Hs Hmod Hkey T. induction T as [|x T IH] using rev_ind;
    intros h D fuel Hu Hb Hfuel.
  - exists [], [], h. destruct fuel as [|fuel]; [simpl in Hfuel; lia|].
    split; [done|]. split; [done|]. split; [|done].
    apply Forall_app in Hu as [_ Hu]. simpl in Hu. by inversion Hu.
  - destruct fuel as [|fuel]; [simpl in Hfuel; lia|].
    rewrite length_app in Hfuel. simpl in Hfuel.
    pose proof Hb as Hb'. rewrite !length_app in Hb'. simpl in Hb'.
    rewrite length_app in Hb'. simpl in Hb'.
    replace (Z.of_nat (length (T ++ [x])) - 1) with (Z.of_nat (length T))
      by (rewrite length_app; simpl; lia).
    assert ((pre ++ (T ++ [x]) ++ h :: D ++ post) !! (length pre + length T)%nat = Some x) as Hx.
    { rewrite lookup_app_r by lia. rewrite <- app_assoc, lookup_app_r by lia.
      replace (length pre + length T - length pre - length T)%nat with 0%nat by lia. done. }
    assert (insertion_shift compar (S fuel) (eptr size Base (length pre)) size
              (Z.of_nat (length T))
              (cm (AState (pre ++ (T ++ [x]) ++ h :: D ++ post) ts key pv))
            = if 0 <? compar x key
              then insertion_shift compar fuel (eptr size Base (length pre)) size
                     (Z.of_nat (length T) - 1)
                     (cm (AState (pre ++ T ++ x :: (x :: D) ++ post) ts key pv))
              else Ok (Z.of_nat (length T),
                       cm (AState (pre ++ (T ++ [x]) ++ h :: D ++ post) ts key pv)))
      as Hstep.
    { simpl insertion_shift.
      assert ((0 <=? Z.of_nat (length T)) = true) as -> by (apply Z.leb_le; lia).
      to_eptr (length pre + length T)%nat.
      change (Ptr Key 0) with (eptr size Key 0).
      erewrite bind_Ok; cycle 1.
      { eapply compar_elem; [blk|exact Hu|exact Hx|blk| |reflexivity].
        by repeat constructor. }
      destruct (0 <? compar x key) eqn:Hc; [|done].
      to_eptr (length pre + length T + 1)%nat.
      erewrite bind_Ok; cycle 1.
      { eapply memcpy_elem; [done|done|blk|exact Hu| |blk|exact Hu|exact Hx| | |].
        - rewrite !length_app. simpl. rewrite length_app. simpl. lia.
        - right. lia.
        - lia.
        - lia. }
      simpl set_elems.
      assert (<[(length pre + length T + 1)%nat:=x]> (pre ++ (T ++ [x]) ++ h :: D ++ post)
              = pre ++ T ++ x :: (x :: D) ++ post) as ->.
      { rewrite insert_app_r_alt by lia.
        rewrite insert_app_r_alt by (rewrite length_app; simpl; lia).
        rewrite length_app. simpl.
        replace (length pre + length T + 1 - length pre - (length T + 1))%nat with 0%nat by lia.
        simpl. by rewrite <- !app_assoc. }
      by rewrite s64_small by lia. }
    rewrite Hstep. clear Hstep.
    destruct (0 <? compar x key) eqn:Hc.
    + apply Z.ltb_lt in Hc.
      destruct (IH x (x :: D) fuel) as (T1 & T2 & h' & HT & Hins & Hh' & Hrun).
      { apply Forall_app in Hu as [Hu1 Hu]. apply Forall_app in Hu as [Hu2 Hu].
        apply Forall_app in Hu2 as [Hu2 Hu3]. inversion Hu as [|?? Hh Hu4]; subst.
        apply Forall_app; split; [done|]. apply Forall_app; split; [done|].
        inversion Hu3; subst. by repeat constructor. }
      { rewrite !length_app. simpl. rewrite length_app. lia. }
      { lia. }
      exists T1, (T2 ++ [x]), h'. split; [by rewrite HT, app_assoc|].
      split; [by rewrite insert_right_snoc_gt, Hins, <- app_assoc|].
      split; [done|].
      rewrite Hrun. by rewrite <- !app_assoc.
    + apply Z.ltb_ge in Hc.
      exists (T ++ [x]), [], h. split; [by rewrite app_nil_r|].
      split; [by rewrite insert_right_snoc_le|].
      split.
      { apply Forall_app in Hu as [_ Hu]. apply Forall_app in Hu as [_ Hu]. by inversion Hu. }
      rewrite length_app. simpl.
      replace (Z.of_nat (length T + 1) - 1) with (Z.of_nat (length T)) by lia. done.
Qed.

Lemma length_insert_right key T :
  length (insert_right compar key T) = S (length T).
Proof.
  unfold insert_right. rewrite length_reverse, <- (length_reverse T).
  induction (reverse T) as [|x l IH]; simpl; [done|].
  destruct (0 <? compar x key); simpl; [by rewrite IH|done].
Qed.

Lemma uniform_insert_right size key T :
  Z.of_nat (length key) = size -> uniform size T ->
  uniform size (insert_right compar key T).
Proof.
  intros Hk Hu. unfold insert_right. apply Forall_reverse.
  apply Forall_reverse in Hu. revert Hu.
  induction (reverse T) as [|x l IH]; simpl; intros Hu; [by repeat constructor|].
  apply Forall_cons in Hu as [? ?].
  destruct (0 <? compar x key); repeat constructor; auto.
Qed.

Lemma insertion_body_spec size pre post ts key pv S0 y :
  0 < size -> size mod 8 = 0 -> Z.of_nat (length key) = size ->
  uniform size (pre ++ S0 ++ y :: post) ->
  Z.of_nat (length (pre ++ S0 ++ y :: post)) * size < 2 ^ 63 ->
  (0 < length S0)%nat ->
  insertion_body compar (eptr size Base (length pre)) size (Z.of_nat (length S0))
    (cm (AState (pre ++ S0 ++ y :: post) ts key pv))
  = Ok (tt, cm (AState (pre ++ insert_right compar y S0 ++ post) ts y pv)).
Proof.
  intros Hs Hmod Hkey Hu Hb Hpos.
  pose proof Hb as Hb'. rewrite !length_app in Hb'. simpl in Hb'.
  assert ((pre ++ S0 ++ y :: post) !! (length pre + length S0)%nat = Some y) as Hy.
  { rewrite lookup_app_r by lia. rewrite lookup_app_r by lia.
    replace (length pre + length S0 - length pre - length S0)%nat with 0%nat by lia. done. }
  assert (Z.of_nat (length y) = size) as Hly by (by eapply uniform_lookup).
  unfold insertion_body.
  to_eptr (length pre + length S0)%nat.
  change (Ptr Key 0) with (eptr size Key 0).
  erewrite bind_Ok; cycle 1.
  { eapply memcpy_elem; [done|done|blk| |simpl; lia|blk|exact Hu|exact Hy| | |].
    - by repeat constructor.
    - by left.
    - simpl. lia.
    - lia. }
  simpl set_elems. rewrite app_nil_r.
  replace (s64 (Z.of_nat (length S0) -! 1)) with (Z.of_nat (length S0) - 1)
    by (unfold sub64; repeat unwrap_step; done).
  destruct (insertion_shift_spec size pre post ts y pv Hs Hmod Hly S0 y []
              (Z.to_nat (Z.of_nat (length S0) - 1 + 2)))
    as (T1 & T2 & h' & HS & Hins & Hh' & Hrun); [done|done|lia|].
  simpl app in Hrun.
  erewrite bind_Ok by exact Hrun.
  assert (length S0 = (length T1 + length T2)%nat) as Hlen by (by rewrite HS, length_app).
  to_eptr (length pre + length T1)%nat.
  assert (uniform size (pre ++ T1 ++ h' :: T2 ++ post)) as Hu'.
  { subst S0. uni. }
  erewrite memcpy_elem; [|done|done|blk|exact Hu'| |blk| |reflexivity| | |].
  - simpl set_elems. do 3 f_equal.
    rewrite insert_app_r_alt by lia.
    replace (length pre + length T1 - length pre)%nat with (length T1) by lia.
    rewrite insert_middle by done. by rewrite Hins, <- app_assoc.
  - rewrite !length_app. simpl. rewrite length_app. lia.
  - by repeat constructor.
  - by left.
  - rewrite !length_app. simpl. rewrite length_app. lia.
  - simpl. lia.
Qed.

Lemma insertion_outer_spec size pre ts pv :
  0 < size -> size mod 8 = 0 ->
  forall Y S0 post key,
  Z.of_nat (length key) = size ->
  uniform size (pre ++ S0 ++ Y ++ post) ->
  Z.of_nat (length (pre ++ S0 ++ Y ++ post)) * size < 2 ^ 63 ->
  (0 < length S0)%nat ->
  exists key', Z.of_nat (length key') = size /\
    for_loop (length Y) (Z.of_nat (length S0)) 1
      (insertion_body compar (eptr size Base (length pre)) size)
      (cm (AState (pre ++ S0 ++ Y ++ post) ts key pv))
    = Ok (tt, cm (AState
            (pre ++ foldl (fun acc x => insert_right compar x acc) S0 Y ++ post)
            ts key' pv)).
Proof.
  intros Hs Hmod Y. induction Y as [|y Y IH]; intros S0 post key Hkey Hu Hb Hpos.
  - exists key. split; [done|]. done.
  - assert (Z.of_nat (length y) = size) as Hly by (clear IH; uni; done).
    destruct (IH (insert_right compar y S0) post y Hly) as (key' & Hk' & Hrun).
    + pose proof (uniform_insert_right size y S0 Hly). clear IH. uni; auto.
    + rewrite !length_app, length_insert_right.
      rewrite !length_app in Hb. simpl in Hb. lia.
    + rewrite length_insert_right. lia.
    + exists key'. split; [done|].
      simpl length. rewrite for_loop_S.
      erewrite bind_Ok by (by apply insertion_body_spec).
      rewrite length_insert_right in Hrun.
      replace (Z.of_nat (length S0) + 1) with (Z.of_nat (S (length S0))) by lia.
      exact Hrun.
Qed.

Lemma malloc_key_cm size es ts key pv :
  malloc_key size (cm (AState es ts key pv))
  = Ok (tt, cm (AState es ts (replicate (Z.to_nat size) 0) pv)).
Proof. done. Qed.

Lemma free_key_cm es ts key pv :
  free_key (cm (AState es ts key pv)) = Ok (tt, cm (AState es ts [] pv)).
Proof. done. Qed.

Lemma insertion_sort_spec size pre X post ts key pv :
  0 < size -> size mod 8 = 0 ->
  uniform size (pre ++ X ++ post) ->
  Z.of_nat (length (pre ++ X ++ post)) * size < 2 ^ 63 ->
  insertion_sort compar (eptr size Base (length pre)) (Z.of_nat (length X)) size
    (cm (AState (pre ++ X ++ post) ts key pv))
  = Ok (tt, cm (AState (pre ++ isort compar X ++ post) ts [] pv)).
Proof.
  intros Hs Hmod Hu Hb. unfold insertion_sort.
  erewrite bind_Ok by apply malloc_key_cm. rewrite trips_unit.
  destruct X as [|x0 Y].
  - simpl. done.
  - replace (Z.to_nat (Z.of_nat (length (x0 :: Y)) - 1)) with (length Y) by (simpl; lia).
    destruct (insertion_outer_spec size pre ts pv Hs Hmod Y [x0] post
                (replicate (Z.to_nat size) 0)) as (key' & Hk' & Hrun);
      [rewrite length_replicate; lia|done|done|simpl; lia|].
    change (Z.of_nat (length [x0])) with 1 in Hrun.
    change (pre ++ (x0 :: Y) ++ post) with (pre ++ [x0] ++ Y ++ post).
    erewrite bind_Ok by exact Hrun. apply free_key_cm.
Qed.

(** *** Merge *)

Lemma copy_to_temp_spec size es key pv (off : nat) :
  0 < size -> size mod 8 = 0 -> uniform size es ->
  Z.of_nat (length es) * size < 2 ^ 63 ->
  forall cnt (i0 : nat) tpre Z0 tpost,
  length tpre = (off + i0)%nat -> length Z0 = cnt ->
  (off + i0 + cnt <= length es)%nat ->
  uniform size (tpre ++ Z0 ++ tpost) ->
  Z.of_nat (length (tpre ++ Z0 ++ tpost)) * size < 2 ^ 63 ->
  for_loop cnt (Z.of_nat i0) 1
    (copy_body (eptr size Temp 0) (eptr size Base 0) size (Z.of_nat off))
    (cm (AState es (Some (tpre ++ Z0 ++ tpost)) key pv))
  = Ok (tt, cm (AState es (Some (tpre ++ take cnt (drop (off + i0) es) ++ tpost)) key pv)).
Proof.
  intros Hs Hmod Hu Hb cnt. induction cnt as [|cnt IH];
    intros i0 tpre Z0 tpost Hlt HlZ Hle Hut Hbt.
  - destruct Z0; [|done]. done.
  - destruct Z0 as [|z Z0]; [done|]. simpl in HlZ.
    destruct (lookup_lt_is_Some_2 es (off + i0)) as [e He]; [lia|].
    pose proof Hbt as Hbt'. rewrite !length_app in Hbt'. simpl in Hbt'.
    rewrite for_loop_S. unfold copy_body at 1.
    to_eptr (off + i0)%nat. to_eptr (off + i0)%nat.
    erewrite bind_Ok; cycle 1.
    { eapply memcpy_elem; [done|done|blk|exact Hut| |blk|exact Hu|exact He| | |].
      - len.
      - by left.
      - len.
      - len. }
    simpl set_elems.
    rewrite insert_app_r_alt by lia.
    replace (off + i0 - length tpre)%nat with 0%nat by lia. simpl.
    replace (Z.of_nat i0 + 1) with (Z.of_nat (S i0)) by lia.
    assert (Z.of_nat (length e) = size) as Hle'
      by (eapply uniform_lookup; [exact Hu|exact He]).
    replace (tpre ++ e :: Z0 ++ tpost) with ((tpre ++ [e]) ++ Z0 ++ tpost)
      by (by rewrite <- app_assoc).
    rewrite IH.
    + rewrite (drop_S es e (off + i0)) by done. simpl.
      replace (off + S i0)%nat with (S (off + i0)) by lia.
      by rewrite <- app_assoc.
    + rewrite length_app. simpl. lia.
    + lia.
    + lia.
    + clear IH. uni.
    + rewrite !length_app. simpl. lia.
Qed.

Lemma copy_rest_spec size ts key pv :
  0 < size -> size mod 8 = 0 -> uniform size ts ->
  Z.of_nat (length ts) * size < 2 ^ 63 ->
  forall cnt (i k : nat) pre Z0 post,
  length pre = k -> length Z0 = cnt ->
  (i + cnt <= length ts)%nat ->
  uniform size (pre ++ Z0 ++ post) ->
  Z.of_nat (length (pre ++ Z0 ++ post)) * size < 2 ^ 63 ->
  copy_rest cnt (eptr size Base 0) (eptr size Temp 0) size (Z.of_nat i) (Z.of_nat k)
    (cm (AState (pre ++ Z0 ++ post) (Some ts) key pv))
  = Ok (Z.of_nat (k + cnt),
        cm (AState (pre ++ take cnt (drop i ts) ++ post) (Some ts) key pv)).
Proof.
  intros Hs Hmod Hu Hb cnt. induction cnt as [|cnt IH];
    intros i k pre Z0 post Hlp HlZ Hle Hue Hbe.
  - destruct Z0; [|done]. simpl. unfold ret. by rewrite Nat.add_0_r.
  - destruct Z0 as [|z Z0]; [done|]. simpl in HlZ.
    destruct (lookup_lt_is_Some_2 ts i) as [e He]; [lia|].
    pose proof Hbe as Hbe'. rewrite !length_app in Hbe'. simpl in Hbe'.
    simpl copy_rest.
    to_eptr k. to_eptr i.
    erewrite bind_Ok; cycle 1.
    { eapply memcpy_elem; [done|done|blk|exact Hue| |blk|exact Hu|exact He| | |].
      - len.
      - by left.
      - len.
      - len. }
    simpl set_elems.
    rewrite insert_middle by done.
    assert (Z.of_nat (length e) = size) as Hle'
      by (eapply uniform_lookup; [exact Hu|exact He]).
    replace (pre ++ e :: Z0 ++ post) with ((pre ++ [e]) ++ Z0 ++ post)
      by (by rewrite <- app_assoc).
    replace (Z.of_nat i +! 1) with (Z.of_nat (S i))
      by (unfold add64; rewrite u64_small; arith).
    replace (Z.of_nat k +! 1) with (Z.of_nat (S k))
      by (unfold add64; rewrite u64_small; arith).
    rewrite IH.
    + rewrite (drop_S ts e i) by done. simpl.
      replace (k + S cnt)%nat with (S (k + cnt)) by lia.
      by rewrite <- app_assoc.
    + rewrite length_app. simpl. lia.
    + lia.
    + lia.
    + clear IH. uni.
    + rewrite !length_app. simpl. lia.
Qed.

Lemma merge_cons_cons x l1 y l2 :
  merge compar (x :: l1) (y :: l2)
  = if 0 <? compar x y then y :: merge compar (x :: l1) l2
    else x :: merge compar l1 (y :: l2).
Proof. done. Qed.

Lemma merge_nil_l l2 : merge compar [] l2 = l2.
Proof. by destruct l2. Qed.

Lemma merge_nil_r l1 : merge compar l1 [] = l1.
Proof. by destruct l1. Qed.

Section MergeLoop.

Variables (size : Z) (pre post tpre tpost : list elem) (key pv : elem).
Variables (L R : list elem).
Hypothesis Hs : 0 < size.
Hypothesis Hmod : size mod 8 = 0.
Hypothesis Hpre : length tpre = length pre.
Hypothesis Hut : uniform size (tpre ++ L ++ R ++ tpost).
Hypothesis Hbt : Z.of_nat (length (tpre ++ L ++ R ++ tpost)) * size < 2 ^ 63.

Let ts := tpre ++ L ++ R ++ tpost.
Let run fuel (a b : nat) (out : list elem) :=
  merge_loop compar fuel (eptr size Base 0) (eptr size Temp 0) size
    (Z.of_nat (length pre + length L))
    (Z.of_nat (length pre + length L + length R))
    (Z.of_nat (length pre + a))
    (Z.of_nat (length pre + length L + b))
    (Z.of_nat (length pre + a + b))
    (cm (AState out (Some ts) key pv)).

Lemma merge_loop_done fuel a b out :
  (a = length L \/ b = length R) -> (a <= length L)%nat -> (b <= length R)%nat ->
  run (S fuel) a b out
  = Ok ((Z.of_nat (length pre + a), Z.of_nat (length pre + length L + b),
         Z.of_nat (length pre + a + b)), cm (AState out (Some ts) key pv)).
Proof.
  intros Hab Ha Hb. unfold run. simpl merge_loop.
  assert (((Z.of_nat (length pre + a) <? Z.of_nat (length pre + length L))
           && (Z.of_nat (length pre + length L + b)
               <? Z.of_nat (length pre + length L + length R))) = false) as ->; [|done].
  apply andb_false_iff. rewrite !Z.ltb_ge. lia.
Qed.

Lemma merge_loop_step fuel a b x y OUT z REST :
  L !! a = Some x -> R !! b = Some y ->
  length OUT = (a + b)%nat ->
  uniform size (pre ++ OUT ++ z :: REST ++ post) ->
  Z.of_nat (length (pre ++ OUT ++ z :: REST ++ post)) * size < 2 ^ 63 ->
  run (S fuel) a b (pre ++ OUT ++ z :: REST ++ post)
  = if 0 <? compar x y
    then run fuel a (S b) (pre ++ (OUT ++ [y]) ++ REST ++ post)
    else run fuel (S a) b (pre ++ (OUT ++ [x]) ++ REST ++ post).
Proof.
  intros Hx Hy HO Hu Hb.
  pose proof (lookup_lt_Some _ _ _ Hx) as Ha.
  pose proof (lookup_lt_Some _ _ _ Hy) as Hb2.
  pose proof Hbt as Hbt'. pose proof Hb as Hb'. lin Hbt'. lin Hb'.
  assert (ts !! (length pre + a)%nat = Some x) as Htx.
  { unfold ts. rewrite lookup_app_r by lia. rewrite lookup_app_l by lia.
    rewrite <- Hx. f_equal. lia. }
  assert (ts !! (length pre + length L + b)%nat = Some y) as Hty.
  { unfold ts. rewrite lookup_app_r by lia. rewrite lookup_app_r by lia.
    rewrite lookup_app_l by lia. rewrite <- Hy. f_equal. lia. }
  assert (Z.of_nat (length x) = size) as Hlx
    by (eapply uniform_lookup; [exact Hut|exact Htx]).
  assert (Z.of_nat (length y) = size) as Hly
    by (eapply uniform_lookup; [exact Hut|exact Hty]).
  unfold run. simpl merge_loop.
  assert (((Z.of_nat (length pre + a) <? Z.of_nat (length pre + length L))
           && (Z.of_nat (length pre + length L + b)
               <? Z.of_nat (length pre + length L + length R))) = true) as ->.
  { apply andb_true_iff. rewrite !Z.ltb_lt. lia. }
  to_eptr (length pre + a)%nat. to_eptr (length pre + length L + b)%nat.
  erewrite bind_Ok; cycle 1.
  { eapply compar_elem; [blk|exact Hut|exact Htx|blk|exact Hut|exact Hty]. }
  assert (forall e, <[(length pre + a + b)%nat:=e]> (pre ++ OUT ++ z :: REST ++ post)
                    = pre ++ (OUT ++ [e]) ++ REST ++ post) as Hins.
  { intros e. rewrite insert_app_r_alt by lia.
    replace (length pre + a + b - length pre)%nat with (length OUT) by lia.
    rewrite insert_middle by done. by rewrite <- !app_assoc. }
  destruct (0 <? compar x y).
  - to_eptr (length pre + a + b)%nat.
    erewrite bind_Ok; cycle 1.
    { eapply memcpy_elem; [done|done|blk|exact Hu| |blk|exact Hut|exact Hty| | |].
      - len.
      - by left.
      - len.
      - unfold ts. len. }
    simpl set_elems. rewrite Hins. unfold add64.
    rewrite !u64_small by arith.
    by replace (Z.of_nat (length pre + length L + b) + 1)
      with (Z.of_nat (length pre + length L + S b)) by lia;
    replace (Z.of_nat (length pre + a + b) + 1)
      with (Z.of_nat (length pre + a + S b)) by lia.
  - to_eptr (length pre + a + b)%nat.
    erewrite bind_Ok; cycle 1.
    { eapply memcpy_elem; [done|done|blk|exact Hu| |blk|exact Hut|exact Htx| | |].
      - len.
      - by left.
      - len.
      - unfold ts. len. }
    simpl set_elems. rewrite Hins. unfold add64.
    rewrite !u64_small by arith.
    by replace (Z.of_nat (length pre + a) + 1)
      with (Z.of_nat (length pre + S a)) by lia;
    replace (Z.of_nat (length pre + a + b) + 1)
      with (Z.of_nat (length pre + S a + b)) by lia.
Qed.

Lemma merge_loop_spec : forall fuel (a b : nat) OUT REST,
  (a <= length L)%nat -> (b <= length R)%nat ->
  length OUT = (a + b)%nat ->
  length REST = (length L - a + (length R - b))%nat ->
  uniform size (pre ++ OUT ++ REST ++ post) ->
  Z.of_nat (length (pre ++ OUT ++ REST ++ post)) * size < 2 ^ 63 ->
  (length L - a + (length R - b) < fuel)%nat ->
  exists (a' b' : nat) M,
    (a <= a' <= length L)%nat /\ (b <= b' <= length R)%nat /\
    (a' = length L \/ b' = length R) /\
    length M = (a' - a + (b' - b))%nat /\
    merge compar (drop a L) (drop b R) = M ++ merge compar (drop a' L) (drop b' R) /\
    uniform size M /\
    run fuel a b (pre ++ OUT ++ REST ++ post)
    = Ok ((Z.of_nat (length pre + a'), Z.of_nat (length pre + length L + b'),
           Z.of_nat (length pre + a' + b')),
          cm (AState (pre ++ (OUT ++ M) ++ drop (length M) REST ++ post)
                (Some ts) key pv)).
Proof.
  induction fuel as [|fuel IH]; intros a b OUT REST Ha Hb HO HR Hu Hbb Hf; [lia|].
  destruct (decide (a = length L \/ b = length R)) as [Hdone|Hgo].
  - exists a, b, []. split; [lia|]. split; [lia|]. split; [done|].
    split; [simpl; lia|]. split; [done|]. split; [by apply Forall_nil|].
    rewrite merge_loop_done by done. by rewrite app_nil_r.
  - assert (a < length L)%nat as Ha' by lia.
    assert (b < length R)%nat as Hb' by lia.
    destruct (lookup_lt_is_Some_2 L a Ha') as [x Hx].
    destruct (lookup_lt_is_Some_2 R b Hb') as [y Hy].
    destruct REST as [|z REST]; [simpl in HR; lia|]. simpl in HR.
    pose proof (merge_loop_step fuel a b x y OUT z REST Hx Hy HO Hu Hbb) as Hstep.
    assert (Z.of_nat (length x) = size /\ Z.of_nat (length y) = size) as [Hlx Hly].
    { split; (eapply uniform_lookup; [exact Hut|]).
      - instantiate (1 := (length tpre + a)%nat).
        rewrite lookup_app_r by lia. rewrite lookup_app_l by lia.
        rewrite <- Hx. f_equal. lia.
      - instantiate (1 := (length tpre + length L + b)%nat).
        rewrite lookup_app_r by lia. rewrite lookup_app_r by lia.
        rewrite lookup_app_l by lia. rewrite <- Hy. f_equal. lia. }
    rewrite (drop_S L x a Hx), (drop_S R y b Hy), merge_cons_cons.
    destruct (0 <? compar x y).
    + pose proof Hbb as Hbb'. lin Hbb'.
      destruct (IH a (S b) (OUT ++ [y]) REST) as (a' & b' & M & ? & ? & ? & HM & Hm & HuM & Hrun);
        [lia|lia|len|lia| |len|lia|].
      { clear IH. uni. }
      exists a', b', (y :: M). split; [lia|]. split; [lia|]. split; [done|].
      split; [simpl; lia|].
      split; [by rewrite <- (drop_S L x a Hx), Hm|].
      split; [by apply Forall_cons|].
      etrans; [apply Hstep|]. rewrite Hrun. simpl. by rewrite <- !app_assoc.
    + pose proof Hbb as Hbb'. lin Hbb'.
      destruct (IH (S a) b (OUT ++ [x]) REST) as (a' & b' & M & ? & ? & ? & HM & Hm & HuM & Hrun);
        [lia|lia|len|lia| |len|lia|].
      { clear IH. uni. }
      exists a', b', (x :: M). split; [lia|]. split; [lia|]. split; [done|].
      split; [simpl; lia|].
      split; [by rewrite <- (drop_S R y b Hy), Hm|].
      split; [by apply Forall_cons|].
      etrans; [apply Hstep|]. rewrite Hrun. simpl. by rewrite <- !app_assoc.
Qed.

End MergeLoop.

Lemma merge_perm l1 : forall l2, merge compar l1 l2 ≡ₚ l1 ++ l2.
Proof.
  induction l1 as [|x l1 IH1]; intros l2.
  - by rewrite merge_nil_l.
  - induction l2 as [|y l2 IH2].
    + by rewrite merge_nil_r, app_nil_r.
    + rewrite merge_cons_cons. destruct (0 <? compar x y).
      * rewrite IH2. by rewrite <- Permutation_middle.
      * by rewrite IH1.
Qed.

Lemma rinsert_perm key rl : rinsert compar key rl ≡ₚ key :: rl.
Proof.
  induction rl as [|x rl IH]; simpl; [done|].
  destruct (0 <? compar x key); [|done].
  by rewrite IH, Permutation_swap.
Qed.

Lemma insert_right_perm key l : insert_right compar key l ≡ₚ key :: l.
Proof.
  unfold insert_right.
  by rewrite reverse_Permutation, rinsert_perm, reverse_Permutation.
Qed.

Lemma isort_perm l : isort compar l ≡ₚ l.
Proof.
  unfold isort. change l with ([] ++ l) at 2. generalize (@nil (list Z)).
  induction l as [|x l IH]; intros acc; simpl.
  - by rewrite app_nil_r.
  - rewrite IH, insert_right_perm. simpl. apply Permutation_middle.
Qed.

Lemma msort_perm fuel grain : forall X, msort compar fuel grain X ≡ₚ X.
Proof.
  induction fuel as [|fuel IH]; intros X; simpl; [done|].
  destruct (1 <? Z.of_nat (length X)); [|done].
  destruct ((grain <? Z.of_nat (length X))
            || negb (Z.of_nat (length X) <=? P_MERGE_INSERTION_COND)).
  - by rewrite merge_perm, !IH, take_drop.
  - apply isort_perm.
Qed.

Lemma length_msort fuel grain X : length (msort compar fuel grain X) = length X.
Proof. apply Permutation_length, msort_perm. Qed.

Lemma uniform_msort size fuel grain X :
  uniform size X -> uniform size (msort compar fuel grain X).
Proof. unfold uniform. by rewrite msort_perm. Qed.

Lemma p_merge_spec size pre L R post tpre tmid tpost key pv :
  0 < size -> size mod 8 = 0 ->
  length tpre = length pre -> length tmid = (length L + length R)%nat ->
  (0 < length L)%nat ->
  uniform size (pre ++ L ++ R ++ post) ->
  Z.of_nat (length (pre ++ L ++ R ++ post)) * size < 2 ^ 63 ->
  uniform size (tpre ++ tmid ++ tpost) ->
  Z.of_nat (length (tpre ++ tmid ++ tpost)) * size < 2 ^ 63 ->
  p_merge compar (eptr size Base 0) (eptr size Temp 0) size
    (Z.of_nat (length pre))
    (Z.of_nat (length pre + length L + length R) - 1)
    (Z.of_nat (length pre + length L) - 1)
    (cm (AState (pre ++ L ++ R ++ post) (Some (tpre ++ tmid ++ tpost)) key pv))
  = Ok (tt, cm (AState (pre ++ merge compar L R ++ post)
                  (Some (tpre ++ L ++ R ++ tpost)) key pv)).
Proof.
  intros Hs Hmod Hpre Hmid HL Hu Hb Hut Hbt.
  pose proof Hb as Hb'. pose proof Hbt as Hbt'. lin Hb'. lin Hbt'.
  unfold p_merge. cbv zeta.
  replace (Z.of_nat (length pre + length L) - 1 -! Z.of_nat (length pre) +! 1)
    with (Z.of_nat (length L)) by (unfold add64, sub64; repeat unwrap_step; lia).
  replace (Z.of_nat (length pre + length L + length R) - 1
           -! (Z.of_nat (length pre + length L) - 1))
    with (Z.of_nat (length R)) by (unfold add64, sub64; repeat unwrap_step; lia).
  replace (Z.of_nat (length pre + length L) - 1 +! 1)
    with (Z.of_nat (length pre + length L)) by (unfold add64, sub64; repeat unwrap_step; lia).
  replace (Z.of_nat (length L) +! Z.of_nat (length pre))
    with (Z.of_nat (length pre + length L)) by (unfold add64, sub64; repeat unwrap_step; lia).
  replace (Z.of_nat (length R) +! (Z.of_nat (length pre + length L) - 1) +! 1)
    with (Z.of_nat (length pre + length L + length R))
    by (unfold add64, sub64; repeat unwrap_step; lia).
  rewrite !trips_unit, !Z.sub_0_r, !Nat2Z.id.
  (* the two halves are copied to the scratch buffer *)
  rewrite <- (take_drop (length L) tmid) at 1. rewrite <- (app_assoc _ _ tpost).
  erewrite bind_Ok; cycle 1.
  { apply (copy_to_temp_spec size _ key pv (length pre) Hs Hmod Hu Hb (length L) 0%nat).
    - lia.
    - rewrite length_take. lia.
    - len.
    - rewrite <- (take_drop (length L) tmid) in Hut. rewrite <- (app_assoc _ _ tpost) in Hut.
      exact Hut.
    - lens. rewrite length_take, length_drop. lia. }
  rewrite Nat.add_0_r, drop_app_length, take_app_length.
  rewrite (app_assoc tpre L).
  erewrite bind_Ok; cycle 1.
  { apply (copy_to_temp_spec size _ key pv (length pre + length L) Hs Hmod Hu Hb (length R) 0%nat).
    - len.
    - rewrite length_drop. lia.
    - len.
    - rewrite <- (take_drop (length L) tmid) in Hut. uni.
    - lens. rewrite length_drop. lia. }
  rewrite Nat.add_0_r.
  replace (drop (length pre + length L) (pre ++ L ++ R ++ post)) with (R ++ post)
    by (rewrite (app_assoc pre L), drop_app_length'; [done|len]).
  rewrite take_app_length, <- (app_assoc tpre L).
  assert (uniform size (tpre ++ L ++ R ++ tpost)) as Hut'.
  { rewrite <- (take_drop (length L) tmid) in Hut. uni. }
  assert (Z.of_nat (length (tpre ++ L ++ R ++ tpost)) * size < 2 ^ 63) as Hbt2 by len.
  (* the merge loop *)
  destruct (merge_loop_spec size pre post tpre tpost key pv L R Hs Hmod Hpre Hut' Hbt2
              (Z.to_nat (Z.of_nat (length L) + Z.of_nat (length R) + 1)) 0 0 [] (L ++ R))
    as (a' & b' & M & Ha' & Hb2 & Hab & HM & Hm & HuM & Hrun);
    [lia|lia|done|len|simpl; by rewrite <- app_assoc|simpl; by rewrite <- app_assoc|lia|].
  cbv zeta in Hrun. rewrite !Nat.add_0_r in Hrun. simpl app in Hrun.
  rewrite <- (app_assoc L R post) in Hrun.
  rewrite !drop_0 in Hm.
  erewrite bind_Ok by exact Hrun.
  cbv beta iota. rewrite !trips_unit.
  replace (Z.to_nat (Z.of_nat (length pre + length L) - Z.of_nat (length pre + a')))
    with (length L - a')%nat by lia.
  replace (Z.to_nat (Z.of_nat (length pre + length L + length R)
                     - Z.of_nat (length pre + length L + b')))
    with (length R - b')%nat by lia.
  (* what is left of the left half, then of the right half *)
  assert (uniform size (pre ++ M ++ drop (length M) (L ++ R) ++ post)) as Hu2.
  { apply Forall_app in Hu as [? Hu]. rewrite app_assoc in Hu.
    apply Forall_app in Hu as [Hu ?].
    apply Forall_app; split; [done|]. apply Forall_app; split; [done|].
    apply Forall_app; split; [|done]. by apply Forall_drop. }
  rewrite <- (take_drop (length L - a') (drop (length M) (L ++ R))) in Hu2 |- *.
  rewrite <- (app_assoc _ _ post) in Hu2 |- *.
  rewrite (app_assoc pre M) in Hu2 |- *.
  erewrite bind_Ok; cycle 1.
  { apply (copy_rest_spec size _ key pv Hs Hmod Hut' Hbt2 (length L - a')%nat
             (length pre + a')%nat (length pre + a' + b')%nat).
    - len.
    - rewrite length_take, length_drop. len.
    - len.
    - exact Hu2.
    - lens. rewrite length_take, !length_drop. len. }
  replace (take (length L - a') (drop (length pre + a') (tpre ++ L ++ R ++ tpost)))
    with (drop a' L).
  2: { rewrite drop_app_add' by done. rewrite drop_app_le by lia.
       rewrite take_app_le by (rewrite length_drop; lia).
       rewrite take_ge by (rewrite length_drop; lia). done. }
  rewrite (app_assoc (pre ++ M) (drop a' L)).
  assert (uniform size (drop a' L)) as HuL.
  { apply Forall_drop. clear Hrun Hu2. uni. }
  erewrite bind_Ok; cycle 1.
  { apply (copy_rest_spec size _ key pv Hs Hmod Hut' Hbt2 (length R - b')%nat
             (length pre + length L + b')%nat (length pre + a' + b' + (length L - a'))%nat).
    - lens. rewrite length_drop. lia.
    - rewrite !length_drop. len.
    - len.
    - clear Hrun. apply Forall_app in Hu2 as [Hu2 Hu3]. apply Forall_app in Hu3 as [_ Hu3].
      apply Forall_app. split; [|done]. apply Forall_app. split; done.
    - lens. rewrite !length_drop. len. }
  replace (take (length R - b') (drop (length pre + length L + b') (tpre ++ L ++ R ++ tpost)))
    with (drop b' R).
  2: { rewrite (app_assoc tpre L), drop_app_add' by len.
       rewrite drop_app_le by lia.
       rewrite take_app_le by (rewrite length_drop; lia).
       rewrite take_ge by (rewrite length_drop; lia). done. }
  unfold ret. do 3 f_equal.
  rewrite Hm. rewrite <- !app_assoc. do 2 f_equal.
  destruct Hab as [-> | ->].
  - rewrite drop_all, merge_nil_l. done.
  - rewrite drop_all, merge_nil_r. done.
Qed.

(** *** Merge sort *)

Lemma p_merge_spec' size pre L R post tpre tmid tpost key pv l r m :
  0 < size -> size mod 8 = 0 ->
  length tpre = length pre -> length tmid = (length L + length R)%nat ->
  (0 < length L)%nat ->
  uniform size (pre ++ L ++ R ++ post) ->
  Z.of_nat (length (pre ++ L ++ R ++ post)) * size < 2 ^ 63 ->
  uniform size (tpre ++ tmid ++ tpost) ->
  Z.of_nat (length (tpre ++ tmid ++ tpost)) * size < 2 ^ 63 ->
  l = Z.of_nat (length pre) ->
  r = Z.of_nat (length pre + length L + length R) - 1 ->
  m = Z.of_nat (length pre + length L) - 1 ->
  p_merge compar (eptr size Base 0) (eptr size Temp 0) size l r m
    (cm (AState (pre ++ L ++ R ++ post) (Some (tpre ++ tmid ++ tpost)) key pv))
  = Ok (tt, cm (AState (pre ++ merge compar L R ++ post)
                  (Some (tpre ++ L ++ R ++ tpost)) key pv)).
Proof. intros. subst l r m. by apply p_merge_spec. Qed.

Lemma p_merge_sort_S fuel base temp nelem size l r grain :
  p_merge_sort compar (S fuel) base temp nelem size l r grain
  = if l <? r then
      if grain <? nelem then
        let m := (l +! r) / 2 in
        p_merge_sort compar fuel base temp (m -! l +! 1) size l m grain ;;;
        p_merge_sort compar fuel base temp (r -! m) size (m +! 1) r grain ;;;
        p_merge compar base temp size l r m
      else if 1 <? nelem then
        if nelem <=? P_MERGE_INSERTION_COND then
          insertion_sort compar (base +> l *! size) nelem size
        else
          let m := (l +! r) / 2 in
          p_merge_sort compar fuel base temp (m -! l +! 1) size l m grain ;;;
          p_merge_sort compar fuel base temp (r -! m) size (m +! 1) r grain ;;;
          p_merge compar base temp size l r m
      else ret tt
    else ret tt.
Proof. done. Qed.

Lemma msort_S fuel grain X :
  msort compar (S fuel) grain X
  = let n := Z.of_nat (length X) in
    if 1 <? n then
      if (grain <? n) || negb (n <=? P_MERGE_INSERTION_COND) then
        let h := Z.to_nat ((n - 1) / 2 + 1) in
        merge compar (msort compar fuel grain (take h X)) (msort compar fuel grain (drop h X))
      else isort compar X
    else X.
Proof. done. Qed.

Lemma p_merge_sort_spec size grain :
  0 < size -> size mod 8 = 0 ->
  forall fuel pre X post tpre tmid tpost key pv nelem l r,
  (1 <= length X <= fuel)%nat ->
  length tpre = length pre -> length tmid = length X ->
  uniform size (pre ++ X ++ post) ->
  Z.of_nat (length (pre ++ X ++ post)) * size < 2 ^ 63 ->
  uniform size (tpre ++ tmid ++ tpost) ->
  Z.of_nat (length (tpre ++ tmid ++ tpost)) * size < 2 ^ 63 ->
  nelem = Z.of_nat (length X) ->
  l = Z.of_nat (length pre) ->
  r = Z.of_nat (length pre + length X) - 1 ->
  exists tmid' key',
    length tmid' = length X /\ uniform size (tpre ++ tmid' ++ tpost) /\
    p_merge_sort compar fuel (eptr size Base 0) (eptr size Temp 0) nelem size l r grain
      (cm (AState (pre ++ X ++ post) (Some (tpre ++ tmid ++ tpost)) key pv))
    = Ok (tt, cm (AState (pre ++ msort compar fuel grain X ++ post)
                    (Some (tpre ++ tmid' ++ tpost)) key' pv)).
Proof.
  intros Hs Hmod. induction fuel as [|fuel IH];
    intros pre X post tpre tmid tpost key pv nelem l r
      Hlen Hpre Hmid Hu Hb Hut Hbt Hnelem Hl Hr; [lia|].
  pose proof Hb as Hb'. pose proof Hbt as Hbt'. lin Hb'. lin Hbt'.
  assert (Z.of_nat (length pre + (length X + length post)) < 2 ^ 63) as HN by nia.
  rewrite p_merge_sort_S, msort_S. cbv zeta.
  set (h := Z.to_nat ((Z.of_nat (length X) - 1) / 2 + 1)).
  (* the two recursive calls and the merge *)
  assert ((2 <= length X)%nat ->
    exists tmid' key',
      length tmid' = length X /\ uniform size (tpre ++ tmid' ++ tpost) /\
      (p_merge_sort compar fuel (eptr size Base 0) (eptr size Temp 0)
         ((l +! r) / 2 -! l +! 1) size l ((l +! r) / 2) grain ;;;
       p_merge_sort compar fuel (eptr size Base 0) (eptr size Temp 0)
         (r -! (l +! r) / 2) size ((l +! r) / 2 +! 1) r grain ;;;
       p_merge compar (eptr size Base 0) (eptr size Temp 0) size l r ((l +! r) / 2))
        (cm (AState (pre ++ X ++ post) (Some (tpre ++ tmid ++ tpost)) key pv))
      = Ok (tt, cm (AState
               (pre ++ merge compar (msort compar fuel grain (take h X))
                                    (msort compar fuel grain (drop h X)) ++ post)
               (Some (tpre ++ tmid' ++ tpost)) key' pv))) as Hsplit.
  { intros H2.
    pose proof (Z.div_mod (Z.of_nat (length X) - 1) 2 ltac:(lia)) as Hdm.
    pose proof (Z.mod_pos_bound (Z.of_nat (length X) - 1) 2 ltac:(lia)) as Hmb.
    assert (1 <= h < length X)%nat as Hh by (unfold h; lia).
    assert ((l +! r) / 2 = Z.of_nat (length pre + h) - 1) as ->.
    { unfold add64. rewrite u64_small by (subst l r; lia). subst l r.
      symmetry. apply Z.div_unique with (r := (Z.of_nat (length X) - 1) mod 2); [lia|].
      unfold h. lia. }
    clear Hdm Hmb.
    clearbody h.
    remember (take h X) as X1 eqn:HX1. remember (drop h X) as X2 eqn:HX2.
    remember (take h tmid) as T1 eqn:HT1. remember (drop h tmid) as T2 eqn:HT2.
    assert (length X1 = h) as HlX1 by (subst X1; rewrite length_take; lia).
    assert (length X2 = (length X - h)%nat) as HlX2 by (subst X2; by rewrite length_drop).
    assert (length T1 = h) as HlT1 by (subst T1; rewrite length_take; lia).
    assert (length T2 = (length X - h)%nat) as HlT2 by (subst T2; rewrite length_drop; lia).
    assert (X = X1 ++ X2) as HX by (subst X1 X2; by rewrite take_drop).
    assert (tmid = T1 ++ T2) as HT by (subst T1 T2; by rewrite take_drop).
    clear HX1 HX2 HT1 HT2. subst X tmid.
    rewrite <- !app_assoc in *.
    destruct (IH pre X1 (X2 ++ post) tpre T1 (T2 ++ tpost) key pv
                (Z.of_nat (length pre + h) - 1 -! l +! 1) l (Z.of_nat (length pre + h) - 1))
      as (t1 & key1 & Hlt1 & Hut1 & Hrun1);
      [lia|done|lia|done|done|done|done| |done|lia|].
    { subst l. unfold add64, sub64. repeat unwrap_step. lia. }
    erewrite bind_Ok by exact Hrun1.
    set (L := msort compar fuel grain X1) in *.
    assert (length L = h) as HlL by (unfold L; by rewrite length_msort).
    assert (uniform size L) as HuL by (apply uniform_msort; clear Hrun1 IH; uni).
    destruct (IH (pre ++ L) X2 post (tpre ++ t1) T2 tpost key1 pv
                (r -! (Z.of_nat (length pre + h) - 1))
                (Z.of_nat (length pre + h) - 1 +! 1) r)
      as (t2 & key2 & Hlt2 & Hut2 & Hrun2);
      [lia|len|lia| | |by rewrite <- app_assoc| | | | |].
    { clear Hrun1 IH. uni. }
    { lens. lin Hb. lia. }
    { lens. lin Hbt. lia. }
    { subst l r. unfold add64, sub64. repeat unwrap_step. len. }
    { subst l r. unfold add64, sub64. repeat unwrap_step. len. }
    { subst l r. len. }
    rewrite <- !app_assoc in Hrun2.
    erewrite bind_Ok by exact Hrun2.
    set (R := msort compar fuel grain X2) in *.
    assert (length R = (length (X1 ++ X2) - h)%nat) as HlR
      by (unfold R; rewrite length_msort; lia).
    assert (uniform size R) as HuR by (apply uniform_msort; clear Hrun1 Hrun2 IH; uni).
    exists (L ++ R), key2.
    split; [len|].
    split; [clear Hrun1 Hrun2 IH; uni|].
    rewrite <- (app_assoc L R tpost), (app_assoc t1 t2 tpost).
    apply p_merge_spec'; try done.
    - len.
    - lia.
    - clear Hrun1 Hrun2 IH. uni.
    - lens. lin Hb. lia.
    - rewrite <- !app_assoc in Hut2. rewrite <- !app_assoc. exact Hut2.
    - lens. lin Hbt. lia.
    - subst r. len.
    - lia. }
  destruct (l <? r) eqn:Hlr.
  2: { apply Z.ltb_ge in Hlr.
       assert ((1 <? Z.of_nat (length X)) = false) as -> by (apply Z.ltb_ge; lia).
       exists tmid, key. done. }
  apply Z.ltb_lt in Hlr.
  assert ((1 <? Z.of_nat (length X)) = true) as H1 by (apply Z.ltb_lt; lia).
  rewrite H1. subst nelem. rewrite H1.
  destruct (grain <? Z.of_nat (length X)); simpl orb.
  { apply Hsplit. lia. }
  destruct (Z.of_nat (length X) <=? P_MERGE_INSERTION_COND); simpl negb.
  2: { apply Hsplit. lia. }
  exists tmid, []. split; [done|]. split; [done|].
  to_eptr (length pre).
  by apply insertion_sort_spec.
Qed.

(** *** Order, permutation and stability of the list functions *)

Section Order.

Hypothesis Hto : total_order compar.

Lemma cle_refl x : cle compar x x.
Proof.
  unfold cle. pose proof (compar_antisym _ Hto x x). lia.
Qed.

Lemma cle_trans x y z : cle compar x y -> cle compar y z -> cle compar x z.
Proof. apply (compar_trans _ Hto). Qed.

Lemma cle_total x y : cle compar x y \/ cle compar y x.
Proof. unfold cle. pose proof (compar_antisym _ Hto x y). lia. Qed.

Lemma gt_cle x y : 0 < compar x y -> cle compar y x.
Proof. unfold cle. pose proof (compar_antisym _ Hto x y). lia. Qed.

Lemma ceq_sym x y : compar x y = 0 -> compar y x = 0.
Proof. pose proof (compar_antisym _ Hto x y). lia. Qed.

Lemma ceq_cle_l x y z : compar x y = 0 -> cle compar y z -> cle compar x z.
Proof. intros H. apply cle_trans. unfold cle. lia. Qed.

Lemma ceq_cle_r x y z : cle compar x y -> compar y z = 0 -> cle compar x z.
Proof. intros H1 H2. apply (cle_trans _ _ _ H1). unfold cle. lia. Qed.

Lemma ceq_trans x y z : compar x y = 0 -> compar y z = 0 -> compar x z = 0.
Proof.
  intros H1 H2.
  assert (cle compar x z) by (apply (cle_trans x y z); unfold cle; lia).
  assert (cle compar z x).
  { apply ceq_sym in H1, H2. apply (cle_trans z y x); unfold cle; lia. }
  pose proof (compar_antisym _ Hto x z). unfold cle in *. lia.
Qed.

(** No record of a list that lies above [x] compares equal to [x]. *)
Lemma eq_class_above x y l :
  0 < compar y x \/ (exists z, 0 < compar y z /\ compar z x = 0) ->
  Forall (cle compar y) l -> eq_class compar x l = [].
Proof.
  intros Hy Hl. unfold eq_class. induction Hl as [|e l He Hl IH]; [done|].
  rewrite filter_cons. case_decide as Hex; [|done]. exfalso.
  assert (cle compar y x) as Hyx by (by apply (ceq_cle_r y e x)).
  destruct Hy as [Hy|(z & Hyz & Hzx)].
  - unfold cle in Hyx. lia.
  - assert (cle compar y z).
    { apply (ceq_cle_r y x z); [done|]. by apply ceq_sym. }
    unfold cle in *. lia.
Qed.

Lemma eq_class_app x l1 l2 :
  eq_class compar x (l1 ++ l2) = eq_class compar x l1 ++ eq_class compar x l2.
Proof. apply filter_app. Qed.

(** **** Insertion *)

Lemma insert_right_split key T :
  exists T1 T2,
    T = T1 ++ T2 /\ insert_right compar key T = T1 ++ key :: T2 /\
    Forall (fun e => 0 < compar e key) T2 /\
    (T1 = [] \/ exists T1' e, T1 = T1' ++ [e] /\ compar e key <= 0).
Proof.
  induction T as [|x T IH] using rev_ind.
  - exists [], []. repeat split; auto.
  - destruct (Z_lt_le_dec 0 (compar x key)) as [Hgt|Hle].
    + destruct IH as (T1 & T2 & -> & Hins & HT2 & HT1).
      exists T1, (T2 ++ [x]). split; [by rewrite app_assoc|].
      split; [by rewrite insert_right_snoc_gt, Hins, <- app_assoc|].
      split; [|done]. apply Forall_app. split; [done|]. by repeat constructor.
    + exists (T ++ [x]), []. split; [by rewrite app_nil_r|].
      split; [by rewrite insert_right_snoc_le|].
      split; [done|]. right. eauto.
Qed.

Lemma insert_right_sorted key T :
  StronglySorted (cle compar) T ->
  StronglySorted (cle compar) (insert_right compar key T).
Proof.
  intros HT. destruct (insert_right_split key T) as (T1 & T2 & -> & -> & HT2 & HT1).
  apply StronglySorted_app in HT as (H12 & Hs1 & Hs2).
  apply StronglySorted_app. split; [|split; [done|]].
  - intros a b Ha Hb. apply elem_of_cons in Hb as [->|Hb]; [|by apply H12].
    destruct HT1 as [->|(T1' & e & -> & He)]; [by apply elem_of_nil in Ha|].
    apply StronglySorted_app in Hs1 as (Hs1 & _ & _).
    apply elem_of_app in Ha as [Ha|Ha].
    * apply (cle_trans a e key); [|done]. apply Hs1; [done|]. by apply list_elem_of_singleton.
    * apply list_elem_of_singleton in Ha as ->. done.
  - constructor; [done|].
    eapply Forall_impl; [exact HT2|]. intros e He. by apply gt_cle.
Qed.

Lemma insert_right_stable key T x :
  eq_class compar x (insert_right compar key T)
  = eq_class compar x T ++ eq_class compar x [key].
Proof.
  destruct (insert_right_split key T) as (T1 & T2 & -> & -> & HT2 & _).
  rewrite !eq_class_app. change (key :: T2) with ([key] ++ T2).
  rewrite eq_class_app, <- app_assoc. f_equal.
  unfold eq_class at 1 4. rewrite !filter_cons, filter_nil.
  case_decide as Hk; [|by rewrite app_nil_r].
  assert (eq_class compar x T2 = []) as ->; [|done].
  unfold eq_class. induction HT2 as [|e T2 He _ IH]; [done|].
  rewrite filter_cons. case_decide as Hex; [|done]. exfalso.
  assert (compar e key = 0); [|lia].
  apply (ceq_trans e x key); [done|]. by apply ceq_sym.
Qed.

Lemma isort_sorted l : StronglySorted (cle compar) (isort compar l).
Proof.
  unfold isort. assert (StronglySorted (cle compar) []) as H by constructor.
  revert H. generalize (@nil (list Z)).
  induction l as [|x l IH]; intros acc Hacc; simpl; [done|].
  apply IH. by apply insert_right_sorted.
Qed.

Lemma isort_stable l : stable compar l (isort compar l).
Proof.
  intros x. unfold isort. change l with ([] ++ l) at 2. generalize (@nil (list Z)).
  induction l as [|y l IH]; intros acc; simpl.
  - by rewrite app_nil_r.
  - rewrite IH, !eq_class_app, insert_right_stable.
    change (y :: l) with ([y] ++ l). by rewrite eq_class_app, <- app_assoc.
Qed.

(** **** Merge *)

Lemma merge_sorted l1 : forall l2,
  StronglySorted (cle compar) l1 -> StronglySorted (cle compar) l2 ->
  StronglySorted (cle compar) (merge compar l1 l2).
Proof.
  induction l1 as [|x l1 IH1]; intros l2 H1 H2.
  - by rewrite merge_nil_l.
  - induction l2 as [|y l2 IH2].
    + by rewrite merge_nil_r.
    + rewrite merge_cons_cons.
      apply StronglySorted_inv in H1 as [Hs1 Hx].
      pose proof H2 as H2'. apply StronglySorted_inv in H2' as [Hs2 Hy].
      destruct (0 <? compar x y) eqn:Hc.
      * apply Z.ltb_lt in Hc. constructor; [by apply IH2|].
        rewrite merge_perm. apply Forall_app. split; [|done].
        constructor; [by apply gt_cle|].
        eapply Forall_impl; [exact Hx|]. intros e He.
        apply (cle_trans y x e); [by apply gt_cle|done].
      * apply Z.ltb_ge in Hc. constructor; [by apply IH1|].
        rewrite merge_perm. apply Forall_app. split; [done|].
        constructor; [done|].
        eapply Forall_impl; [exact Hy|]. intros e He. by apply (cle_trans x y e).
Qed.

Lemma merge_stable l1 : forall l2 x,
  StronglySorted (cle compar) l1 ->
  eq_class compar x (merge compar l1 l2)
  = eq_class compar x l1 ++ eq_class compar x l2.
Proof.
  induction l1 as [|a l1 IH1]; intros l2 x H1.
  - by rewrite merge_nil_l.
  - induction l2 as [|b l2 IH2].
    + by rewrite merge_nil_r, app_nil_r.
    + rewrite merge_cons_cons.
      pose proof H1 as H1'. apply StronglySorted_inv in H1' as [Hs1 Ha].
      destruct (0 <? compar a b) eqn:Hc.
      * apply Z.ltb_lt in Hc.
        change (b :: merge compar (a :: l1) l2) with ([b] ++ merge compar (a :: l1) l2).
        change (b :: l2) with ([b] ++ l2).
        rewrite !eq_class_app, IH2, !app_assoc. f_equal.
        unfold eq_class at 1 4. rewrite !filter_cons, filter_nil.
        case_decide as Hb; [|by rewrite app_nil_r].
        rewrite (eq_class_above x a (a :: l1)); [done| |].
        -- right. eauto.
        -- constructor; [apply cle_refl|done].
      * change (a :: merge compar l1 (b :: l2)) with ([a] ++ merge compar l1 (b :: l2)).
        change (a :: l1) with ([a] ++ l1).
        by rewrite !eq_class_app, IH1, !app_assoc.
Qed.

(** **** Merge sort *)

Lemma msort_sorted grain fuel : forall X,
  (length X <= fuel)%nat -> StronglySorted (cle compar) (msort compar fuel grain X).
Proof.
  induction fuel as [|fuel IH]; intros X Hlen.
  - destruct X; [constructor|simpl in Hlen; lia].
  - rewrite msort_S. cbv zeta.
    destruct (1 <? Z.of_nat (length X)) eqn:H1.
    2: { apply Z.ltb_ge in H1. destruct X as [|x [|??]]; simpl in H1; try lia.
         - constructor.
         - by repeat constructor. }
    apply Z.ltb_lt in H1.
    destruct ((grain <? Z.of_nat (length X))
              || negb (Z.of_nat (length X) <=? P_MERGE_INSERTION_COND));
      [|apply isort_sorted].
    pose proof (Z.div_mod (Z.of_nat (length X) - 1) 2 ltac:(lia)) as Hdm.
    pose proof (Z.mod_pos_bound (Z.of_nat (length X) - 1) 2 ltac:(lia)) as Hmb.
    apply merge_sorted; apply IH.
    + rewrite length_take. lia.
    + rewrite length_drop. lia.
Qed.

Lemma msort_stable grain fuel : forall X,
  (length X <= fuel)%nat -> stable compar X (msort compar fuel grain X).
Proof.
  induction fuel as [|fuel IH]; intros X Hlen x; [done|].
  rewrite msort_S. cbv zeta.
  destruct (1 <? Z.of_nat (length X)) eqn:H1; [|done].
  apply Z.ltb_lt in H1.
  destruct ((grain <? Z.of_nat (length X))
            || negb (Z.of_nat (length X) <=? P_MERGE_INSERTION_COND));
    [|apply isort_stable].
  pose proof (Z.div_mod (Z.of_nat (length X) - 1) 2 ltac:(lia)) as Hdm.
  pose proof (Z.mod_pos_bound (Z.of_nat (length X) - 1) 2 ltac:(lia)) as Hmb.
  set (h := Z.to_nat ((Z.of_nat (length X) - 1) / 2 + 1)).
  rewrite merge_stable by (apply msort_sorted; rewrite length_take; lia).
  rewrite !IH by (rewrite ?length_take, ?length_drop; lia).
  by rewrite <- eq_class_app, take_drop.
Qed.

End Order.

(** *** The merge-sort entry point *)

Lemma concat_replicate_zero (n : nat) (size : Z) :
  0 <= size ->
  concat (replicate n (replicate (Z.to_nat size) 0)) = replicate (Z.to_nat (Z.of_nat n * size)) 0.
Proof.
  intros Hs. induction n as [|n IH]; [done|].
  rewrite replicate_S. simpl concat. rewrite IH, <- replicate_add. f_equal. lia.
Qed.

Lemma uniform_replicate_zero (n : nat) (size : Z) :
  0 <= size -> uniform size (replicate n (replicate (Z.to_nat size) 0)).
Proof.
  intros Hs. apply Forall_replicate. rewrite length_replicate. lia.
Qed.

Lemma msort_small fuel grain X :
  (length X <= 1)%nat -> msort compar fuel grain X = X.
Proof.
  intros Hl. destruct fuel as [|fuel]; [done|]. rewrite msort_S. cbv zeta.
  assert ((1 <? Z.of_nat (length X)) = false) as -> by (apply Z.ltb_ge; lia). done.
Qed.

(** From the allocation of the scratch buffer to its release. *)
Lemma merge_sort_call size es key pv :
  0 < size -> size mod 8 = 0 -> uniform size es ->
  Z.of_nat (length es) * size < 2 ^ 63 -> (1 <= length es)%nat ->
  exists key',
  (malloc_temp true (size *! Z.of_nat (length es)) ;;;
   p_merge_sort compar (Z.to_nat (Z.of_nat (length es))) (Ptr Base 0) (Ptr Temp 0)
     (Z.of_nat (length es)) size 0 (Z.of_nat (length es) -! 1)
     (merge_grain (Z.of_nat (length es))) ;;;
   free_temp) (cm (AState es None key pv))
  = Ok (tt, Mem (concat (msort compar (length es) (merge_grain (Z.of_nat (length es))) es))
              None key' pv).
Proof.
  intros Hs Hmod Hu Hb Hlen.
  assert (malloc_temp true (size *! Z.of_nat (length es)) (cm (AState es None key pv))
          = Ok (tt, cm (AState es (Some (replicate (length es) (replicate (Z.to_nat size) 0)))
                          key pv))) as Hmalloc.
  { unfold malloc_temp, cm. simpl. do 3 f_equal.
    rewrite concat_replicate_zero by lia. unfold mul64.
    rewrite u64_small by lia. do 2 f_equal. lia. }
  destruct (p_merge_sort_spec size (merge_grain (Z.of_nat (length es))) Hs Hmod
              (length es) [] es [] [] (replicate (length es) (replicate (Z.to_nat size) 0)) []
              key pv (Z.of_nat (length es)) 0 (Z.of_nat (length es) -! 1))
    as (tmid' & key' & Hl' & Hu' & Hrun).
  - lia.
  - done.
  - by rewrite length_replicate.
  - by rewrite app_nil_r.
  - by rewrite app_nil_r.
  - rewrite app_nil_r. simpl. apply uniform_replicate_zero. lia.
  - rewrite app_nil_r. simpl. by rewrite length_replicate.
  - done.
  - done.
  - unfold sub64. rewrite u64_small by lia. simpl. lia.
  - simpl in Hrun. rewrite !app_nil_r in Hrun.
    exists key'. erewrite bind_Ok by exact Hmalloc.
    rewrite Nat2Z.id. change (Ptr Base 0) with (eptr size Base 0).
    change (Ptr Temp 0) with (eptr size Temp 0).
    erewrite bind_Ok by exact Hrun. done.
Qed.

Lemma emu_sort_local_merge_run size es :
  0 < size -> size mod 8 = 0 -> uniform size es ->
  Z.of_nat (length es) * size < 2 ^ 63 ->
  run (fun base => emu_sort_local_merge compar true base (Z.of_nat (length es)) size)
    (concat es)
  = Ok (concat (msort compar (length es) (merge_grain (Z.of_nat (length es))) es)).
Proof.
  intros Hs Hmod Hu Hb. unfold run, emu_sort_local_merge.
  destruct (1 <? Z.of_nat (length es)) eqn:H1.
  - apply Z.ltb_lt in H1.
    destruct (merge_sort_call size es [] [] Hs Hmod Hu Hb ltac:(lia)) as (key' & Hrun).
    change (Mem (concat es) None [] []) with (cm (AState es None [] [])).
    by rewrite Hrun.
  - apply Z.ltb_ge in H1. rewrite msort_small by lia. done.
Qed.

(** *** Calls of the library sort *)

Lemma reshape_concat_uniform size X :
  uniform size X -> reshape (replicate (length X) (Z.to_nat size)) (concat X) = X.
Proof.
  induction 1 as [|e X He _ IH]; [done|].
  assert (Z.to_nat size = length e) as Hsz by lia.
  simpl. rewrite Hsz in *. by rewrite take_app_length, drop_app_length, IH.
Qed.

Lemma qsort_spec size pre X post ts key pv :
  0 < size -> uniform size (pre ++ X ++ post) ->
  Z.of_nat (length (pre ++ X ++ post)) * size < 2 ^ 63 ->
  libc_qsort compar X ≡ₚ X ->
  qsort compar libc_qsort (eptr size Base (length pre)) (Z.of_nat (length X)) size
    (cm (AState (pre ++ X ++ post) ts key pv))
  = Ok (tt, cm (AState (pre ++ libc_qsort compar X ++ post) ts key pv)).
Proof.
  intros Hs Hu Hb Hperm. pose proof Hb as Hb'. lin Hb'.
  apply Forall_app in Hu as [Hupre Hu]. apply Forall_app in Hu as [HuX Hupost].
  assert (uniform size (libc_qsort compar X)) as HuY by (unfold uniform; by rewrite Hperm).
  pose proof (length_concat_uniform _ _ Hupre) as Hlpre.
  pose proof (length_concat_uniform _ _ HuX) as HlX.
  pose proof (length_concat_uniform _ _ HuY) as HlY.
  rewrite (Permutation_length Hperm) in HlY.
  unfold qsort, mul64. rewrite u64_small by nia.
  erewrite bind_Ok; cycle 1.
  { apply load_Ok. split; [done|]. simpl. eexists. split; [reflexivity|].
    rewrite !concat_app, <- Hlpre, <- HlX. apply read_bytes_app. }
  rewrite Nat2Z.id, reshape_concat_uniform by done.
  apply store_Ok. simpl. do 2 eexists. split; [reflexivity|]. split.
  - rewrite !concat_app, <- Hlpre. apply write_bytes_app. lia.
  - unfold cm. simpl. by rewrite !concat_app.
Qed.

(** *** The entry points that sort by merging or by the library sort *)

Lemma qsort_run size es :
  0 < size -> uniform size es -> Z.of_nat (length es) * size < 2 ^ 63 ->
  libc_qsort compar es ≡ₚ es ->
  run (fun base => qsort compar libc_qsort base (Z.of_nat (length es)) size) (concat es)
  = Ok (concat (libc_qsort compar es)).
Proof.
  intros Hs Hu Hb Hperm. unfold run.
  change (Mem (concat es) None [] []) with (cm (AState es None [] [])).
  change (Ptr Base 0) with (eptr size Base (@length (list Z) [])).
  pose proof (qsort_spec size [] es [] None [] [] Hs) as Hq.
  simpl app in Hq. rewrite !app_nil_r in Hq. rewrite Hq; try done.
Qed.

Lemma emu_sort_local_run size es :
  0 < size -> size mod 8 = 0 -> uniform size es ->
  Z.of_nat (length es) * size < 2 ^ 63 ->
  libc_qsort compar es ≡ₚ es ->
  run (fun base => emu_sort_local compar libc_qsort true base (Z.of_nat (length es)) size)
    (concat es)
  = Ok (concat (if MIN_BITONIC_LENGTH <=? Z.of_nat (length es)
                then msort compar (length es) (merge_grain (Z.of_nat (length es))) es
                else libc_qsort compar es)).
Proof.
  intros Hs Hmod Hu Hb Hperm. unfold emu_sort_local.
  destruct (MIN_BITONIC_LENGTH <=? Z.of_nat (length es)) eqn:H32.
  - apply Z.leb_le in H32. unfold MIN_BITONIC_LENGTH in H32. unfold run.
    destruct (merge_sort_call size es [] [] Hs Hmod Hu Hb ltac:(lia)) as (key' & Hrun).
    change (Mem (concat es) None [] []) with (cm (AState es None [] [])).
    by rewrite Hrun.
  - by apply qsort_run.
Qed.

Lemma emu_sort_local_bitonic_small size es :
  0 < size -> uniform size es -> Z.of_nat (length es) * size < 2 ^ 63 ->
  Z.of_nat (length es) < MIN_BITONIC_LENGTH ->
  libc_qsort compar es ≡ₚ es ->
  run (fun base => emu_sort_local_bitonic compar libc_qsort base (Z.of_nat (length es)) size)
    (concat es)
  = Ok (concat (libc_qsort compar es)).
Proof.
  intros Hs Hu Hb H32 Hperm. unfold emu_sort_local_bitonic.
  assert ((MIN_BITONIC_LENGTH <=? Z.of_nat (length es)) = false) as ->
    by (apply Z.leb_gt; lia).
  by apply qsort_run.
Qed.

(** *** The exchange of two records of 8 bytes *)

Lemma swap_elem8 es ts key pv (i j : nat) x y :
  uniform 8 es -> Z.of_nat (length es) * 8 < 2 ^ 63 ->
  es !! i = Some x -> es !! j = Some y ->
  swap (eptr 8 Base i) (eptr 8 Base j) 8 (cm (AState es ts key pv))
  = Ok (tt, cm (AState (<[j:=x]> (<[i:=y]> es)) ts key pv)).
Proof.
  intros Hu Hb Hx Hy.
  pose proof (lookup_lt_Some _ _ _ Hx) as Hi.
  pose proof (lookup_lt_Some _ _ _ Hy) as Hj.
  assert (Z.of_nat (length x) = 8) as Hlx by (eapply uniform_lookup; [exact Hu|exact Hx]).
  assert (Z.of_nat (length y) = 8) as Hly by (eapply uniform_lookup; [exact Hu|exact Hy]).
  unfold swap. change (8 mod 8 =? 0) with true. change (trips 0 8 8) with 1%nat.
  cbv iota. rewrite for_loop_S. unfold load_long, store_long.
  change (8 *! 0) with 0. rewrite !padd_small by (simpl; lia).
  simpl p_blk. simpl p_off. rewrite !Z.add_0_r.
  fold (eptr 8 Base i). fold (eptr 8 Base j).
  erewrite bind_Ok; [done|].
  erewrite bind_Ok by (eapply load_elem; [blk|exact Hu|exact Hx]).
  erewrite bind_Ok by (eapply load_elem; [blk|exact Hu|exact Hy]).
  erewrite bind_Ok by (eapply store_elem; [blk|exact Hu|done|done]).
  simpl set_elems.
  erewrite store_elem; [done|blk| |by rewrite length_insert|done].
  by apply uniform_insert.
Qed.

(** *** Quick sort, on records of 8 bytes *)

Section Partition.

Variables (ts : option (list elem)) (key pv : elem).
Hypothesis Hpv : Z.of_nat (length pv) = 8.

Lemma compar_pivot es (i : nat) x :
  uniform 8 es -> Z.of_nat (length es) * 8 < 2 ^ 63 -> es !! i = Some x ->
  call_compar compar (eptr 8 Base 0 +> u64 (Z.of_nat i) *! 8) (Ptr Pivot 0) 8
    (cm (AState es ts key pv))
  = Ok (compar x pv, cm (AState es ts key pv)).
Proof.
  intros Hu Hb Hx. pose proof (lookup_lt_Some _ _ _ Hx) as Hi.
  to_eptr i. change (Ptr Pivot 0) with (eptr 8 Pivot 0).
  eapply compar_elem; [blk|exact Hu|exact Hx|blk| |reflexivity].
  by repeat constructor.
Qed.

Lemma scan_up_spec es :
  uniform 8 es -> Z.of_nat (length es) * 8 < 2 ^ 63 ->
  forall fuel (i ku : nat) e,
  (i <= ku)%nat -> es !! ku = Some e -> 0 <= compar e pv -> (ku - i < fuel)%nat ->
  exists (i' : nat) e',
    (i <= i' <= ku)%nat /\ es !! i' = Some e' /\ 0 <= compar e' pv /\
    (forall (k : nat) x, (i <= k < i')%nat -> es !! k = Some x -> compar x pv < 0) /\
    scan_up compar fuel (eptr 8 Base 0) 8 (Z.of_nat i) (cm (AState es ts key pv))
    = Ok (Z.of_nat i', cm (AState es ts key pv)).
Proof.
  intros Hu Hb. induction fuel as [|fuel IH]; intros i ku e Hik Hku He Hf; [lia|].
  pose proof (lookup_lt_Some _ _ _ Hku) as Hkl.
  destruct (lookup_lt_is_Some_2 es i ltac:(lia)) as [x Hx].
  destruct (Z_lt_le_dec (compar x pv) 0) as [Hlt|Hge].
  - assert (i <> ku) as Hne by (intros ->; simplify_eq; lia).
    destruct (IH (S i) ku e) as (i' & e' & Hi' & He' & Hc' & Hall & Hrun); [lia|done|done|lia|].
    exists i', e'. split; [lia|]. split; [done|]. split; [done|]. split.
    + intros k y Hk Hy. destruct (decide (k = i)) as [->|Hki].
      * by simplify_eq.
      * apply (Hall k); [lia|done].
    + simpl scan_up. erewrite bind_Ok by (by apply compar_pivot).
      assert ((compar x pv <? 0) = true) as -> by (by apply Z.ltb_lt).
      rewrite s64_small by lia.
      replace (Z.of_nat i + 1) with (Z.of_nat (S i)) by lia. exact Hrun.
  - exists i, x. split; [lia|]. split; [done|]. split; [done|]. split; [intros; lia|].
    simpl scan_up. erewrite bind_Ok by (by apply compar_pivot).
    assert ((compar x pv <? 0) = false) as -> by (by apply Z.ltb_ge). done.
Qed.

Lemma scan_down_spec es :
  uniform 8 es -> Z.of_nat (length es) * 8 < 2 ^ 63 ->
  forall fuel (j kd : nat) e,
  (kd <= j < length es)%nat -> es !! kd = Some e -> compar e pv <= 0 ->
  (j - kd < fuel)%nat ->
  exists (j' : nat) e',
    (kd <= j' <= j)%nat /\ es !! j' = Some e' /\ compar e' pv <= 0 /\
    (forall (k : nat) x, (j' < k <= j)%nat -> es !! k = Some x -> 0 < compar x pv) /\
    scan_down compar fuel (eptr 8 Base 0) 8 (Z.of_nat j) (cm (AState es ts key pv))
    = Ok (Z.of_nat j', cm (AState es ts key pv)).
Proof.
  intros Hu Hb. induction fuel as [|fuel IH]; intros j kd e Hkj Hkd He Hf; [lia|].
  destruct (lookup_lt_is_Some_2 es j ltac:(lia)) as [x Hx].
  destruct (Z_lt_le_dec 0 (compar x pv)) as [Hgt|Hle].
  - assert (j <> kd) as Hne by (intros ->; simplify_eq; lia).
    destruct (IH (j - 1)%nat kd e) as (j' & e' & Hj' & He' & Hc' & Hall & Hrun);
      [lia|done|done|lia|].
    exists j', e'. split; [lia|]. split; [done|]. split; [done|]. split.
    + intros k y Hk Hy. destruct (decide (k = j)) as [->|Hkj'].
      * by simplify_eq.
      * apply (Hall k); [lia|done].
    + simpl scan_down. erewrite bind_Ok by (by apply compar_pivot).
      assert ((0 <? compar x pv) = true) as -> by (by apply Z.ltb_lt).
      rewrite s64_small by lia.
      replace (Z.of_nat j - 1) with (Z.of_nat (j - 1)) by lia. exact Hrun.
  - exists j, x. split; [lia|]. split; [done|]. split; [done|]. split; [intros; lia|].
    simpl scan_down. erewrite bind_Ok by (by apply compar_pivot).
    assert ((0 <? compar x pv) = false) as -> by (by apply Z.ltb_ge). done.
Qed.

Lemma partition_loop_S fuel base size i j :
  partition_loop compar (S fuel) base size i j
  = if i <=? j then
      i <- scan_up compar (S fuel) base size i ;;
      j <- scan_down compar (S fuel) base size j ;;
      if i <=? j then
        (if i <? j then swap (base +> u64 i *! size) (base +> u64 j *! size) size
         else ret tt) ;;;
        partition_loop compar fuel base size (s64 (i + 1)) (s64 (j - 1))
      else ret (i, j)
    else ret (i, j).
Proof. done. Qed.

Lemma partition_loop_spec (left right : nat) :
  forall fuel es (i j : Z) (ku kd : nat),
  uniform 8 es -> Z.of_nat (length es) * 8 < 2 ^ 63 -> (right < length es)%nat ->
  Z.of_nat left <= i <= Z.of_nat right + 1 ->
  Z.of_nat left - 1 <= j <= Z.of_nat right ->
  all_in (fun x => compar x pv <= 0) es (Z.of_nat left) i ->
  all_in (fun x => 0 <= compar x pv) es (j + 1) (Z.of_nat right + 1) ->
  (i <= j -> i <= Z.of_nat ku <= j + 1 /\ (ku <= right)%nat /\
             exists e, es !! ku = Some e /\ 0 <= compar e pv) ->
  (i <= j -> i - 1 <= Z.of_nat kd <= j /\ (left <= kd)%nat /\
             exists e, es !! kd = Some e /\ compar e pv <= 0) ->
  1 <= Z.of_nat fuel -> j - i + 2 <= Z.of_nat fuel ->
  exists es' (i' j' : Z),
    partition_loop compar fuel (eptr 8 Base 0) 8 i j (cm (AState es ts key pv))
    = Ok ((i', j'), cm (AState es' ts key pv)) /\
    es' ≡ₚ es /\ uniform 8 es' /\
    (forall k : nat, (k < left \/ right < k)%nat -> es' !! k = es !! k) /\
    j' < i' /\ i <= i' <= Z.of_nat right + 1 /\ Z.of_nat left - 1 <= j' <= j /\
    all_in (fun x => compar x pv <= 0) es' (Z.of_nat left) i' /\
    all_in (fun x => 0 <= compar x pv) es' (j' + 1) (Z.of_nat right + 1) /\
    (i <= j -> (ku <= kd)%nat -> i < i' /\ j' < j).
Proof.
  induction fuel as [|fuel IH];
    intros es i j ku kd Hu Hb Hr Hi Hj Hle Hge Hku Hkd Hf1 Hf2; [lia|].
  rewrite partition_loop_S.
  destruct (i <=? j) eqn:Hij.
  2: { apply Z.leb_gt in Hij. exists es, i, j.
       split; [done|]. split; [done|]. split; [done|]. split; [done|].
       split; [lia|]. split; [lia|]. split; [lia|]. split; [done|]. split; [done|]. lia. }
  apply Z.leb_le in Hij.
  destruct (Hku Hij) as (Hku1 & Hku2 & eu & Heu & Hcu).
  destruct (Hkd Hij) as (Hkd1 & Hkd2 & ed & Hed & Hcd).
  destruct (scan_up_spec es Hu Hb (S fuel) (Z.to_nat i) ku eu)
    as (i1 & e1 & Hi1 & He1 & Hc1 & Hall1 & Hrun1); [lia|done|done|lia|].
  destruct (scan_down_spec es Hu Hb (S fuel) (Z.to_nat j) kd ed)
    as (j1 & e2 & Hj1 & He2 & Hc2 & Hall2 & Hrun2); [lia|done|done|lia|].
  rewrite Z2Nat.id in Hrun1, Hrun2 by lia.
  erewrite bind_Ok by exact Hrun1. erewrite bind_Ok by exact Hrun2.
  destruct (Z.of_nat i1 <=? Z.of_nat j1) eqn:Hij1.
  2: { apply Z.leb_gt in Hij1. exists es, (Z.of_nat i1), (Z.of_nat j1).
       split; [done|]. split; [done|]. split; [done|]. split; [done|].
       split; [lia|]. split; [lia|]. split; [lia|]. split; [|split].
       - intros k x Hk Hx. destruct (Z_lt_le_dec (Z.of_nat k) i).
         + apply (Hle k); [lia|done].
         + assert (compar x pv < 0); [|lia]. apply (Hall1 k); [lia|done].
       - intros k x Hk Hx. destruct (Z_lt_le_dec j (Z.of_nat k)).
         + apply (Hge k); [lia|done].
         + assert (0 < compar x pv); [|lia]. apply (Hall2 k); [lia|done].
       - lia. }
  apply Z.leb_le in Hij1.
  set (es1 := <[j1:=e1]> (<[i1:=e2]> es)).
  assert (es1 ≡ₚ es) as Hperm by (by apply Permutation_insert_swap).
  assert (uniform 8 es1) as Hu1 by (unfold uniform; by rewrite Hperm).
  assert (length es1 = length es) as Hl1 by (unfold es1; by rewrite !length_insert).
  assert ((if Z.of_nat i1 <? Z.of_nat j1
           then swap (eptr 8 Base 0 +> u64 (Z.of_nat i1) *! 8)
                  (eptr 8 Base 0 +> u64 (Z.of_nat j1) *! 8) 8
           else ret tt) (cm (AState es ts key pv))
          = Ok (tt, cm (AState es1 ts key pv))) as Hswap.
  { destruct (Z.of_nat i1 <? Z.of_nat j1) eqn:Hlt.
    - to_eptr i1. to_eptr j1. by apply swap_elem8.
    - apply Z.ltb_ge in Hlt. assert (i1 = j1) as -> by lia.
      unfold ret, es1. simplify_eq.
      by rewrite list_insert_insert_eq, list_insert_id. }
  erewrite bind_Ok by exact Hswap.
  rewrite !s64_small by lia.
  assert (forall k : nat, k <> i1 -> k <> j1 -> es1 !! k = es !! k) as Hother.
  { intros k ??. unfold es1. by rewrite !list_lookup_insert_ne. }
  assert (es1 !! j1 = Some e1) as Hej1.
  { unfold es1. apply list_lookup_insert_eq. rewrite length_insert. lia. }
  assert (es1 !! i1 = Some e2) as Hei1.
  { unfold es1. destruct (decide (i1 = j1)) as [->|Hne].
    - simplify_eq. apply list_lookup_insert_eq. rewrite length_insert. lia.
    - rewrite list_lookup_insert_ne by done. apply list_lookup_insert_eq. lia. }
  destruct (IH es1 (Z.of_nat i1 + 1) (Z.of_nat j1 - 1) j1 i1)
    as (es' & i' & j' & Hrun & Hperm' & Hu' & Hout & Hji & Hi' & Hj' & Hle' & Hge' & _);
    [done|lia|lia|lia|lia| | | | |lia|lia|].
  - intros k x Hk Hx. destruct (decide (k = i1)) as [->|Hki].
    + by simplify_eq.
    + rewrite Hother in Hx by lia.
      destruct (Z_lt_le_dec (Z.of_nat k) i).
      * apply (Hle k); [lia|done].
      * assert (compar x pv < 0); [|lia]. apply (Hall1 k); [lia|done].
  - intros k x Hk Hx. destruct (decide (k = j1)) as [->|Hkj].
    + by simplify_eq.
    + rewrite Hother in Hx by lia.
      destruct (Z_lt_le_dec j (Z.of_nat k)).
      * apply (Hge k); [lia|done].
      * assert (0 < compar x pv); [|lia]. apply (Hall2 k); [lia|done].
  - intros ?. split; [lia|]. split; [lia|]. eauto.
  - intros ?. split; [lia|]. split; [lia|]. eauto.
  - exists es', i', j'. split; [done|]. split; [by rewrite Hperm'|]. split; [done|].
    split.
    { intros k Hk. rewrite Hout by done. apply Hother; lia. }
    split; [done|]. split; [lia|]. split; [lia|]. split; [done|]. split; [done|]. lia.
Qed.

Lemma permuted_within_refl left right es : permuted_within left right es es.
Proof. by split. Qed.

Lemma permuted_within_trans left right es1 es2 es3 :
  permuted_within left right es1 es2 -> permuted_within left right es2 es3 ->
  permuted_within left right es1 es3.
Proof.
  intros [H1 H1'] [H2 H2']. split; [by rewrite H2|].
  intros k Hk. by rewrite H2', H1'.
Qed.

Lemma permuted_within_uniform left right es es' :
  permuted_within left right es es' -> uniform 8 es -> uniform 8 es'.
Proof. intros [H _] Hu. unfold uniform. by rewrite H. Qed.

Lemma permuted_within_length left right es es' :
  permuted_within left right es es' -> length es' = length es.
Proof. intros [H _]. by apply Permutation_length. Qed.

(** A guarded exchange of two records of the range. *)
Lemma cond_swap_spec (b : bool) (left right i j : nat) es :
  uniform 8 es -> Z.of_nat (length es) * 8 < 2 ^ 63 ->
  (left <= i <= right)%nat -> (left <= j <= right)%nat -> (right < length es)%nat ->
  exists es', permuted_within left right es es' /\
    (if b then swap (eptr 8 Base i) (eptr 8 Base j) 8 else ret tt)
      (cm (AState es ts key pv))
    = Ok (tt, cm (AState es' ts key pv)).
Proof.
  intros Hu Hb Hi Hj Hr. destruct b.
  - destruct (lookup_lt_is_Some_2 es i ltac:(lia)) as [x Hx].
    destruct (lookup_lt_is_Some_2 es j ltac:(lia)) as [y Hy].
    exists (<[j:=x]> (<[i:=y]> es)). split.
    + split; [by apply Permutation_insert_swap|].
      intros k Hk. by rewrite !list_lookup_insert_ne by lia.
    + by apply swap_elem8.
  - exists es. split; [apply permuted_within_refl|done].
Qed.

End Partition.

Lemma alloca_pivot_cm size es ts key pv :
  alloca_pivot size (cm (AState es ts key pv))
  = Ok (tt, cm (AState es ts key (replicate (Z.to_nat size) 0))).
Proof. done. Qed.

Lemma compar_base es ts key pv (i j : nat) x y :
  uniform 8 es -> es !! i = Some x -> es !! j = Some y ->
  call_compar compar (eptr 8 Base i) (eptr 8 Base j) 8 (cm (AState es ts key pv))
  = Ok (compar x y, cm (AState es ts key pv)).
Proof. intros Hu Hx Hy. eapply compar_elem; [blk|exact Hu|exact Hx|blk|exact Hu|exact Hy]. Qed.

Lemma select_pivot_spec (left right : nat) es ts key pv0 :
  uniform 8 es -> Z.of_nat (length es) * 8 < 2 ^ 63 ->
  (left <= right < length es)%nat ->
  exists es' pv' (md : nat),
    (left <= md <= right)%nat /\ es' !! md = Some pv' /\
    permuted_within left right es es' /\
    select_pivot compar (eptr 8 Base 0) 8 (Z.of_nat left) (Z.of_nat right)
      (cm (AState es ts key pv0))
    = Ok (tt, cm (AState es' ts key pv')).
Proof.
  intros Hu Hb Hlr.
  set (md := Z.to_nat (Z.of_nat left + (Z.of_nat right - Z.of_nat left) / 2)).
  pose proof (Z.div_mod (Z.of_nat right - Z.of_nat left) 2 ltac:(lia)) as Hdm.
  pose proof (Z.mod_pos_bound (Z.of_nat right - Z.of_nat left) 2 ltac:(lia)) as Hmb.
  assert (left <= md <= right)%nat as Hmd by (unfold md; lia).
  set (pvz := replicate (Z.to_nat 8) 0).
  assert (forall s, select_pivot compar (eptr 8 Base 0) 8 (Z.of_nat left) (Z.of_nat right) s
    = (alloca_pivot 8 ;;;
       c <- call_compar compar (eptr 8 Base md) (eptr 8 Base left) 8 ;;
       (if c <? 0 then swap (eptr 8 Base left) (eptr 8 Base md) 8 else ret tt) ;;;
       c <- call_compar compar (eptr 8 Base right) (eptr 8 Base md) 8 ;;
       (if c <? 0 then
          swap (eptr 8 Base md) (eptr 8 Base right) 8 ;;;
          c <- call_compar compar (eptr 8 Base md) (eptr 8 Base left) 8 ;;
          if c <? 0 then swap (eptr 8 Base md) (eptr 8 Base left) 8 else ret tt
        else ret tt) ;;;
       my_memcpy (Ptr Pivot 0) (eptr 8 Base md) 8) s) as Hsel.
  { intros s. unfold select_pivot. cbv zeta.
    rewrite (eptr_add 8 Base 0 _ left) by (try done; unfold mul64; repeat unwrap_step; lia).
    rewrite (eptr_add 8 Base 0 _ right) by (try done; unfold mul64; repeat unwrap_step; lia).
    assert (eptr 8 Base left
            +> 8 *! Z.shiftr (u64 (p_off (eptr 8 Base right) - p_off (eptr 8 Base left)) / 8) 1
            = eptr 8 Base md) as ->; [|done].
    apply eptr_add; [lia| | |lia].
    - unfold mul64, u64. apply Z.mod_pos_bound. lia.
    - simpl p_off.
      replace (Z.of_nat right * 8 - Z.of_nat left * 8)
        with ((Z.of_nat right - Z.of_nat left) * 8) by lia.
      rewrite u64_small by lia. rewrite Z.div_mul by lia.
      rewrite Z.shiftr_div_pow2 by lia. change (2 ^ 1) with 2.
      unfold mul64. rewrite u64_small by lia. unfold md. lia. }
  destruct (lookup_lt_is_Some_2 es md ltac:(lia)) as [xm Hxm].
  destruct (lookup_lt_is_Some_2 es left ltac:(lia)) as [xl Hxl].
  (* first exchange *)
  destruct (cond_swap_spec ts key pvz (compar xm xl <? 0) left right left md es)
    as (es1 & Hw1 & Hrun1); [done|done|lia|lia|lia|].
  pose proof (permuted_within_uniform _ _ _ _ Hw1 Hu) as Hu1.
  pose proof (permuted_within_length _ _ _ _ Hw1) as Hl1.
  destruct (lookup_lt_is_Some_2 es1 right ltac:(lia)) as [yr Hyr].
  destruct (lookup_lt_is_Some_2 es1 md ltac:(lia)) as [ym Hym].
  (* second and third exchange *)
  assert (exists es3, permuted_within left right es1 es3 /\
    (if compar yr ym <? 0 then
       swap (eptr 8 Base md) (eptr 8 Base right) 8 ;;;
       c <- call_compar compar (eptr 8 Base md) (eptr 8 Base left) 8 ;;
       if c <? 0 then swap (eptr 8 Base md) (eptr 8 Base left) 8 else ret tt
     else ret tt) (cm (AState es1 ts key pvz))
    = Ok (tt, cm (AState es3 ts key pvz))) as (es3 & Hw3 & Hrun3).
  { destruct (compar yr ym <? 0).
    - destruct (cond_swap_spec ts key pvz true left right md right es1)
        as (es2 & Hw2 & Hrun2); [done|lia|lia|lia|lia|].
      pose proof (permuted_within_uniform _ _ _ _ Hw2 Hu1) as Hu2.
      pose proof (permuted_within_length _ _ _ _ Hw2) as Hl2.
      destruct (lookup_lt_is_Some_2 es2 md ltac:(lia)) as [zm Hzm].
      destruct (lookup_lt_is_Some_2 es2 left ltac:(lia)) as [zl Hzl].
      destruct (cond_swap_spec ts key pvz (compar zm zl <? 0) left right md left es2)
        as (es3 & Hw3 & Hrun3); [done|lia|lia|lia|lia|].
      exists es3. split; [by eapply permuted_within_trans|].
      erewrite bind_Ok by exact Hrun2.
      erewrite bind_Ok by (by apply compar_base).
      exact Hrun3.
    - exists es1. split; [apply permuted_within_refl|done]. }
  pose proof (permuted_within_uniform _ _ _ _ Hw3 Hu1) as Hu3.
  pose proof (permuted_within_length _ _ _ _ Hw3) as Hl3.
  destruct (lookup_lt_is_Some_2 es3 md ltac:(lia)) as [pv' Hpv'].
  exists es3, pv', md. split; [done|]. split; [done|].
  split; [by eapply permuted_within_trans|].
  rewrite Hsel.
  erewrite bind_Ok by apply alloca_pivot_cm. fold pvz.
  erewrite bind_Ok by (by apply compar_base).
  erewrite bind_Ok by exact Hrun1.
  erewrite bind_Ok by (by apply compar_base).
  erewrite bind_Ok by exact Hrun3.
  change (Ptr Pivot 0) with (eptr 8 Pivot 0).
  erewrite memcpy_elem; [|done|done|blk| |simpl; lia|blk|exact Hu3|exact Hpv'| | |].
  - simpl set_elems. by rewrite app_nil_r.
  - by repeat constructor.
  - by left.
  - simpl. lia.
  - lia.
Qed.

Lemma frame_split pre X post es2 :
  (1 <= length X)%nat ->
  permuted_within (length pre) (length pre + length X - 1) (pre ++ X ++ post) es2 ->
  exists X2, es2 = pre ++ X2 ++ post /\ X2 ≡ₚ X.
Proof.
  intros HX [Hperm Hout].
  pose proof (Permutation_length Hperm) as Hlen. rewrite !length_app in Hlen.
  assert (es2 = pre ++ take (length X) (drop (length pre) es2) ++ post) as Heq.
  { apply list_eq. intros k.
    destruct (decide (k < length pre)%nat) as [Hk|Hk].
    - rewrite Hout by lia. by rewrite !lookup_app_l by lia.
    - rewrite (lookup_app_r pre) by lia.
      destruct (decide (k < length pre + length X)%nat) as [Hk2|Hk2].
      + rewrite lookup_app_l by (rewrite length_take, length_drop; lia).
        rewrite lookup_take_lt by lia. rewrite lookup_drop. f_equal. lia.
      + rewrite lookup_app_r by (rewrite length_take, length_drop; lia).
        rewrite length_take, length_drop.
        rewrite Hout by lia.
        rewrite lookup_app_r by lia. rewrite lookup_app_r by lia.
        f_equal. lia. }
  eexists. split; [exact Heq|].
  rewrite Heq in Hperm.
  apply Permutation_app_inv_l in Hperm. by apply Permutation_app_inv_r in Hperm.
Qed.

Lemma all_in_Forall P pre X post (a b : nat) :
  all_in P (pre ++ X ++ post) (Z.of_nat (length pre + a)) (Z.of_nat (length pre + b)) ->
  Forall P (take (b - a) (drop a X)).
Proof.
  intros Hall. apply Forall_lookup. intros k x Hk.
  apply lookup_take_Some in Hk as [Hk Hkb]. rewrite lookup_drop in Hk.
  apply (Hall (length pre + (a + k))%nat); [lia|].
  rewrite lookup_app_r by lia. rewrite lookup_app_l by (apply lookup_lt_Some in Hk; lia).
  rewrite <- Hk. f_equal. lia.
Qed.

Section QuickSortOrder.

Hypothesis Hto : total_order compar.

Lemma equal_to_pivot_sorted pv l :
  Forall (fun x => compar x pv <= 0) l -> Forall (fun x => 0 <= compar x pv) l ->
  StronglySorted (cle compar) l.
Proof.
  induction l as [|x l IH]; intros Hle Hge; [constructor|].
  apply Forall_cons in Hle as [Hx1 Hle]. apply Forall_cons in Hge as [Hx2 Hge].
  constructor; [by apply IH|].
  apply Forall_forall. intros y Hy.
  rewrite Forall_forall in Hge. specialize (Hge y Hy). simpl in Hge.
  apply (cle_trans Hto x pv y); [done|].
  unfold cle. pose proof (compar_antisym _ Hto y pv). lia.
Qed.

Lemma three_way_sorted pv A M B :
  Forall (fun x => compar x pv <= 0) (A ++ M) ->
  Forall (fun x => 0 <= compar x pv) (M ++ B) ->
  StronglySorted (cle compar) A -> StronglySorted (cle compar) B ->
  StronglySorted (cle compar) (A ++ M ++ B).
Proof.
  intros Hle Hge HA HB.
  apply Forall_app in Hle as [HleA HleM]. apply Forall_app in Hge as [HgeM HgeB].
  assert (forall x y, compar x pv <= 0 -> 0 <= compar y pv -> cle compar x y) as Hxy.
  { intros x y Hx Hy. apply (cle_trans Hto x pv y); [done|].
    unfold cle. pose proof (compar_antisym _ Hto y pv). lia. }
  rewrite Forall_forall in HleA, HleM, HgeM, HgeB.
  apply StronglySorted_app. split; [|split; [done|]].
  - intros x y Hx Hy. apply Hxy; [by apply HleA|].
    apply elem_of_app in Hy as [Hy|Hy]; [by apply HgeM|by apply HgeB].
  - apply StronglySorted_app. split; [|split; [|done]].
    + intros x y Hx Hy. apply Hxy; [by apply HleM|by apply HgeB].
    + by apply (equal_to_pivot_sorted pv); apply Forall_forall.
Qed.

Lemma short_sorted (l : list (list Z)) :
  (length l <= 1)%nat -> StronglySorted (cle compar) l.
Proof.
  destruct l as [|x [|??]]; simpl; intros; try lia; by repeat constructor.
Qed.

End QuickSortOrder.

(** *** Record sizes that fail the assertion of [my_memcpy] *)

Lemma my_memcpy_assert to from n m :
  0 <= n -> n mod 8 <> 0 -> my_memcpy to from n m = Err AssertFail.
Proof.
  intros Hn Hmod. unfold my_memcpy. rewrite land7 by done.
  destruct (n mod 8 =? 0) eqn:H; [apply Z.eqb_eq in H; lia|done].
Qed.

Lemma insertion_sort_assert base nelem size m :
  0 <= size -> size mod 8 <> 0 -> 2 <= nelem ->
  insertion_sort compar base nelem size m = Err AssertFail.
Proof.
  intros Hs Hmod Hn. unfold insertion_sort.
  rewrite trips_unit. destruct (Z.to_nat (nelem - 1)) as [|cnt] eqn:Hc; [lia|].
  rewrite for_loop_S. unfold insertion_body.
  unfold bind at 1. unfold malloc_key.
  unfold bind at 1. unfold bind at 1. unfold bind at 1.
  by rewrite my_memcpy_assert.
Qed.

Lemma p_merge_assert base temp size l r md m :
  0 <= size -> size mod 8 <> 0 ->
  0 <= l -> l <= md -> md < 2 ^ 63 ->
  p_merge compar base temp size l r md m = Err AssertFail.
Proof.
  intros Hs Hmod Hl Hmd Hb. unfold p_merge. cbv zeta.
  rewrite trips_unit.
  replace (md -! l +! 1 - 0) with (md - l + 1) by (unwrap; lia).
  destruct (Z.to_nat (md - l + 1)) as [|cnt] eqn:Hc; [lia|].
  rewrite for_loop_S. unfold copy_body.
  unfold bind at 1. unfold bind at 1.
  by rewrite my_memcpy_assert.
Qed.

Lemma p_merge_sort_assert base temp size grain :
  0 <= size -> size mod 8 <> 0 ->
  forall fuel n l r m,
  0 <= l -> 1 <= n -> r = l + n - 1 -> r < 2 ^ 63 -> (Z.to_nat n <= fuel)%nat ->
  p_merge_sort compar fuel base temp n size l r grain m
  = if n =? 1 then Ok (tt, m) else Err AssertFail.
Proof.
  intros Hs Hmod. induction fuel as [|fuel IH]; intros n l r m Hl Hn Hr Hb Hf; [lia|].
  rewrite p_merge_sort_S.
  destruct (n =? 1) eqn:Hn1.
  { apply Z.eqb_eq in Hn1. destruct (l <? r) eqn:Hlr; [lia|done]. }
  apply Z.eqb_neq in Hn1.
  destruct (l <? r) eqn:Hlr; [|lia].
  assert (forall m0,
    (let md := (l +! r) / 2 in
     p_merge_sort compar fuel base temp (md -! l +! 1) size l md grain ;;;
     p_merge_sort compar fuel base temp (r -! md) size (md +! 1) r grain ;;;
     p_merge compar base temp size l r md) m0 = Err AssertFail) as Hrec.
  { intros m0. cbv zeta.
    assert (l +! r = l + r) as -> by (unwrap; lia).
    pose proof (Z.div_mod (l + r) 2 ltac:(lia)) as Hdm.
    pose proof (Z.mod_pos_bound (l + r) 2 ltac:(lia)) as Hmb.
    set (md := (l + r) / 2) in *.
    assert (md -! l +! 1 = md - l + 1) as -> by (unwrap; lia).
    assert (r -! md = r - md) as -> by (unwrap; lia).
    assert (md +! 1 = md + 1) as -> by (unwrap; lia).
    unfold bind at 1. rewrite (IH (md - l + 1) l md m0) by lia.
    destruct (md - l + 1 =? 1); [|done].
    unfold bind at 1. rewrite (IH (r - md) (md + 1) r m0) by lia.
    destruct (r - md =? 1); [|done].
    apply p_merge_assert; lia. }
  destruct (grain <? n); [apply Hrec|].
  destruct (1 <? n) eqn:H1n; [|lia].
  destruct (n <=? P_MERGE_INSERTION_COND); [|apply Hrec].
  apply insertion_sort_assert; lia.
Qed.

Lemma emu_sort_local_merge_assert malloc_ok size n buf :
  0 < size -> size mod 8 <> 0 -> 2 <= n < 2 ^ 63 ->
  run (fun base => emu_sort_local_merge compar malloc_ok base n size) buf
  = Err AssertFail.
Proof.
  intros Hs Hmod Hn. unfold run, emu_sort_local_merge.
  destruct (1 <? n) eqn:H1; [|lia].
  unfold bind at 1. unfold malloc_temp at 1.
  unfold bind at 1.
  replace (n -! 1) with (n - 1) by (unwrap; lia).
  rewrite p_merge_sort_assert by (done || lia).
  destruct (n =? 1) eqn:Hn1; [lia|done].
Qed.

Section QuickSort.

Hypothesis Hto : total_order compar.

(** Both arms of the grain test of [p_quick_sort] make the same two
    calls, so the grain does not matter for the result. *)
Lemma p_quick_sort_S fuel base nelem size left right grain m :
  p_quick_sort compar (S fuel) base nelem size left right grain m =
  (select_pivot compar base size left right ;;;
   ij <- partition_loop compar (S fuel) base size left right ;;
   (if left <? ij.2
    then p_quick_sort compar fuel base (u64 (s64 (s64 (ij.2 - left) + 1))) size
           left ij.2 grain
    else ret tt) ;;;
   (if ij.1 <? right
    then p_quick_sort compar fuel base (u64 (s64 (s64 (right - ij.1) + 1))) size
           ij.1 right grain
    else ret tt)) m.
Proof.
  cbn [p_quick_sort]. unfold bind.
  destruct (select_pivot compar base size left right m) as [[[] m1]| |]; try done.
  destruct (partition_loop compar (S fuel) base size left right m1)
    as [[[i j] m2]| |]; try done.
  by destruct (grain <? _).
Qed.

Lemma p_quick_sort_spec grain :
  forall fuel pre X post ts key pv nelem (left right : Z),
  uniform 8 (pre ++ X ++ post) ->
  Z.of_nat (length (pre ++ X ++ post)) * 8 < 2 ^ 63 ->
  (1 <= length X)%nat -> (length X + 1 <= fuel)%nat ->
  left = Z.of_nat (length pre) ->
  right = Z.of_nat (length pre + length X) - 1 ->
  exists X' pv',
    X' ≡ₚ X /\ StronglySorted (cle compar) X' /\
    p_quick_sort compar fuel (eptr 8 Base 0) nelem 8 left right grain
      (cm (AState (pre ++ X ++ post) ts key pv))
    = Ok (tt, cm (AState (pre ++ X' ++ post) ts key pv')).
Proof.
  induction fuel as [|fuel IH];
    intros pre X post ts key pv nelem left right Hu Hb HX Hf -> ->; [lia|].
  replace (Z.of_nat (length pre + length X) - 1)
    with (Z.of_nat (length pre + length X - 1)) by lia.
  remember (length pre) as l eqn:Hl.
  remember (l + length X - 1)%nat as r eqn:Hr.
  assert (length (pre ++ X ++ post) = (l + length X + length post)%nat) as Hlen
    by (rewrite !length_app; lia).
  destruct (select_pivot_spec l r (pre ++ X ++ post) ts key pv)
    as (es1 & pv1 & md & Hmd & Hpv1 & Hw1 & Hsel); [done|done|lia|].
  pose proof (permuted_within_uniform _ _ _ _ Hw1 Hu) as Hu1.
  pose proof (permuted_within_length _ _ _ _ Hw1) as Hlen1.
  assert (Z.of_nat (length pv1) = 8) as Hpvl
    by (eapply uniform_lookup; [exact Hu1|exact Hpv1]).
  assert (compar pv1 pv1 = 0) as Hpp.
  { pose proof (compar_antisym _ Hto pv1 pv1). lia. }
  destruct (partition_loop_spec ts key pv1 Hpvl l r (S fuel) es1
              (Z.of_nat l) (Z.of_nat r) md md)
    as (es2 & i' & j' & Hpart & Hperm2 & Hu2 & Hout2 & Hji & Hi' & Hj' & Hle & Hge & Hprog).
  { done. } { lia. } { lia. } { lia. } { lia. }
  { intros k x Hk. lia. }
  { intros k x Hk. lia. }
  { intros _. split; [lia|]. split; [lia|]. exists pv1. split; [done|lia]. }
  { intros _. split; [lia|]. split; [lia|]. exists pv1. split; [done|lia]. }
  { lia. } { lia. }
  destruct Hprog as [Hpi Hpj]; [lia|lia|].
  assert (permuted_within l r (pre ++ X ++ post) es2) as Hw2.
  { eapply permuted_within_trans; [exact Hw1|]. by split. }
  destruct (frame_split pre X post es2 HX) as (X2 & -> & HX2).
  { by rewrite <- Hl, <- Hr. }
  pose proof (Permutation_length HX2) as HlX2.
  set (a := Z.to_nat (j' - Z.of_nat l + 1)).
  set (b := Z.to_nat (i' - Z.of_nat l)).
  assert (X2 = take a X2 ++ take (b - a) (drop a X2) ++ drop b X2) as HX2split.
  { rewrite <- (take_drop a X2) at 1. f_equal.
    rewrite <- (take_drop (b - a) (drop a X2)) at 1. f_equal.
    rewrite drop_drop. f_equal. lia. }
  assert (Forall (fun x => compar x pv1 <= 0) (take b X2)) as HleF.
  { replace (take b X2) with (take (b - 0) (drop 0 X2))
      by (rewrite drop_0; f_equal; lia).
    apply (all_in_Forall _ pre X2 post 0 b).
    replace (Z.of_nat (length pre + 0)) with (Z.of_nat l) by lia.
    replace (Z.of_nat (length pre + b)) with i' by lia. exact Hle. }
  assert (Forall (fun x => 0 <= compar x pv1) (drop a X2)) as HgeF.
  { replace (drop a X2) with (take (length X2 - a) (drop a X2))
      by (apply take_ge; rewrite length_drop; lia).
    apply (all_in_Forall _ pre X2 post a (length X2)).
    replace (Z.of_nat (length pre + a)) with (j' + 1) by lia.
    replace (Z.of_nat (length pre + length X2)) with (Z.of_nat r + 1) by lia.
    exact Hge. }
  replace (take b X2) with (take a X2 ++ take (b - a) (drop a X2)) in HleF
    by (rewrite take_take_drop; f_equal; lia).
  rewrite <- (take_drop (b - a) (drop a X2)) in HgeF.
  rewrite drop_drop in HgeF. replace (a + (b - a))%nat with b in HgeF by lia.
  assert (length (take a X2) = a) as HlA by (rewrite length_take; lia).
  assert (length (take (b - a) (drop a X2)) = (b - a)%nat) as HlM
    by (rewrite length_take, length_drop; lia).
  assert (length (drop b X2) = (length X - b)%nat) as HlB
    by (rewrite length_drop; lia).
  remember (take a X2) as A eqn:HA.
  remember (take (b - a) (drop a X2)) as Mid eqn:HM.
  remember (drop b X2) as B eqn:HB.
  assert (pre ++ X2 ++ post = pre ++ A ++ Mid ++ B ++ post) as Hshape.
  { transitivity (pre ++ (A ++ Mid ++ B) ++ post); [by rewrite <- HX2split|].
    by rewrite <- !app_assoc. }
  rewrite Hshape in Hpart, Hu2.
  assert (Z.of_nat (length (pre ++ A ++ Mid ++ B ++ post)) * 8 < 2 ^ 63) as Hb2.
  { rewrite <- Hshape. rewrite !length_app, HlX2. rewrite !length_app in Hb. lia. }
  assert (exists A1 pvA, A1 ≡ₚ A /\ StronglySorted (cle compar) A1 /\
            (if Z.of_nat l <? j'
             then p_quick_sort compar fuel (eptr 8 Base 0)
                    (u64 (s64 (s64 (j' - Z.of_nat l) + 1))) 8 (Z.of_nat l) j' grain
             else ret tt)
              (cm (AState (pre ++ A ++ Mid ++ B ++ post) ts key pv1))
            = Ok (tt, cm (AState (pre ++ A1 ++ Mid ++ B ++ post) ts key pvA)))
    as (A1 & pvA & HpA & HsA & HrunA).
  { destruct (Z.of_nat l <? j') eqn:Hlj.
    - apply Z.ltb_lt in Hlj.
      destruct (IH pre A (Mid ++ B ++ post) ts key pv1
                  (u64 (s64 (s64 (j' - Z.of_nat l) + 1))) (Z.of_nat l) j')
        as (A1 & pvA & HpA & HsA & HrunA); [done|done|lia|lia|lia|lia|].
      by exists A1, pvA.
    - apply Z.ltb_ge in Hlj. exists A, pv1.
      split; [done|]. split; [apply short_sorted; lia|done]. }
  pose proof (Permutation_length HpA) as HlA1.
  assert (uniform 8 (pre ++ A1 ++ Mid ++ B ++ post)) as Hu3.
  { unfold uniform in *. by rewrite HpA. }
  assert (exists B1 pvB, B1 ≡ₚ B /\ StronglySorted (cle compar) B1 /\
            (if i' <? Z.of_nat r
             then p_quick_sort compar fuel (eptr 8 Base 0)
                    (u64 (s64 (s64 (Z.of_nat r - i') + 1))) 8 i' (Z.of_nat r) grain
             else ret tt)
              (cm (AState (pre ++ A1 ++ Mid ++ B ++ post) ts key pvA))
            = Ok (tt, cm (AState (pre ++ A1 ++ Mid ++ B1 ++ post) ts key pvB)))
    as (B1 & pvB & HpB & HsB & HrunB).
  { replace (pre ++ A1 ++ Mid ++ B ++ post) with ((pre ++ A1 ++ Mid) ++ B ++ post)
      in * by (by rewrite <- !app_assoc).
    destruct (i' <? Z.of_nat r) eqn:Hir.
    - apply Z.ltb_lt in Hir.
      destruct (IH (pre ++ A1 ++ Mid) B post ts key pvA
                  (u64 (s64 (s64 (Z.of_nat r - i') + 1))) i' (Z.of_nat r))
        as (B1 & pvB & HpB & HsB & HrunB).
      + done.
      + rewrite !length_app in *. lia.
      + lia.
      + lia.
      + rewrite !length_app. lia.
      + rewrite !length_app. lia.
      + exists B1, pvB. split; [done|]. split; [done|].
        rewrite HrunB. by rewrite <- !app_assoc.
    - apply Z.ltb_ge in Hir. exists B, pvA.
      split; [done|]. split; [apply short_sorted; lia|].
      by rewrite <- !app_assoc. }
  exists (A1 ++ Mid ++ B1), pvB. split; [|split].
  - rewrite HpA, HpB, <- HX2split. exact HX2.
  - apply (three_way_sorted Hto pv1); [| |done|done].
    + apply Forall_app. apply Forall_app in HleF as [H1 H2].
      split; [by rewrite HpA|done].
    + apply Forall_app. apply Forall_app in HgeF as [H1 H2].
      split; [done|by rewrite HpB].
  - rewrite p_quick_sort_S. unfold bind at 1. rewrite Hsel.
    unfold bind at 1. rewrite Hpart. cbn [fst snd].
    unfold bind at 1. rewrite HrunA. rewrite HrunB.
    by rewrite <- !app_assoc.
Qed.


Lemma emu_sort_local_quick_run fuel es :
  uniform 8 es -> Z.of_nat (length es) * 8 < 2 ^ 63 ->
  (1 <= length es)%nat -> (length es + 1 <= fuel)%nat ->
  exists es',
    es' ≡ₚ es /\ StronglySorted (cle compar) es' /\
    run (fun base => emu_sort_local_quick compar fuel base (Z.of_nat (length es)) 8)
      (concat es)
    = Ok (concat es').
Proof.
  intros Hu Hb H1 Hf.
  destruct (p_quick_sort_spec (P_QUICK_SORT_GRAIN (Z.of_nat (length es)))
              fuel [] es [] None [] [] (Z.of_nat (length es)) 0
              (s64 (Z.of_nat (length es) -! 1)))
    as (es' & pv' & Hperm & Hsort & Hrun).
  - by rewrite app_nil_r.
  - simpl. rewrite app_nil_r. done.
  - done.
  - done.
  - done.
  - unfold sub64. rewrite u64_small, s64_small by lia. simpl. lia.
  - exists es'. split; [done|]. split; [done|].
    unfold run, emu_sort_local_quick.
    simpl in Hrun. rewrite app_nil_r in Hrun.
    change (Mem (concat es) None [] []) with (cm (AState es None [] [])).
    change (Ptr Base 0) with (eptr 8 Base 0).
    rewrite Hrun. simpl. by rewrite app_nil_r.
Qed.

(** The partition of [p_quick_sort] on records of 8 bytes: the cursors
    cross, the records up to [j] are not above the pivot, those from [i]
    on are not below it, the pivot is a record of the range, and the
    records of the range are rearranged among themselves. *)
Lemma quick_partition_spec (left right : nat) es ts key pv0 fuel :
  uniform 8 es -> Z.of_nat (length es) * 8 < 2 ^ 63 ->
  (left <= right < length es)%nat -> (right - left + 2 <= fuel)%nat ->
  exists es' pv' (i j : Z),
    quick_partition compar fuel (eptr 8 Base 0) 8 (Z.of_nat left) (Z.of_nat right)
      (cm (AState es ts key pv0))
    = Ok ((i, j), cm (AState es' ts key pv')) /\
    j < i /\ Z.of_nat left <= i /\ j <= Z.of_nat right /\
    permuted_within left right es es' /\
    pv' ∈ es /\
    all_in (fun x => compar x pv' <= 0) es' (Z.of_nat left) (j + 1) /\
    all_in (fun x => 0 <= compar x pv') es' i (Z.of_nat right + 1).
Proof.
  intros Hu Hb Hlr Hf.
  destruct (select_pivot_spec left right es ts key pv0 Hu Hb Hlr)
    as (es1 & pv1 & md & Hmd & Hpv1 & Hw1 & Hsel).
  pose proof (permuted_within_uniform _ _ _ _ Hw1 Hu) as Hu1.
  pose proof (permuted_within_length _ _ _ _ Hw1) as Hlen1.
  assert (Z.of_nat (length pv1) = 8) as Hpvl
    by (eapply uniform_lookup; [exact Hu1|exact Hpv1]).
  assert (compar pv1 pv1 = 0) as Hpp.
  { pose proof (compar_antisym _ Hto pv1 pv1). lia. }
  destruct (partition_loop_spec ts key pv1 Hpvl left right fuel es1
              (Z.of_nat left) (Z.of_nat right) md md)
    as (es2 & i' & j' & Hpart & Hperm2 & Hu2 & Hout2 & Hji & Hi' & Hj' & Hle & Hge & _).
  { done. } { lia. } { lia. } { lia. } { lia. }
  { intros k x Hk. lia. }
  { intros k x Hk. lia. }
  { intros _. split; [lia|]. split; [lia|]. exists pv1. split; [done|lia]. }
  { intros _. split; [lia|]. split; [lia|]. exists pv1. split; [done|lia]. }
  { lia. } { lia. }
  exists es2, pv1, i', j'. split.
  { unfold quick_partition. unfold bind. by rewrite Hsel, Hpart. }
  split; [done|]. split; [lia|]. split; [lia|]. split.
  { eapply permuted_within_trans; [exact Hw1|]. by split. }
  split.
  { destruct Hw1 as [Hp _]. rewrite <- Hp. by eapply list_elem_of_lookup_2. }
  split.
  - intros k x Hk. apply Hle. lia.
  - intros k x Hk. apply Hge. lia.
Qed.

End QuickSort.

End SortFacts.

(** * Properties of the sort routines *)

Lemma key_compar_total_order : total_order key_compar.
Proof.
  split; unfold key_compar.
  - intros x y. replace (hd 0 x - hd 0 y) with (- (hd 0 y - hd 0 x)) by lia.
    rewrite Z.sgn_opp. lia.
  - intros x y z. lia.
Qed.

Lemma uniform_rec8 (l : list (Z * Z)) : uniform 8 (map (fun kt => rec8 kt.1 kt.2) l).
Proof. induction l; constructor; done. Qed.

(** ** The merge step *)

(** C5: the merge step [p_merge] on two adjacent ranges [L] and [R], the
    first sorted, leaves in their place the list [merge compar L R]; when
    the record at the head of the left range and the one at the head of the
    right range compare equal the left one is written first, and so the
    records that compare equal to any [x] are those of [L], in their order,
    followed by those of [R]. *)
Theorem p_merge_left_first compar size pre L R post tpre tmid tpost key pv :
  total_order compar ->
  0 < size -> size mod 8 = 0 ->
  length tpre = length pre -> length tmid = (length L + length R)%nat ->
  (0 < length L)%nat ->
  uniform size (pre ++ L ++ R ++ post) ->
  Z.of_nat (length (pre ++ L ++ R ++ post)) * size < 2 ^ 63 ->
  uniform size (tpre ++ tmid ++ tpost) ->
  Z.of_nat (length (tpre ++ tmid ++ tpost)) * size < 2 ^ 63 ->
  StronglySorted (cle compar) L -> StronglySorted (cle compar) R ->
  p_merge compar (eptr size Base 0) (eptr size Temp 0) size
    (Z.of_nat (length pre))
    (Z.of_nat (length pre + length L + length R) - 1)
    (Z.of_nat (length pre + length L) - 1)
    (cm (AState (pre ++ L ++ R ++ post) (Some (tpre ++ tmid ++ tpost)) key pv))
  = Ok (tt, cm (AState (pre ++ merge compar L R ++ post)
                  (Some (tpre ++ L ++ R ++ tpost)) key pv)) /\
  (forall x L' y R', compar x y = 0 ->
     merge compar (x :: L') (y :: R') = x :: merge compar L' (y :: R')) /\
  StronglySorted (cle compar) (merge compar L R) /\
  (forall x, eq_class compar x (merge compar L R)
             = eq_class compar x L ++ eq_class compar x R).
Proof.
  intros Hto Hs Hmod Hpre Hmid HL Hu Hb Hut Hbt HsL HsR.
  split; [by apply p_merge_spec|].
  split; [|split].
  - intros x L' y R' Hxy. rewrite merge_cons_cons, Hxy. done.
  - by apply merge_sorted.
  - intros x. by apply merge_stable.
Qed.

(** The merge of [1,3,5] and [2,3,6]: the records carry the tag [0] in the
    left range and [1] in the right one. *)
Lemma p_merge_left_first_witness :
  p_merge key_compar (Ptr Base 0) (Ptr Temp 0) 8 0 5 2
    (Mem (concat [rec8 1 0; rec8 3 0; rec8 5 0; rec8 2 1; rec8 3 1; rec8 6 1])
         (Some (replicate 48 0)) [] [])
  = Ok (tt, Mem (concat [rec8 1 0; rec8 2 1; rec8 3 0; rec8 3 1; rec8 5 0; rec8 6 1])
                (Some (concat [rec8 1 0; rec8 3 0; rec8 5 0; rec8 2 1; rec8 3 1; rec8 6 1]))
                [] []).
Proof.
  pose proof (p_merge_left_first key_compar 8 []
                [rec8 1 0; rec8 3 0; rec8 5 0] [rec8 2 1; rec8 3 1; rec8 6 1] []
                [] (replicate 6 (replicate 8 0)) [] [] []
                key_compar_total_order) as H.
  destruct H as [H _].
  - lia.
  - reflexivity.
  - reflexivity.
  - reflexivity.
  - simpl; lia.
  - repeat constructor.
  - simpl; lia.
  - repeat constructor.
  - simpl; lia.
  - repeat (constructor; [|repeat constructor; unfold cle, key_compar; simpl; lia]).
    constructor.
  - repeat (constructor; [|repeat constructor; unfold cle, key_compar; simpl; lia]).
    constructor.
  - exact H.
Defined.

(** ** The merge-sort strategy *)

(** C6: [emu_sort_local_merge] is stable.  Whenever the record size passes
    the assertion of the record copy (a multiple of 8), or there is at most
    one record, the call returns with the records in non-decreasing order,
    and the records that compare equal to any given one come out in the
    order they had in the input; for the other record sizes the call stops
    at the assertion and there is no output. *)
Theorem emu_sort_local_merge_stable compar size es :
  total_order compar ->
  0 < size -> uniform size es -> Z.of_nat (length es) * size < 2 ^ 63 ->
  (size mod 8 = 0 \/ (length es <= 1)%nat ->
   exists out,
     run (fun base => emu_sort_local_merge compar true base (Z.of_nat (length es)) size)
       (concat es) = Ok (concat out) /\
     out ≡ₚ es /\ StronglySorted (cle compar) out /\ stable compar es out) /\
  (size mod 8 <> 0 -> (2 <= length es)%nat ->
   run (fun base => emu_sort_local_merge compar true base (Z.of_nat (length es)) size)
     (concat es) = Err AssertFail).
Proof.
  intros Hto Hs Hu Hb. split.
  - intros [Hmod|Hshort].
    + exists (msort compar (length es) (merge_grain (Z.of_nat (length es))) es).
      split; [by apply emu_sort_local_merge_run|].
      split; [apply msort_perm|].
      split; [by apply msort_sorted|by apply msort_stable].
    + exists es. split; [|split; [done|split; [by apply short_sorted|done]]].
      unfold run, emu_sort_local_merge.
      destruct (1 <? Z.of_nat (length es)) eqn:H1; [lia|done].
  - intros Hmod Hlen. apply emu_sort_local_merge_assert; [done|done|nia].
Qed.

Lemma emu_sort_local_merge_stable_witness :
  (8 mod 8 = 0 \/ (length six_records <= 1)%nat ->
   exists out,
     run (fun base => emu_sort_local_merge key_compar true base
                        (Z.of_nat (length six_records)) 8)
       (concat six_records) = Ok (concat out) /\
     out ≡ₚ six_records /\ StronglySorted (cle key_compar) out /\
     stable key_compar six_records out) /\
  (8 mod 8 <> 0 -> (2 <= length six_records)%nat ->
   run (fun base => emu_sort_local_merge key_compar true base
                      (Z.of_nat (length six_records)) 8)
     (concat six_records) = Err AssertFail).
Proof.
  apply (emu_sort_local_merge_stable key_compar 8 six_records).
  - exact key_compar_total_order.
  - lia.
  - repeat constructor.
  - simpl. lia.
Defined.

(** ** The exchange primitive *)

Lemma same_shape_refl m : same_shape m m.
Proof. by intros b. Qed.

Lemma same_shape_trans m1 m2 m3 :
  same_shape m1 m2 -> same_shape m2 m3 -> same_shape m1 m3.
Proof. intros H1 H2 b. by rewrite H2, H1. Qed.

Lemma readable_shape p n m m' : same_shape m m' -> readable p n m' = readable p n m.
Proof.
  intros H. unfold readable. specialize (H (p_blk p)).
  destruct (get_blk (p_blk p) m') as [buf'|], (get_blk (p_blk p) m) as [buf|];
    simpl in H; try done.
  unfold in_range. by injection H as ->.
Qed.

Lemma load_readable p n m bs m' :
  load p n m = Ok (bs, m') -> m' = m /\ readable p n m = true.
Proof.
  intros H. apply load_Ok in H as (-> & buf & Hb & Hr). split; [done|].
  unfold readable. rewrite Hb. unfold read_bytes in Hr.
  by destruct (in_range buf (p_off p) n).
Qed.

Lemma store_shape p bs m m' : store p bs m = Ok (tt, m') -> same_shape m m'.
Proof.
  intros H. apply store_Ok in H as (buf & buf' & Hb & Hw & ->). intros b.
  destruct (decide (p_blk p = b)) as [<-|Hne].
  - rewrite get_set_blk, Hb. simpl. f_equal. by eapply length_write_bytes.
  - by rewrite get_set_blk_ne.
Qed.

(** A loop whose body keeps the shape of the memory and needs [P i] of
    it: every turn of a run that ends well found [P] at its index. *)
Lemma for_loop_inv (P : Z -> mem -> Prop) step (body : Z -> M unit) :
  (forall i m1 m2, same_shape m1 m2 -> P i m2 -> P i m1) ->
  (forall i m1 m2, body i m1 = Ok (tt, m2) -> same_shape m1 m2 /\ P i m1) ->
  forall cnt i m m',
  for_loop cnt i step body m = Ok (tt, m') ->
  same_shape m m' /\ forall t, (t < cnt)%nat -> P (i + Z.of_nat t * step) m.
Proof.
  intros Hshape Hbody. induction cnt as [|cnt IH]; intros i m m' Hrun.
  - injection Hrun as <-. split; [apply same_shape_refl|lia].
  - rewrite for_loop_S in Hrun. unfold bind in Hrun.
    destruct (body i m) as [[[] m1]| |] eqn:Hb; try done.
    apply Hbody in Hb as [Hs1 HP]. apply IH in Hrun as [Hs2 Hall].
    split; [by eapply same_shape_trans|].
    intros [|t] Ht.
    + by replace (i + Z.of_nat 0 * step) with i by lia.
    + apply (Hshape _ m m1 Hs1).
      replace (i + Z.of_nat (S t) * step) with (i + step + Z.of_nat t * step) by lia.
      apply Hall. lia.
Qed.

Lemma swap_no_op a b size m : size mod 8 <> 0 -> swap a b size m = Ok (tt, m).
Proof.
  intros Hmod. unfold swap.
  destruct (size mod 8 =? 0) eqn:H; [apply Z.eqb_eq in H; lia|done].
Qed.

(** The turn [i] of the loop of [swap] reads the longs [p[i]] and [q[i]]. *)
Lemma swap_reads a b size m m' :
  size mod 8 = 0 -> swap a b size m = Ok (tt, m') ->
  same_shape m m' /\
  forall t, (t < trips 0 size 8)%nat ->
    readable (a +> 8 *! (Z.of_nat t * 8)) 8 m = true /\
    readable (b +> 8 *! (Z.of_nat t * 8)) 8 m = true.
Proof.
  intros Hmod. unfold swap. rewrite Hmod. simpl (0 =? 0).
  intros Hrun.
  apply (for_loop_inv (fun i m => readable (a +> 8 *! i) 8 m = true /\
                                  readable (b +> 8 *! i) 8 m = true)) in Hrun.
  - destruct Hrun as [Hs Hall]. split; [done|]. intros t Ht.
    specialize (Hall t Ht). by rewrite Z.add_0_l in Hall.
  - intros i m1 m2 Hs [H1 H2]. by rewrite <- !(readable_shape _ _ m1 m2 Hs).
  - intros i m1 m2 Hb. unfold bind, load_long, store_long in Hb.
    destruct (load (a +> 8 *! i) 8 m1) as [[t m1a]| |] eqn:Hla; try done.
    apply load_readable in Hla as [-> Hra].
    destruct (load (b +> 8 *! i) 8 m1) as [[q m1b]| |] eqn:Hlb; try done.
    apply load_readable in Hlb as [-> Hrb].
    destruct (store (a +> 8 *! i) q m1) as [[[] m1c]| |] eqn:Hsa; try done.
    apply store_shape in Hsa. apply store_shape in Hb.
    split; [by eapply same_shape_trans|done].
Qed.

(** For a size that is a multiple of 8 above 8 the last turn is at the
    index [size - 8], the byte offset [8 * (size - 8)], which is not below
    [size]: a run of [swap] that ends well has read past both records. *)
Lemma swap_reads_outside a b size m m' :
  8 < size -> size mod 8 = 0 -> swap a b size m = Ok (tt, m') ->
  size <= 8 * (size - 8) /\
  readable (a +> 8 *! (size - 8)) 8 m = true /\
  readable (b +> 8 *! (size - 8)) 8 m = true.
Proof.
  intros Hs Hmod Hrun.
  pose proof (Z.div_mod size 8 ltac:(lia)) as Hdm. rewrite Hmod in Hdm.
  split; [lia|].
  apply swap_reads in Hrun as [_ Hall]; [|done].
  assert (trips 0 size 8 = Z.to_nat (size / 8)) as Ht.
  { unfold trips. f_equal. symmetry.
    apply Z.div_unique with (r := 7); lia. }
  specialize (Hall (Z.to_nat (size / 8) - 1)%nat).
  replace (Z.of_nat (Z.to_nat (size / 8) - 1) * 8) with (size - 8) in Hall by lia.
  apply Hall. lia.
Qed.


(** Where [swap] does nothing, the loops of the quick-sort and bitonic
    strategies that move records do nothing either: they have no exchange
    of their own. *)
Section Exchanges.

Variable compar : elem -> elem -> Z.

Lemma call_compar_mem p q size m c m' :
  call_compar compar p q size m = Ok (c, m') -> m' = m.
Proof.
  unfold call_compar, bind, ret. intros H.
  destruct (load p size m) as [[a m1]| |] eqn:Ha; try done.
  apply load_Ok in Ha as [-> _].
  destruct (load q size m) as [[b m2]| |] eqn:Hb; try done.
  apply load_Ok in Hb as [-> _]. by injection H.
Qed.

Lemma scan_up_mem base size : forall fuel i m i' m',
  scan_up compar fuel base size i m = Ok (i', m') -> m' = m.
Proof.
  induction fuel as [|fuel IH]; intros i m i' m' H; [done|].
  simpl in H. unfold bind in H.
  destruct (call_compar compar _ _ size m) as [[c m1]| |] eqn:Hc; try done.
  apply call_compar_mem in Hc as ->.
  destruct (c <? 0); [by eapply IH|by injection H].
Qed.

Lemma scan_down_mem base size : forall fuel j m j' m',
  scan_down compar fuel base size j m = Ok (j', m') -> m' = m.
Proof.
  induction fuel as [|fuel IH]; intros j m j' m' H; [done|].
  simpl in H. unfold bind in H.
  destruct (call_compar compar _ _ size m) as [[c m1]| |] eqn:Hc; try done.
  apply call_compar_mem in Hc as ->.
  destruct (0 <? c); [by eapply IH|by injection H].
Qed.

Lemma partition_loop_mem base size :
  size mod 8 <> 0 ->
  forall fuel i j m r m',
  partition_loop compar fuel base size i j m = Ok (r, m') -> m' = m.
Proof.
  intros Hmod. induction fuel as [|fuel IH]; intros i j m r m' H; [done|].
  rewrite partition_loop_S in H.
  destruct (i <=? j); [|by injection H].
  unfold bind in H.
  destruct (scan_up compar (S fuel) base size i m) as [[i1 m1]| |] eqn:Hu; try done.
  apply scan_up_mem in Hu as ->.
  destruct (scan_down compar (S fuel) base size j m) as [[j1 m2]| |] eqn:Hd; try done.
  apply scan_down_mem in Hd as ->.
  destruct (i1 <=? j1); [|by injection H].
  destruct (i1 <? j1).
  - rewrite swap_no_op in H by done. by eapply IH.
  - unfold ret in H. by eapply IH.
Qed.

Lemma merge_worker_mem base asec md size :
  size mod 8 <> 0 ->
  forall begin end_ m m',
  merge_worker compar base asec md size begin end_ m = Ok (tt, m') -> m' = m.
Proof.
  intros Hmod begin end_. unfold merge_worker.
  generalize (trips begin end_ 1). intros cnt. revert begin.
  induction cnt as [|cnt IH]; intros i m m' H.
  - by injection H.
  - rewrite for_loop_S in H. unfold bind at 1 in H. unfold bind at 1 in H.
    destruct (call_compar compar _ _ size m) as [[c m1]| |] eqn:Hc; try done.
    apply call_compar_mem in Hc as ->.
    assert ((if asec
             then if 0 <? c
                  then swap (base +> u64 i *! size) (base +> (u64 i +! md) *! size) size
                  else ret tt
             else if c <? 0
                  then swap (base +> u64 i *! size) (base +> (u64 i +! md) *! size) size
                  else ret tt) m = Ok (tt, m)) as Hsw.
    { destruct asec, (0 <? c), (c <? 0); try done; by apply swap_no_op. }
    rewrite Hsw in H. by eapply IH.
Qed.

Lemma reverse_loop_mem base low size :
  size mod 8 <> 0 ->
  forall fuel i j m m',
  reverse_loop fuel base low size i j m = Ok (tt, m') -> m' = m.
Proof.
  intros Hmod. induction fuel as [|fuel IH]; intros i j m m' H; [done|].
  simpl in H. destruct (i <? j); [|by injection H].
  unfold bind in H. rewrite swap_no_op in H by done. by eapply IH.
Qed.

End Exchanges.


(** ** The loop of [swap], for every multiple of 8 *)

Lemma load_in_block blk buf off n m :
  get_blk blk m = Some buf -> 0 <= off -> 0 <= n -> off + n <= Z.of_nat (length buf) ->
  load (Ptr blk off) n m = Ok (take (Z.to_nat n) (drop (Z.to_nat off) buf), m).
Proof.
  intros Hblk Hoff Hn Hlen. apply load_Ok. split; [done|]. exists buf. split; [done|].
  by apply read_bytes_Some.
Qed.

Lemma load_length p n m bs : load p n m = Ok (bs, m) -> Z.of_nat (length bs) = n.
Proof.
  intros H. apply load_Ok in H as (_ & buf & _ & Hr).
  apply read_bytes_Some in Hr as (H0 & Hn & Hlen & ->).
  rewrite length_take, length_drop. lia.
Qed.

Lemma store_after_load p n m bs v :
  load p n m = Ok (bs, m) -> Z.of_nat (length v) = n ->
  exists m1, store p v m = Ok (tt, m1).
Proof.
  intros H Hv. apply load_Ok in H as (_ & buf & Hblk & Hr).
  apply read_bytes_Some in Hr as (H0 & Hn & Hlen & _).
  eexists. apply store_Ok. exists buf. eexists. split; [done|]. split; [|done].
  apply write_bytes_Some. split; [done|]. split; [lia|done].
Qed.

(** The exchange of two longs that do not overlap: each holds what the
    other held, and what lies clear of both is as it was. *)
Lemma exchange_longs pa pb m x y :
  load pa 8 m = Ok (x, m) -> load pb 8 m = Ok (y, m) ->
  clear_of_long pa 8 pb ->
  exists m2,
    (store pa y ;;; store pb x) m = Ok (tt, m2) /\
    load pa 8 m2 = Ok (y, m2) /\ load pb 8 m2 = Ok (x, m2) /\
    forall q n bs, load q n m = Ok (bs, m) ->
      clear_of_long q n pa -> clear_of_long q n pb -> load q n m2 = Ok (bs, m2).
Proof.
  intros Ha Hb Hab. unfold clear_of_long in Hab.
  pose proof (load_length _ _ _ _ Ha) as Hlx. pose proof (load_length _ _ _ _ Hb) as Hly.
  destruct (store_after_load pa 8 m x y Ha Hly) as [m1 Hs1].
  assert (load pb 8 m1 = Ok (y, m1)) as Hb1.
  { eapply load_store_other; [exact Hs1|exact Hb|]. rewrite Hly.
    destruct Hab as [H|[H|H]]; [left; congruence|right; right; lia|right; left; lia]. }
  destruct (store_after_load pb 8 m1 y x Hb1 Hlx) as [m2 Hs2].
  exists m2. split; [unfold bind; by rewrite Hs1|]. split; [|split].
  - eapply load_store_other; [exact Hs2| |].
    + replace 8 with (Z.of_nat (length y)) by done. by eapply load_store_same.
    + rewrite Hlx. destruct Hab as [H|[H|H]]; [left; congruence|right; left; lia|right; right; lia].
  - replace 8 with (Z.of_nat (length x)) by done. by eapply load_store_same.
  - intros q n bs Hq Hqa Hqb. unfold clear_of_long in Hqa, Hqb.
    eapply load_store_other; [exact Hs2| |].
    + eapply load_store_other; [exact Hs1|exact Hq|]. rewrite Hly.
      destruct Hqa as [H|[H|H]]; [left; congruence|right; left; lia|right; right; lia].
    + rewrite Hlx.
      destruct Hqb as [H|[H|H]]; [left; congruence|right; left; lia|right; right; lia].
Qed.

Lemma long_at blk off i :
  0 <= off -> 0 <= i -> off + 8 * i < 2 ^ 63 ->
  Ptr blk off +> 8 *! i = Ptr blk (off + 8 * i).
Proof.
  intros Hoff Hi Hb. unfold padd, mul64. simpl. f_equal.
  rewrite (u64_small (8 * i)) by lia. apply u64_small. lia.
Qed.

(** The loop of [swap] from the turn [s0] on: the index [i = 8 * s] of the
    turn [s] is used as an index of longs, so that the turn exchanges the
    longs at the byte offset [64 * s].  The longs of the one run do not
    overlap those of the other. *)
Lemma swap_loop blk oa ob K :
  0 <= oa -> 0 <= ob -> oa + 64 * (K - 1) < 2 ^ 63 -> ob + 64 * (K - 1) < 2 ^ 63 ->
  (forall t t', 0 <= t < K -> 0 <= t' < K ->
     oa + 64 * t + 8 <= ob + 64 * t' \/ ob + 64 * t' + 8 <= oa + 64 * t) ->
  forall cnt s0 m,
  0 <= s0 -> s0 + Z.of_nat cnt <= K ->
  (forall s, s0 <= s < s0 + Z.of_nat cnt ->
     exists x y, load (Ptr blk (oa + 64 * s)) 8 m = Ok (x, m) /\
                 load (Ptr blk (ob + 64 * s)) 8 m = Ok (y, m)) ->
  exists m',
    for_loop cnt (8 * s0) 8 (fun i =>
      t <- load_long (Ptr blk oa) i ;;
      q <- load_long (Ptr blk ob) i ;;
      store_long (Ptr blk oa) i q ;;;
      store_long (Ptr blk ob) i t) m = Ok (tt, m') /\
    (forall s x y, s0 <= s < s0 + Z.of_nat cnt ->
       load (Ptr blk (oa + 64 * s)) 8 m = Ok (x, m) ->
       load (Ptr blk (ob + 64 * s)) 8 m = Ok (y, m) ->
       load (Ptr blk (oa + 64 * s)) 8 m' = Ok (y, m') /\
       load (Ptr blk (ob + 64 * s)) 8 m' = Ok (x, m')) /\
    (forall q n bs, load q n m = Ok (bs, m) ->
       (forall s, s0 <= s < s0 + Z.of_nat cnt ->
          clear_of_long q n (Ptr blk (oa + 64 * s)) /\
          clear_of_long q n (Ptr blk (ob + 64 * s))) ->
       load q n m' = Ok (bs, m')).
Proof.
  intros Hoa Hob Hba Hbb Hapart.
  induction cnt as [|cnt IH]; intros s0 m Hs0 HK Hr.
  { exists m. split; [done|]. split; [intros s x y Hs; lia|]. by intros q n bs Hq _. }
  destruct (Hr s0 ltac:(lia)) as (x0 & y0 & Hx0 & Hy0).
  destruct (exchange_longs _ _ m x0 y0 Hx0 Hy0) as (m2 & Hrun2 & Ha2 & Hb2 & Hfr2).
  { unfold clear_of_long. simpl. right.
    destruct (Hapart s0 s0 ltac:(lia) ltac:(lia)); lia. }
  assert (forall s, s0 < s < s0 + Z.of_nat (S cnt) ->
            (oa + 64 * s + 8 <= ob + 64 * s0 \/ ob + 64 * s0 + 8 <= oa + 64 * s) /\
            (oa + 64 * s0 + 8 <= ob + 64 * s \/ ob + 64 * s + 8 <= oa + 64 * s0)) as Hlater.
  { intros s Hs. split; apply Hapart; lia. }
  destruct (IH (s0 + 1) m2) as (m' & Hrun & Hex & Hfr); [lia|lia| |].
  { intros s Hs. destruct (Hr s ltac:(lia)) as (x & y & Hx & Hy).
    destruct (Hlater s ltac:(lia)) as [H1 H2].
    exists x, y. split; apply Hfr2; try done; unfold clear_of_long; simpl; lia. }
  exists m'. split; [|split].
  - rewrite for_loop_S. unfold bind at 1.
    unfold load_long, store_long. rewrite !long_at by lia.
    replace (8 * (8 * s0)) with (64 * s0) by lia.
    unfold bind at 1. rewrite Hx0. unfold bind at 1. rewrite Hy0.
    unfold bind in Hrun2. unfold bind at 1.
    destruct (store (Ptr blk (oa + 64 * s0)) y0 m) as [[[] m1]| |]; try done.
    rewrite Hrun2. by replace (8 * s0 + 8) with (8 * (s0 + 1)) by lia.
  - intros s x y Hs Hx Hy. destruct (decide (s = s0)) as [->|Hne].
    + rewrite Hx0 in Hx. rewrite Hy0 in Hy. injection Hx as <-. injection Hy as <-.
      split; apply Hfr; try done; intros s' Hs';
        destruct (Hlater s' ltac:(lia)) as [H1 H2];
        unfold clear_of_long; simpl; lia.
    + destruct (Hlater s ltac:(lia)) as [H1 H2].
      apply Hex; [lia| |]; apply Hfr2; try done; unfold clear_of_long; simpl; lia.
  - intros q n bs Hq Hcl. apply Hfr.
    + destruct (Hcl s0 ltac:(lia)) as [H1 H2]. by apply Hfr2.
    + intros s Hs. apply Hcl. lia.
Qed.

(** [swap] for any multiple of 8, on two runs of longs that lie in a block
    and do not overlap: for [i = 0, 8, 16, ...] below [size] the longs at
    the byte offset [8 * i] are exchanged, and nothing else is touched.
    Above 8 the last of these longs is past the end of the record, and the
    second long of each record stays where it was. *)
Lemma swap_longs blk buf oa ob size m :
  0 < size -> size mod 8 = 0 ->
  get_blk blk m = Some buf -> Z.of_nat (length buf) < 2 ^ 63 ->
  0 <= oa -> 0 <= ob ->
  oa + 8 * (size - 8) + 8 <= Z.of_nat (length buf) ->
  ob + 8 * (size - 8) + 8 <= Z.of_nat (length buf) ->
  (forall i i', 0 <= i < size -> 0 <= i' < size -> i mod 8 = 0 -> i' mod 8 = 0 ->
     oa + 8 * i + 8 <= ob + 8 * i' \/ ob + 8 * i' + 8 <= oa + 8 * i) ->
  exists m',
    swap (Ptr blk oa) (Ptr blk ob) size m = Ok (tt, m') /\
    (forall i, 0 <= i < size -> i mod 8 = 0 ->
       load (Ptr blk (oa + 8 * i)) 8 m'
       = Ok (take 8 (drop (Z.to_nat (ob + 8 * i)) buf), m') /\
       load (Ptr blk (ob + 8 * i)) 8 m'
       = Ok (take 8 (drop (Z.to_nat (oa + 8 * i)) buf), m')) /\
    (forall q n bs, load q n m = Ok (bs, m) ->
       (forall i, 0 <= i < size -> i mod 8 = 0 ->
          clear_of_long q n (Ptr blk (oa + 8 * i)) /\
          clear_of_long q n (Ptr blk (ob + 8 * i))) ->
       load q n m' = Ok (bs, m')) /\
    (8 < size ->
       size <= 8 * (size - 8) /\
       ((forall i, 0 <= i < size -> i mod 8 = 0 ->
           oa + 16 <= ob + 8 * i \/ ob + 8 * i + 8 <= oa + 8) ->
        load (Ptr blk (oa + 8)) 8 m'
        = Ok (take 8 (drop (Z.to_nat (oa + 8)) buf), m')) /\
       ((forall i, 0 <= i < size -> i mod 8 = 0 ->
           ob + 16 <= oa + 8 * i \/ oa + 8 * i + 8 <= ob + 8) ->
        load (Ptr blk (ob + 8)) 8 m'
        = Ok (take 8 (drop (Z.to_nat (ob + 8)) buf), m'))).
Proof.
  intros Hs Hmod Hblk Hlen Hoa Hob Hla Hlb Hapart.
  pose proof (Z.div_mod size 8 ltac:(lia)) as Hdm. rewrite Hmod in Hdm.
  remember (size / 8) as k eqn:Hk.
  assert (1 <= k) as Hk1 by lia.
  assert (forall off, 0 <= off -> off + 8 <= Z.of_nat (length buf) ->
            load (Ptr blk off) 8 m = Ok (take 8 (drop (Z.to_nat off) buf), m)) as Hload.
  { intros off H0 H1. by apply (load_in_block blk buf off 8 m). }
  assert (forall s, (8 * s) mod 8 = 0) as Hm8.
  { intros s. rewrite Z.mul_comm. apply Z.mod_mul. lia. }
  destruct (swap_loop blk oa ob k Hoa Hob ltac:(lia) ltac:(lia)) with
    (cnt := Z.to_nat k) (s0 := 0) (m := m) as (m' & Hrun & Hex & Hfr); [|lia|lia| |].
  { intros t t' Ht Ht'.
    destruct (Hapart (8 * t) (8 * t') ltac:(lia) ltac:(lia) (Hm8 t) (Hm8 t')); lia. }
  { intros s Hs'. eexists; eexists. split; apply Hload; lia. }
  assert (forall i, 0 <= i < size -> i mod 8 = 0 ->
            0 <= i / 8 < 0 + Z.of_nat (Z.to_nat k) /\ 8 * i = 64 * (i / 8)) as Hidx.
  { intros i Hi Him. pose proof (Z.div_mod i 8 ltac:(lia)) as Hi8. rewrite Him in Hi8.
    lia. }
  exists m'. split; [|split; [|split]].
  - unfold swap. rewrite Hmod. change (0 =? 0) with true. cbv iota.
    replace (trips 0 size 8) with (Z.to_nat k); [done|].
    unfold trips. f_equal. replace (size - 0 + 8 - 1) with (7 + k * 8) by lia.
    rewrite Z.div_add by lia. change (7 / 8) with 0. lia.
  - intros i Hi Him. destruct (Hidx i Hi Him) as [Hs' Heq].
    rewrite Heq. apply Hex; [done| |]; apply Hload; lia.
  - intros q n bs Hq Hcl. apply Hfr; [done|]. intros s Hs'.
    replace (64 * s) with (8 * (8 * s)) by lia.
    apply (Hcl (8 * s)); [lia|apply Hm8].
  - intros H8. split; [lia|].
    split; intros Hcl; (apply Hfr; [apply Hload; lia|]); intros s Hs';
      unfold clear_of_long; simpl;
      destruct (Hcl (8 * s) ltac:(lia) (Hm8 s)); lia.
Qed.

(** C10: [swap] exchanges the two records only for the size 8.  For a size
    that is not a multiple of 8 it returns with the memory as it was.  For
    the size 8 it exchanges the two records of an array and nothing else.
    For every multiple of 8 its loop runs over [i = 0, 8, 16, ...] below
    [size] and uses [i] as an index of longs: a run that ends well has
    read the long at the byte offset [8 * (size - 8)], and where the longs
    of the one run lie in the block and do not overlap those of the other
    it exchanges the longs at the byte offsets [8 * i] and nothing else.
    For every multiple of 8 above 8 this exchanges a long past the end of
    the records and leaves the second long of a record, where no long of
    the other run lies on it, as it was.  On six records of 16 bytes the exchange of
    the first two exchanges their first halves and the first halves of
    the fifth and sixth, and with the two records alone it leaves the
    buffer.  The partition loop of the quick sort, the compare-and-exchange
    pass of the bitonic merge and the reversal of the bitonic leaves move
    records by [swap] alone: where [swap] does nothing they leave the
    memory as it was. *)
Theorem swap_exchanges_longs_only :
  (forall a b size m, size mod 8 <> 0 -> swap a b size m = Ok (tt, m)) /\
  (forall es ts key pv (i j : nat) x y,
     uniform 8 es -> Z.of_nat (length es) * 8 < 2 ^ 63 ->
     es !! i = Some x -> es !! j = Some y ->
     swap (eptr 8 Base i) (eptr 8 Base j) 8 (cm (AState es ts key pv))
     = Ok (tt, cm (AState (<[j:=x]> (<[i:=y]> es)) ts key pv))) /\
  (forall a b size m m',
     8 < size -> size mod 8 = 0 -> swap a b size m = Ok (tt, m') ->
     size <= 8 * (size - 8) /\
     readable (a +> 8 *! (size - 8)) 8 m = true /\
     readable (b +> 8 *! (size - 8)) 8 m = true) /\
  (forall blk buf oa ob size m,
     0 < size -> size mod 8 = 0 ->
     get_blk blk m = Some buf -> Z.of_nat (length buf) < 2 ^ 63 ->
     0 <= oa -> 0 <= ob ->
     oa + 8 * (size - 8) + 8 <= Z.of_nat (length buf) ->
     ob + 8 * (size - 8) + 8 <= Z.of_nat (length buf) ->
     (forall i i', 0 <= i < size -> 0 <= i' < size -> i mod 8 = 0 -> i' mod 8 = 0 ->
        oa + 8 * i + 8 <= ob + 8 * i' \/ ob + 8 * i' + 8 <= oa + 8 * i) ->
     exists m',
       swap (Ptr blk oa) (Ptr blk ob) size m = Ok (tt, m') /\
       (forall i, 0 <= i < size -> i mod 8 = 0 ->
          load (Ptr blk (oa + 8 * i)) 8 m'
          = Ok (take 8 (drop (Z.to_nat (ob + 8 * i)) buf), m') /\
          load (Ptr blk (ob + 8 * i)) 8 m'
          = Ok (take 8 (drop (Z.to_nat (oa + 8 * i)) buf), m')) /\
       (forall q n bs, load q n m = Ok (bs, m) ->
          (forall i, 0 <= i < size -> i mod 8 = 0 ->
             clear_of_long q n (Ptr blk (oa + 8 * i)) /\
             clear_of_long q n (Ptr blk (ob + 8 * i))) ->
          load q n m' = Ok (bs, m')) /\
       (8 < size ->
          size <= 8 * (size - 8) /\
          ((forall i, 0 <= i < size -> i mod 8 = 0 ->
              oa + 16 <= ob + 8 * i \/ ob + 8 * i + 8 <= oa + 8) ->
           load (Ptr blk (oa + 8)) 8 m'
           = Ok (take 8 (drop (Z.to_nat (oa + 8)) buf), m')) /\
          ((forall i, 0 <= i < size -> i mod 8 = 0 ->
              ob + 16 <= oa + 8 * i \/ oa + 8 * i + 8 <= ob + 8) ->
           load (Ptr blk (ob + 8)) 8 m'
           = Ok (take 8 (drop (Z.to_nat (ob + 8)) buf), m')))) /\
  swap (eptr 16 Base 0) (eptr 16 Base 1) 16
    (Mem (concat [rec16 10 0; rec16 11 1; rec16 12 2; rec16 13 3; rec16 14 4; rec16 15 5])
         None [] [])
  = Ok (tt, Mem (concat [take 8 (rec16 11 1) ++ drop 8 (rec16 10 0);
                         take 8 (rec16 10 0) ++ drop 8 (rec16 11 1);
                         rec16 12 2; rec16 13 3;
                         take 8 (rec16 15 5) ++ drop 8 (rec16 14 4);
                         take 8 (rec16 14 4) ++ drop 8 (rec16 15 5)])
                None [] []) /\
  swap (eptr 16 Base 0) (eptr 16 Base 1) 16
    (Mem (concat [rec16 10 0; rec16 11 1]) None [] []) = Err OutOfRange /\
  (forall compar base size,
     size mod 8 <> 0 ->
     (forall fuel i j m r m',
        partition_loop compar fuel base size i j m = Ok (r, m') -> m' = m) /\
     (forall asec md begin end_ m m',
        merge_worker compar base asec md size begin end_ m = Ok (tt, m') -> m' = m) /\
     (forall fuel low i j m m',
        reverse_loop fuel base low size i j m = Ok (tt, m') -> m' = m)).
Proof.
  split; [exact swap_no_op|].
  split; [exact swap_elem8|].
  split; [exact swap_reads_outside|].
  split; [exact swap_longs|].
  split; [reflexivity|].
  split; [reflexivity|].
  intros compar base size Hmod. split; [|split].
  - by apply partition_loop_mem.
  - intros asec md. by apply merge_worker_mem.
  - intros fuel low. by apply reverse_loop_mem.
Qed.

(** [swap] on records of 4 bytes, of 8 bytes, of 16 bytes and of 24 bytes,
    and the partition loop on records of 4 bytes: the records [9] and [2]
    stand on the wrong sides of the pivot [5] and stay there. *)
Lemma swap_exchanges_longs_only_witness :
  swap (eptr 4 Base 0) (eptr 4 Base 1) 4 (Mem (concat [rec4 7 0; rec4 3 1]) None [] [])
  = Ok (tt, Mem (concat [rec4 7 0; rec4 3 1]) None [] []) /\
  swap (eptr 8 Base 0) (eptr 8 Base 2) 8
    (Mem (concat [rec8 7 0; rec8 3 1; rec8 5 2]) None [] [])
  = Ok (tt, Mem (concat [rec8 5 2; rec8 3 1; rec8 7 0]) None [] []) /\
  readable (eptr 16 Base 0 +> 8 *! (16 - 8)) 8
    (Mem (concat [rec16 10 0; rec16 11 1; rec16 12 2; rec16 13 3; rec16 14 4; rec16 15 5])
         None [] []) = true /\
  (exists m',
     swap (Ptr Base 0) (Ptr Base 136) 24 (Mem two_runs None [] []) = Ok (tt, m') /\
     load (Ptr Base (0 + 8 * 16)) 8 m'
     = Ok (take 8 (drop (Z.to_nat (136 + 8 * 16)) two_runs), m') /\
     24 <= 8 * (24 - 8) /\
     load (Ptr Base (0 + 8)) 8 m' = Ok (take 8 (drop (Z.to_nat (0 + 8)) two_runs), m')) /\
  partition_loop key_compar 5 (Ptr Base 0) 4 0 2
    (Mem (concat [rec4 1 0; rec4 9 1; rec4 2 2]) None [] (rec4 5 0))
  = Ok ((2, 1), Mem (concat [rec4 1 0; rec4 9 1; rec4 2 2]) None [] (rec4 5 0)).
Proof.
  destruct swap_exchanges_longs_only as (Hno & H8 & Hout & Hlongs & H16 & _ & Hloops).
  split; [apply Hno; discriminate|].
  split.
  - apply (H8 [rec8 7 0; rec8 3 1; rec8 5 2] None [] [] 0%nat 2%nat (rec8 7 0) (rec8 5 2)).
    + repeat constructor.
    + simpl. lia.
    + reflexivity.
    + reflexivity.
  - split; [|split].
    + eapply (Hout (eptr 16 Base 0) (eptr 16 Base 1) 16); [lia|reflexivity|exact H16].
    + destruct (Hlongs Base two_runs 0 136 24 (Mem two_runs None [] []))
        as (m' & Hrun & Hex & _ & Hsecond).
      * lia.
      * reflexivity.
      * reflexivity.
      * simpl. lia.
      * lia.
      * lia.
      * simpl. lia.
      * simpl. lia.
      * intros i i' Hi Hi' Hm Hm'.
        pose proof (Z.div_mod i 8 ltac:(lia)) as Hdm. rewrite Hm in Hdm. lia.
      * exists m'. split; [exact Hrun|].
        destruct (Hex 16 ltac:(lia) eq_refl) as [Hlast _].
        destruct (Hsecond ltac:(lia)) as (Hpast & Hkept & _).
        split; [exact Hlast|]. split; [exact Hpast|].
        apply Hkept. intros i Hi Hm. lia.
    + destruct (Hloops key_compar (Ptr Base 0) 4 ltac:(discriminate)) as (Hpart & _ & _).
      reflexivity.
Defined.


(** ** The assertion of the record copy *)

Lemma no_assert_ret {A} (a : A) : no_assert (ret a).
Proof. by intros m. Qed.

Lemma no_assert_bind {A B} (c : M A) (k : A -> M B) :
  no_assert c -> (forall a, no_assert (k a)) -> no_assert (bind c k).
Proof.
  intros Hc Hk m. unfold bind. specialize (Hc m).
  destruct (c m) as [[a m']|e|]; [apply Hk|congruence|done].
Qed.

Lemma no_assert_if {A} (b : bool) (c1 c2 : M A) :
  no_assert c1 -> no_assert c2 -> no_assert (if b then c1 else c2).
Proof. by destruct b. Qed.

Lemma no_assert_out_of_fuel {A} : no_assert (fun _ : mem => @OutOfFuel (A * mem)).
Proof. by intros m. Qed.

Lemma no_assert_load p n : no_assert (load p n).
Proof.
  intros m. unfold load. destruct (get_blk (p_blk p) m); [|done].
  by destruct (read_bytes _ _ _).
Qed.

Lemma no_assert_store p bs : no_assert (store p bs).
Proof.
  intros m. unfold store. destruct (get_blk (p_blk p) m); [|done].
  by destruct (write_bytes _ _ _).
Qed.

Lemma no_assert_for_loop step (body : Z -> M unit) :
  (forall i, no_assert (body i)) -> forall cnt i, no_assert (for_loop cnt i step body).
Proof.
  intros Hb. induction cnt as [|cnt IH]; intros i; [apply no_assert_ret|].
  rewrite for_loop_S. apply no_assert_bind; [apply Hb|intros _; apply IH].
Qed.

Create HintDb na.

(** Walks down a computation to the calls it is made of. *)
Ltac na_step :=
  first [ apply no_assert_ret | apply no_assert_out_of_fuel
        | apply no_assert_load | apply no_assert_store
        | solve [auto with na]
        | apply no_assert_bind | apply no_assert_if | apply no_assert_for_loop
        | progress (unfold load_long, store_long)
        | match goal with |- forall _, _ => intro end; cbv beta ].
Ltac na := cbv beta; repeat na_step.

Lemma no_assert_swap a b size : no_assert (swap a b size).
Proof. unfold swap. na. Qed.

Lemma no_assert_my_memcpy to from n :
  0 <= n -> n mod 8 = 0 -> no_assert (my_memcpy to from n).
Proof.
  intros Hn Hmod. unfold my_memcpy. rewrite land7, Hmod, Z.eqb_refl by done.
  cbv zeta. na.
Qed.

#[local] Hint Resolve no_assert_swap no_assert_my_memcpy : na.

Section Safety.

Variable compar : elem -> elem -> Z.
Variable libc_qsort : (elem -> elem -> Z) -> list elem -> list elem.
Variable size : Z.
Hypothesis Hsize : 0 <= size.
Hypothesis Hmod : size mod 8 = 0.

Lemma no_assert_call_compar p q : no_assert (call_compar compar p q size).
Proof. unfold call_compar. na. Qed.

Lemma no_assert_qsort base num : no_assert (qsort compar libc_qsort base num size).
Proof. unfold qsort. na. Qed.

Lemma no_assert_malloc_temp ok n : no_assert (malloc_temp ok n).
Proof. by intros m. Qed.

Lemma no_assert_malloc_key n : no_assert (malloc_key n).
Proof. by intros m. Qed.

Lemma no_assert_alloca_pivot n : no_assert (alloca_pivot n).
Proof. by intros m. Qed.

Lemma no_assert_free_temp : no_assert free_temp.
Proof. by intros m. Qed.

Lemma no_assert_free_key : no_assert free_key.
Proof. by intros m. Qed.

Hint Resolve no_assert_call_compar no_assert_qsort no_assert_malloc_temp
  no_assert_malloc_key no_assert_alloca_pivot no_assert_free_temp no_assert_free_key : na.

Lemma no_assert_insertion_shift base : forall fuel j,
  no_assert (insertion_shift compar fuel base size j).
Proof. induction fuel as [|fuel IH]; intros j; simpl; na. Qed.

Hint Resolve no_assert_insertion_shift : na.

Lemma no_assert_insertion_sort base nelem :
  no_assert (insertion_sort compar base nelem size).
Proof. unfold insertion_sort, insertion_body. na. Qed.

Lemma no_assert_merge_loop base temp iend jend : forall fuel i j k,
  no_assert (merge_loop compar fuel base temp size iend jend i j k).
Proof. induction fuel as [|fuel IH]; intros i j k; simpl; na. Qed.

Lemma no_assert_copy_rest base temp : forall cnt i k,
  no_assert (copy_rest cnt base temp size i k).
Proof. induction cnt as [|cnt IH]; intros i k; simpl; na. Qed.

Hint Resolve no_assert_insertion_sort no_assert_merge_loop no_assert_copy_rest : na.

Lemma no_assert_p_merge base temp l r md :
  no_assert (p_merge compar base temp size l r md).
Proof.
  unfold p_merge, copy_body. cbv zeta.
  apply no_assert_bind; [na|intros _].
  apply no_assert_bind; [na|intros _].
  apply no_assert_bind; [na|intros [[i j] k]]. na.
Qed.

Hint Resolve no_assert_p_merge : na.

Lemma no_assert_p_merge_sort base temp grain : forall fuel nelem l r,
  no_assert (p_merge_sort compar fuel base temp nelem size l r grain).
Proof. induction fuel as [|fuel IH]; intros nelem l r; simpl; na. Qed.

Lemma no_assert_merge_worker base asec md begin end_ :
  no_assert (merge_worker compar base asec md size begin end_).
Proof. unfold merge_worker. na. Qed.

Lemma no_assert_reverse_loop base low : forall fuel i j,
  no_assert (reverse_loop fuel base low size i j).
Proof. induction fuel as [|fuel IH]; intros i j; simpl; na. Qed.

Hint Resolve no_assert_p_merge_sort no_assert_merge_worker no_assert_reverse_loop : na.

Lemma no_assert_sort_leaf base low num asec :
  no_assert (sort_leaf compar libc_qsort base low num asec size).
Proof. unfold sort_leaf. na. Qed.

Hint Resolve no_assert_sort_leaf : na.

Lemma no_assert_p_bitonic_merge base asec grain : forall fuel low num,
  no_assert (p_bitonic_merge compar libc_qsort fuel base low num asec size grain).
Proof.
  induction fuel as [|fuel IH]; intros low num; simpl; [na|].
  unfold emu_local_for. na.
Qed.

Hint Resolve no_assert_p_bitonic_merge : na.

Lemma no_assert_p_bitonic_sort base grain : forall fuel low num asec,
  no_assert (p_bitonic_sort compar libc_qsort fuel base low num asec size grain).
Proof. induction fuel as [|fuel IH]; intros low num asec; simpl; na. Qed.

Lemma no_assert_scan_up base : forall fuel i, no_assert (scan_up compar fuel base size i).
Proof. induction fuel as [|fuel IH]; intros i; simpl; na. Qed.

Lemma no_assert_scan_down base : forall fuel j, no_assert (scan_down compar fuel base size j).
Proof. induction fuel as [|fuel IH]; intros j; simpl; na. Qed.

Hint Resolve no_assert_p_bitonic_sort no_assert_scan_up no_assert_scan_down : na.

Lemma no_assert_partition_loop base : forall fuel i j,
  no_assert (partition_loop compar fuel base size i j).
Proof.
  induction fuel as [|fuel IH]; intros i j; [simpl; na|].
  rewrite partition_loop_S. na.
Qed.

Lemma no_assert_select_pivot base left right :
  no_assert (select_pivot compar base size left right).
Proof. unfold select_pivot. cbv zeta. na. Qed.

Hint Resolve no_assert_partition_loop no_assert_select_pivot : na.

Lemma no_assert_p_quick_sort base grain : forall fuel nelem left right,
  no_assert (p_quick_sort compar fuel base nelem size left right grain).
Proof.
  induction fuel as [|fuel IH]; intros nelem left right; [simpl; na|].
  intros m. rewrite p_quick_sort_S. revert m.
  apply no_assert_bind; [na|intros _].
  apply no_assert_bind; [na|intros [i j]]. na.
Qed.

Hint Resolve no_assert_p_quick_sort : na.

Lemma no_assert_entry_points malloc_ok fuel base num :
  no_assert (emu_sort_local compar libc_qsort malloc_ok base num size) /\
  no_assert (emu_sort_local_bitonic compar libc_qsort base num size) /\
  no_assert (emu_sort_local_merge compar malloc_ok base num size) /\
  no_assert (emu_sort_local_quick compar fuel base num size).
Proof.
  unfold emu_sort_local, emu_sort_local_bitonic, emu_sort_local_merge,
    emu_sort_local_quick.
  repeat split; na.
Qed.

End Safety.


Lemma emu_sort_local_assert compar libc_qsort malloc_ok size n buf :
  0 < size -> size mod 8 <> 0 -> MIN_BITONIC_LENGTH <= n < 2 ^ 63 ->
  run (fun base => emu_sort_local compar libc_qsort malloc_ok base n size) buf
  = Err AssertFail.
Proof.
  intros Hs Hmod Hn. unfold MIN_BITONIC_LENGTH in Hn. unfold run, emu_sort_local.
  destruct (MIN_BITONIC_LENGTH <=? n) eqn:H1; [|unfold MIN_BITONIC_LENGTH in H1; lia].
  unfold bind at 1. unfold malloc_temp at 1.
  unfold bind at 1.
  replace (n -! 1) with (n - 1) by (unwrap; lia).
  rewrite p_merge_sort_assert by (done || lia).
  destruct (n =? 1) eqn:Hn1; [lia|done].
Qed.

(** C4, as the code has it: the record copy [my_memcpy] asserts that the
    number of bytes is a multiple of 8.  For a record size that is a
    multiple of 8 no entry point ever stops at the assertion, whatever the
    buffer, the count and the comparator; for any other record size every
    record copy stops at it, and so do [emu_sort_local_merge] from two
    records on and [emu_sort_local] from 32 records on. *)
Theorem assertion_fires_off_multiples_of_8 compar libc_qsort size :
  0 < size ->
  (size mod 8 = 0 ->
   forall malloc_ok fuel base num,
     no_assert (emu_sort_local compar libc_qsort malloc_ok base num size) /\
     no_assert (emu_sort_local_bitonic compar libc_qsort base num size) /\
     no_assert (emu_sort_local_merge compar malloc_ok base num size) /\
     no_assert (emu_sort_local_quick compar fuel base num size)) /\
  (size mod 8 <> 0 ->
   (forall to from m, my_memcpy to from size m = Err AssertFail) /\
   (forall malloc_ok n buf, 2 <= n < 2 ^ 63 ->
      run (fun base => emu_sort_local_merge compar malloc_ok base n size) buf
      = Err AssertFail) /\
   (forall malloc_ok n buf, MIN_BITONIC_LENGTH <= n < 2 ^ 63 ->
      run (fun base => emu_sort_local compar libc_qsort malloc_ok base n size) buf
      = Err AssertFail)).
Proof.
  intros Hs. split.
  - intros Hmod malloc_ok fuel base num. apply no_assert_entry_points; [lia|done].
  - intros Hmod. split; [|split].
    + intros to from m. apply my_memcpy_assert; [lia|done].
    + intros malloc_ok n buf Hn. by apply emu_sort_local_merge_assert.
    + intros malloc_ok n buf Hn. by apply emu_sort_local_assert.
Qed.

Lemma assertion_fires_off_multiples_of_8_witness :
  (8 mod 8 = 0 ->
   forall malloc_ok fuel base num,
     no_assert (emu_sort_local key_compar isort malloc_ok base num 8) /\
     no_assert (emu_sort_local_bitonic key_compar isort base num 8) /\
     no_assert (emu_sort_local_merge key_compar malloc_ok base num 8) /\
     no_assert (emu_sort_local_quick key_compar fuel base num 8)) /\
  (8 mod 8 <> 0 ->
   (forall to from m, my_memcpy to from 8 m = Err AssertFail) /\
   (forall malloc_ok n buf, 2 <= n < 2 ^ 63 ->
      run (fun base => emu_sort_local_merge key_compar malloc_ok base n 8) buf
      = Err AssertFail) /\
   (forall malloc_ok n buf, MIN_BITONIC_LENGTH <= n < 2 ^ 63 ->
      run (fun base => emu_sort_local key_compar isort malloc_ok base n 8) buf
      = Err AssertFail)).
Proof. apply (assertion_fires_off_multiples_of_8 key_compar isort 8). lia. Defined.

(** Five records of 4 bytes: the merge sort stops at the assertion. *)
Lemma assertion_fires_for_size_4 :
  run (fun base => emu_sort_local_merge key_compar true base 5 4)
    (concat [rec4 5 0; rec4 3 1; rec4 1 2; rec4 4 3; rec4 2 4])
  = Err AssertFail.
Proof. reflexivity. Qed.


(** ** The split point of the bitonic merge *)

Lemma hp2_loop_stop fuel res n : n <= res -> hp2_loop fuel res n = res.
Proof.
  intros H. destruct fuel as [|fuel]; [done|]. simpl.
  destruct (res <? n) eqn:Hlt; [lia|]. by rewrite andb_false_r.
Qed.

Lemma shl64_pow2 k : 0 <= k < 63 -> shl64 (2 ^ k) 1 = 2 ^ (k + 1).
Proof.
  intros Hk. unfold shl64. rewrite Z.shiftl_mul_pow2 by lia.
  rewrite Z.pow_add_r by lia. apply u64_small.
  assert (2 ^ k <= 2 ^ 62) by (apply Z.pow_le_mono_r; lia). lia.
Qed.

(** From [res = 2 ^ k] below [n] the loop stops at the first power of two
    that is not below [n]. *)
Lemma hp2_loop_spec n : forall fuel k,
  0 <= k -> 2 ^ k < n <= 2 ^ 63 -> 63 - k <= Z.of_nat fuel ->
  exists k', k < k' <= 63 /\ 2 ^ (k' - 1) < n <= 2 ^ k' /\
             hp2_loop fuel (2 ^ k) n = 2 ^ k'.
Proof.
  induction fuel as [|fuel IH]; intros k Hk Hn Hf.
  - assert (2 ^ 63 <= 2 ^ k) by (apply Z.pow_le_mono_r; lia). lia.
  - assert (k < 63) as Hk63.
    { destruct (decide (k < 63)); [done|].
      assert (2 ^ 63 <= 2 ^ k) by (apply Z.pow_le_mono_r; lia). lia. }
    simpl. assert (0 < 2 ^ k) as Hpos by (apply Z.pow_pos_nonneg; lia).
    destruct (0 <? 2 ^ k) eqn:H0; [|lia].
    destruct (2 ^ k <? n) eqn:H1; [|lia]. simpl.
    rewrite shl64_pow2 by lia.
    destruct (decide (2 ^ (k + 1) < n)) as [Hlt|Hge].
    + destruct (IH (k + 1)) as (k' & Hk' & Hb & Hrun); [lia|lia|lia|].
      exists k'. split; [lia|done].
    + exists (k + 1). split; [lia|]. split.
      * replace (k + 1 - 1) with k by lia. lia.
      * apply hp2_loop_stop. lia.
Qed.

Lemma highestPowerofTwoLessThan_spec n :
  2 <= n <= 2 ^ 63 ->
  exists k, 0 <= k /\ highestPowerofTwoLessThan n = 2 ^ k /\ 2 ^ k < n <= 2 ^ (k + 1).
Proof.
  intros Hn. unfold highestPowerofTwoLessThan.
  destruct (hp2_loop_spec n 65 0) as (k' & Hk' & Hb & Hrun); [lia|simpl; lia|lia|].
  change (hp2_loop 65 1 n) with (hp2_loop 65 (2 ^ 0) n). rewrite Hrun. exists (k' - 1).
  split; [lia|]. split.
  - rewrite Z.shiftr_div_pow2 by lia.
    replace (2 ^ k') with (2 ^ (k' - 1) * 2 ^ 1) by (rewrite <- Z.pow_add_r by lia; f_equal; lia).
    by rewrite Z.div_mul.
  - by replace (k' - 1 + 1) with k' by lia.
Qed.


Lemma exchange_pass_spec compar asec (m : nat) : forall cnt i es,
  (cnt <= m)%nat -> (i + cnt + m <= length es)%nat ->
  exchange_pass compar asec m cnt i es ≡ₚ es /\
  (forall k, (i <= k < i + cnt)%nat ->
     exists x y, es !! k = Some x /\ es !! (k + m)%nat = Some y /\
       exchange_pass compar asec m cnt i es !! k
       = Some (if out_of_order compar asec x y then y else x) /\
       exchange_pass compar asec m cnt i es !! (k + m)%nat
       = Some (if out_of_order compar asec x y then x else y)) /\
  (forall k, ~ (i <= k < i + cnt)%nat -> ~ (i + m <= k < i + cnt + m)%nat ->
     exchange_pass compar asec m cnt i es !! k = es !! k).
Proof.
  induction cnt as [|cnt IH]; intros i es Hcnt Hlen.
  { split; [done|]. split; [intros k Hk; lia|done]. }
  simpl.
  destruct (lookup_lt_is_Some_2 es i ltac:(lia)) as [x Hx].
  destruct (lookup_lt_is_Some_2 es (i + m) ltac:(lia)) as [y Hy].
  rewrite Hx, Hy.
  set (es1 := if out_of_order compar asec x y
              then <[(i + m)%nat:=x]> (<[i:=y]> es) else es).
  assert (es1 ≡ₚ es) as Hperm1.
  { unfold es1. destruct (out_of_order compar asec x y); [|done].
    by apply Permutation_insert_swap. }
  assert (forall k, k <> i -> k <> (i + m)%nat -> es1 !! k = es !! k) as Hother.
  { intros k Hk1 Hk2. unfold es1. destruct (out_of_order compar asec x y); [|done].
    by rewrite !list_lookup_insert_ne. }
  assert (es1 !! i = Some (if out_of_order compar asec x y then y else x)) as H1i.
  { unfold es1. destruct (out_of_order compar asec x y); [|done].
    rewrite list_lookup_insert_ne by lia.
    apply list_lookup_insert_eq. lia. }
  assert (es1 !! (i + m)%nat = Some (if out_of_order compar asec x y then x else y)) as H1m.
  { unfold es1. destruct (out_of_order compar asec x y); [|done].
    apply list_lookup_insert_eq. rewrite length_insert. lia. }
  destruct (IH (S i) es1) as (Hperm & Hpairs & Hrest);
    [lia|rewrite (Permutation_length Hperm1); lia|].
  split; [by rewrite Hperm|]. split.
  - intros k Hk. destruct (decide (k = i)) as [->|Hne].
    + exists x, y. split; [done|]. split; [done|].
      rewrite !Hrest by lia. done.
    + destruct (Hpairs k ltac:(lia)) as (x' & y' & Hx' & Hy' & Hk1 & Hk2).
      rewrite Hother in Hx' by lia. rewrite Hother in Hy' by lia.
      exists x', y'. done.
  - intros k Hk1 Hk2. rewrite Hrest by lia. apply Hother; lia.
Qed.

Section BitonicMerge.

Variable compar : elem -> elem -> Z.
Variable libc_qsort : (elem -> elem -> Z) -> list elem -> list elem.

Lemma length_exchange_pass asec m : forall cnt i es,
  length (exchange_pass compar asec m cnt i es) = length es.
Proof.
  induction cnt as [|cnt IH]; intros i es; [done|]. simpl. rewrite IH.
  destruct (es !! i), (es !! (i + m)%nat); try done.
  destruct (out_of_order compar asec _ _); [|done]. by rewrite !length_insert.
Qed.

Lemma merge_worker_loop (asec : bool) (m : nat) ts key pv : forall cnt (i : nat) es,
  uniform 8 es -> Z.of_nat (length es) * 8 < 2 ^ 63 ->
  (i + cnt + m <= length es)%nat ->
  for_loop cnt (Z.of_nat i) 1 (fun i =>
    let left := eptr 8 Base 0 +> u64 i *! 8 in
    let right := eptr 8 Base 0 +> (u64 i +! Z.of_nat m) *! 8 in
    c <- call_compar compar left right 8 ;;
    if asec then
      if 0 <? c then swap left right 8 else ret tt
    else
      if c <? 0 then swap left right 8 else ret tt) (cm (AState es ts key pv))
  = Ok (tt, cm (AState (exchange_pass compar asec m cnt i es) ts key pv)).
Proof.
  induction cnt as [|cnt IH]; intros i es Hu Hb Hlen; [done|].
  rewrite for_loop_S. cbv zeta.
  destruct (lookup_lt_is_Some_2 es i ltac:(lia)) as [x Hx].
  destruct (lookup_lt_is_Some_2 es (i + m) ltac:(lia)) as [y Hy].
  assert (eptr 8 Base 0 +> u64 (Z.of_nat i) *! 8 = eptr 8 Base i) as ->.
  { apply eptr_add; [lia| |unwrap; lia|lia]. unfold mul64. apply u64_range. }
  assert (eptr 8 Base 0 +> (u64 (Z.of_nat i) +! Z.of_nat m) *! 8 = eptr 8 Base (i + m)) as ->.
  { apply eptr_add; [lia| |unwrap; lia|lia]. unfold mul64. apply u64_range. }
  unfold bind at 1. unfold bind at 1.
  rewrite (compar_base compar es ts key pv i (i + m) x y Hu Hx Hy).
  simpl exchange_pass. rewrite Hx, Hy.
  assert ((if asec
           then if 0 <? compar x y
                then swap (eptr 8 Base i) (eptr 8 Base (i + m)) 8 else ret tt
           else if compar x y <? 0
                then swap (eptr 8 Base i) (eptr 8 Base (i + m)) 8 else ret tt)
            (cm (AState es ts key pv))
          = Ok (tt, cm (AState (if out_of_order compar asec x y
                                then <[(i + m)%nat:=x]> (<[i:=y]> es) else es)
                          ts key pv))) as ->.
  { unfold out_of_order.
    destruct asec; [destruct (0 <? compar x y)|destruct (compar x y <? 0)];
      try done; by apply swap_elem8. }
  replace (Z.of_nat i + 1) with (Z.of_nat (S i)) by lia.
  apply IH.
  - destruct (out_of_order compar asec x y); [|done].
    apply uniform_insert; [apply uniform_insert; [done|]|].
    + eapply uniform_lookup; [exact Hu|exact Hy].
    + eapply uniform_lookup; [exact Hu|exact Hx].
  - destruct (out_of_order compar asec x y); [|done]. by rewrite !length_insert.
  - destruct (out_of_order compar asec x y); [|lia]. rewrite !length_insert. lia.
Qed.

Lemma p_bitonic_merge_S fuel base low num asec size grain :
  p_bitonic_merge compar libc_qsort (S fuel) base low num asec size grain
  = if grain <? num then
      let m := highestPowerofTwoLessThan num in
      emu_local_for low (low +! (num -! m)) grain (merge_worker compar base asec m size) ;;;
      p_bitonic_merge compar libc_qsort fuel base low m asec size grain ;;;
      p_bitonic_merge compar libc_qsort fuel base (low +! m) (num -! m) asec size grain
    else if 1 <? num then sort_leaf compar libc_qsort base low num asec size
    else ret tt.
Proof. done. Qed.

(** One level of [p_bitonic_merge] on the records: the pass over the pairs
    [(i, i + m)], then the two calls on the records the pass leaves. *)
Lemma p_bitonic_merge_split fuel (asec : bool) grain (low num : nat) es ts key pv :
  (2 <= num)%nat -> grain < Z.of_nat num ->
  uniform 8 es -> Z.of_nat (length es) * 8 < 2 ^ 63 -> (low + num <= length es)%nat ->
  exists m : nat,
    Z.of_nat m = highestPowerofTwoLessThan (Z.of_nat num) /\
    (m < num <= 2 * m)%nat /\
    p_bitonic_merge compar libc_qsort (S fuel) (eptr 8 Base 0)
      (Z.of_nat low) (Z.of_nat num) asec 8 grain (cm (AState es ts key pv))
    = (p_bitonic_merge compar libc_qsort fuel (eptr 8 Base 0)
         (Z.of_nat low) (Z.of_nat m) asec 8 grain ;;;
       p_bitonic_merge compar libc_qsort fuel (eptr 8 Base 0)
         (Z.of_nat (low + m)) (Z.of_nat (num - m)) asec 8 grain)
        (cm (AState (exchange_pass compar asec m (num - m) low es) ts key pv)).
Proof.
  intros Hnum Hgrain Hu Hb Hlen.
  destruct (highestPowerofTwoLessThan_spec (Z.of_nat num)) as (k & Hk & Hhp & Hlt & Hle);
    [lia|].
  rewrite Z.pow_add_r in Hle by lia. change (2 ^ 1) with 2 in Hle.
  assert (0 < 2 ^ k) as Hpos by (apply Z.pow_pos_nonneg; lia).
  exists (Z.to_nat (2 ^ k)).
  split; [lia|]. split; [lia|].
  rewrite p_bitonic_merge_S.
  destruct (grain <? Z.of_nat num) eqn:Hg; [|lia].
  cbv zeta. rewrite Hhp.
  replace (2 ^ k) with (Z.of_nat (Z.to_nat (2 ^ k))) by lia.
  set (m := Z.to_nat (2 ^ k)) in *.
  replace (Z.of_nat num -! Z.of_nat m) with (Z.of_nat (num - m)) by (unwrap; lia).
  replace (Z.of_nat low +! Z.of_nat (num - m)) with (Z.of_nat (low + (num - m)))
    by (unwrap; lia).
  replace (Z.of_nat low +! Z.of_nat m) with (Z.of_nat (low + m)) by (unwrap; lia).
  unfold emu_local_for, merge_worker.
  rewrite !s64_small by lia. rewrite trips_unit.
  replace (Z.to_nat (Z.of_nat (low + (num - m)) - Z.of_nat low)) with (num - m)%nat by lia.
  unfold bind at 1.
  pose proof (merge_worker_loop asec m ts key pv (num - m) low es Hu Hb ltac:(lia))
    as Hpass.
  cbv zeta in Hpass. rewrite Hpass. by rewrite !Nat2Z.id.
Qed.

End BitonicMerge.


Lemma hp2_loop_zero fuel n : hp2_loop fuel 0 n = 0.
Proof. by destruct fuel. Qed.

(** Above [2 ^ 63] the doubling wraps to [0], where the guard [res > 0]
    ends the loop. *)
Lemma hp2_loop_overflow n : forall fuel k,
  0 <= k <= 63 -> 2 ^ 63 < n -> 64 - k <= Z.of_nat fuel ->
  hp2_loop fuel (2 ^ k) n = 0.
Proof.
  induction fuel as [|fuel IH]; intros k Hk Hn Hf; [lia|].
  assert (0 < 2 ^ k) as Hpos by (apply Z.pow_pos_nonneg; lia).
  assert (2 ^ k <= 2 ^ 63) as Hle by (apply Z.pow_le_mono_r; lia).
  simpl. destruct (0 <? 2 ^ k) eqn:H0; [|lia].
  destruct (2 ^ k <? n) eqn:H1; [|lia]. simpl.
  destruct (decide (k = 63)) as [->|Hne].
  - change (shl64 (2 ^ 63) 1) with 0. apply hp2_loop_zero.
  - rewrite shl64_pow2 by lia. apply IH; lia.
Qed.






(** Above [2 ^ 63], which no number of records of a buffer reaches, the
    doubling wraps and the function returns [0]. *)
Lemma highestPowerofTwoLessThan_wraps : highestPowerofTwoLessThan (2 ^ 63 + 1) = 0.
Proof. reflexivity. Qed.

(** ** Calls on no record and on one record *)

Section SmallCounts.

Variable compar : elem -> elem -> Z.
Variable libc_qsort : (elem -> elem -> Z) -> list elem -> list elem.

Lemma emu_sort_local_small size es :
  0 < size -> uniform size es -> Z.of_nat (length es) * size < 2 ^ 63 ->
  Z.of_nat (length es) < MIN_BITONIC_LENGTH ->
  libc_qsort compar es ≡ₚ es ->
  forall malloc_ok,
  run (fun base => emu_sort_local compar libc_qsort malloc_ok base (Z.of_nat (length es)) size)
    (concat es)
  = Ok (concat (libc_qsort compar es)).
Proof.
  intros Hs Hu Hb Hn Hperm malloc_ok. unfold emu_sort_local.
  destruct (MIN_BITONIC_LENGTH <=? Z.of_nat (length es)) eqn:H; [lia|].
  by apply qsort_run.
Qed.

Lemma emu_sort_local_merge_small size es malloc_ok :
  (length es <= 1)%nat ->
  run (fun base => emu_sort_local_merge compar malloc_ok base (Z.of_nat (length es)) size)
    (concat es)
  = Ok (concat es).
Proof.
  intros Hn. unfold run, emu_sort_local_merge.
  destruct (1 <? Z.of_nat (length es)) eqn:H; [lia|done].
Qed.

(** One record: the three pointers of the pivot selection are the record
    itself, no exchange is made, and both cursors stop on it. *)
Lemma p_quick_sort_one fuel size e ts key pv nelem grain :
  0 < size -> size mod 8 = 0 -> size < 2 ^ 63 ->
  Z.of_nat (length e) = size -> compar e e = 0 ->
  p_quick_sort compar (S (S fuel)) (Ptr Base 0) nelem size 0 0 grain
    (cm (AState [e] ts key pv))
  = Ok (tt, cm (AState [e] ts key e)).
Proof.
  intros Hs Hmod Hb He Hee.
  assert (uniform size [e]) as Hu by (by repeat constructor).
  assert (Ptr Base 0 +> u64 0 *! size = eptr size Base 0) as Hlo by reflexivity.
  assert (select_pivot compar (Ptr Base 0) size 0 0 (cm (AState [e] ts key pv))
          = Ok (tt, cm (AState [e] ts key e))) as Hsel.
  { unfold select_pivot. cbv zeta. rewrite Hlo.
    assert (eptr size Base 0 +>
              size *! Z.shiftr (u64 (p_off (eptr size Base 0) - p_off (eptr size Base 0)) / size) 1
            = eptr size Base 0) as ->.
    { simpl p_off. change (u64 (0 - 0)) with 0. rewrite Z.div_0_l by lia.
      change (Z.shiftr 0 1) with 0. unfold mul64. rewrite Z.mul_0_r. reflexivity. }
    assert (forall pv', call_compar compar (eptr size Base 0) (eptr size Base 0) size
                          (cm (AState [e] ts key pv'))
                        = Ok (0, cm (AState [e] ts key pv'))) as Hc.
    { intros pv'.
      rewrite (compar_elem compar size _ Base [e] 0 e Base [e] 0 e)
        by (try done; simpl; reflexivity).
      by rewrite Hee. }
    unfold bind at 1. rewrite alloca_pivot_cm.
    unfold bind at 1. rewrite Hc. change (0 <? 0) with false. cbv iota.
    unfold bind at 1. unfold ret at 1.
    unfold bind at 1. rewrite Hc. change (0 <? 0) with false. cbv iota.
    unfold bind at 1. unfold ret at 1.
    change (Ptr Pivot 0) with (eptr size Pivot 0).
    rewrite (memcpy_elem size _ Pivot [replicate (Z.to_nat size) 0] 0 Base [e] 0 e);
      try done; try (simpl; reflexivity).
    - simpl. by rewrite app_nil_r.
    - repeat constructor. rewrite length_replicate. lia.
    - simpl. lia.
    - by left.
    - simpl. lia.
    - simpl. lia. }
  assert (forall c, call_compar compar (Ptr Base 0 +> u64 0 *! size) (Ptr Pivot 0) size
                      (cm (AState [e] ts key e)) = c ->
                    c = Ok (0, cm (AState [e] ts key e))) as Hcmp.
  { intros c <-. rewrite Hlo. change (Ptr Pivot 0) with (eptr size Pivot 0).
    rewrite (compar_elem compar size _ Base [e] 0 e Pivot [e] 0 e) by (try done; simpl; reflexivity).
    by rewrite Hee. }
  assert (forall f, scan_up compar (S f) (Ptr Base 0) size 0 (cm (AState [e] ts key e))
                    = Ok (0, cm (AState [e] ts key e))) as Hup.
  { intros f. cbn [scan_up]. unfold bind. by rewrite (Hcmp _ eq_refl). }
  assert (forall f, scan_down compar (S f) (Ptr Base 0) size 0 (cm (AState [e] ts key e))
                    = Ok (0, cm (AState [e] ts key e))) as Hdown.
  { intros f. cbn [scan_down]. unfold bind. by rewrite (Hcmp _ eq_refl). }
  assert (partition_loop compar (S (S fuel)) (Ptr Base 0) size 0 0
            (cm (AState [e] ts key e))
          = Ok ((1, -1), cm (AState [e] ts key e))) as Hpart.
  { rewrite partition_loop_S. change (0 <=? 0) with true. cbv iota.
    unfold bind at 1. rewrite Hup. unfold bind at 1. rewrite Hdown.
    change (0 <=? 0) with true. change (0 <? 0) with false. cbv iota.
    unfold bind at 1. unfold ret at 1.
    change (s64 (0 + 1)) with 1. change (s64 (0 - 1)) with (-1).
    by rewrite partition_loop_S. }
  rewrite p_quick_sort_S. unfold bind at 1. rewrite Hsel.
  unfold bind at 1. rewrite Hpart. reflexivity.
Qed.

Lemma emu_sort_local_quick_one fuel size e :
  0 < size -> size mod 8 = 0 -> size < 2 ^ 63 ->
  Z.of_nat (length e) = size -> compar e e = 0 -> (2 <= fuel)%nat ->
  run (fun base => emu_sort_local_quick compar fuel base 1 size) (concat [e])
  = Ok (concat [e]).
Proof.
  intros Hs Hmod Hb He Hee Hf. destruct fuel as [|[|fuel]]; [lia|lia|].
  unfold run, emu_sort_local_quick.
  change (s64 (1 -! 1)) with 0.
  change (Mem (concat [e]) None [] []) with (cm (AState [e] None [] [])).
  by rewrite p_quick_sort_one.
Qed.

End SmallCounts.

Lemma isort_short compar (l : list elem) : (length l <= 1)%nat -> isort compar l = l.
Proof. destruct l as [|x [|y l]]; simpl; intros; try lia; done. Qed.

(** C2, as the code has it: with no record or one record
    [emu_sort_local], [emu_sort_local_bitonic] (both hand the call to the
    platform's [qsort]) and [emu_sort_local_merge] return with the buffer
    as it was, for every record size; [emu_sort_local_quick] does so with
    one record when the record size is a multiple of 8. *)
Theorem small_counts_are_no_ops compar libc_qsort size es :
  0 < size -> uniform size es -> (length es <= 1)%nat ->
  Z.of_nat (length es) * size < 2 ^ 63 ->
  (forall l, (length l <= 1)%nat -> libc_qsort compar l = l) ->
  (forall malloc_ok,
     run (fun base => emu_sort_local compar libc_qsort malloc_ok base
                        (Z.of_nat (length es)) size) (concat es) = Ok (concat es)) /\
  run (fun base => emu_sort_local_bitonic compar libc_qsort base
                     (Z.of_nat (length es)) size) (concat es) = Ok (concat es) /\
  (forall malloc_ok,
     run (fun base => emu_sort_local_merge compar malloc_ok base
                        (Z.of_nat (length es)) size) (concat es) = Ok (concat es)) /\
  (length es = 1%nat -> size mod 8 = 0 -> (forall e, compar e e = 0) ->
   forall fuel, (2 <= fuel)%nat ->
     run (fun base => emu_sort_local_quick compar fuel base
                        (Z.of_nat (length es)) size) (concat es) = Ok (concat es)).
Proof.
  intros Hs Hu Hlen Hb Hlibc.
  assert (libc_qsort compar es ≡ₚ es) as Hperm by (by rewrite Hlibc).
  assert (Z.of_nat (length es) < MIN_BITONIC_LENGTH) as Hsmall
    by (unfold MIN_BITONIC_LENGTH; lia).
  split; [|split; [|split]].
  - intros malloc_ok.
    rewrite (emu_sort_local_small compar libc_qsort size es) by done.
    by rewrite Hlibc.
  - rewrite (emu_sort_local_bitonic_small compar libc_qsort size es) by done.
    by rewrite Hlibc.
  - intros malloc_ok. by apply emu_sort_local_merge_small.
  - intros H1 Hmod Hrefl fuel Hf.
    destruct es as [|e [|??]]; try done.
    apply Forall_cons in Hu as [He _]. simpl length in *.
    apply emu_sort_local_quick_one; try done. lia.
Qed.

Lemma small_counts_are_no_ops_witness :
  (forall malloc_ok,
     run (fun base => emu_sort_local key_compar isort malloc_ok base
                        (Z.of_nat (length [rec8 7 0])) 8) (concat [rec8 7 0])
     = Ok (concat [rec8 7 0])) /\
  run (fun base => emu_sort_local_bitonic key_compar isort base
                     (Z.of_nat (length [rec8 7 0])) 8) (concat [rec8 7 0])
  = Ok (concat [rec8 7 0]) /\
  (forall malloc_ok,
     run (fun base => emu_sort_local_merge key_compar malloc_ok base
                        (Z.of_nat (length [rec8 7 0])) 8) (concat [rec8 7 0])
     = Ok (concat [rec8 7 0])) /\
  (length [rec8 7 0] = 1%nat -> 8 mod 8 = 0 -> (forall e, key_compar e e = 0) ->
   forall fuel, (2 <= fuel)%nat ->
     run (fun base => emu_sort_local_quick key_compar fuel base
                        (Z.of_nat (length [rec8 7 0])) 8) (concat [rec8 7 0])
     = Ok (concat [rec8 7 0])).
Proof.
  apply (small_counts_are_no_ops key_compar isort 8 [rec8 7 0]).
  - lia.
  - repeat constructor.
  - simpl. lia.
  - simpl. lia.
  - intros l Hl. by apply isort_short.
Defined.

(** One record of 4 bytes stops [emu_sort_local_quick] at the assertion of
    the copy of the pivot; with no record it computes the right end
    [num - 1] of an empty range and reads outside the buffer. *)
Lemma quick_sort_small_counts_fail :
  run (fun base => emu_sort_local_quick key_compar 4 base 1 4) (concat [rec4 7 0])
  = Err AssertFail /\
  run (fun base => emu_sort_local_quick key_compar 4 base 0 8) []
  = Err OutOfRange.
Proof. split; reflexivity. Qed.


(** ** A scratch buffer that could not be allocated *)

Lemma load_in_range p n m buf :
  get_blk (p_blk p) m = Some buf ->
  0 <= p_off p -> 0 <= n -> p_off p + n <= Z.of_nat (length buf) ->
  exists bs, load p n m = Ok (bs, m).
Proof.
  intros Hb Hp Hn Hr. eexists. apply load_Ok. split; [done|].
  exists buf. split; [done|]. apply read_bytes_Some. done.
Qed.

Lemma store_null p bs m : get_blk (p_blk p) m = None -> store p bs m = Err NullDeref.
Proof. intros H. unfold store. by rewrite H. Qed.

(** The first long of the copy is read, and its store goes through the
    null pointer. *)
Lemma my_memcpy_null to from n m buf :
  8 <= n -> n mod 8 = 0 ->
  get_blk (p_blk to) m = None ->
  get_blk (p_blk from) m = Some buf ->
  0 <= p_off from < 2 ^ 64 -> p_off from + 8 <= Z.of_nat (length buf) ->
  my_memcpy to from n m = Err NullDeref.
Proof.
  intros Hn Hmod Hto Hfrom Hoff Hr. unfold my_memcpy.
  rewrite land7, Hmod, Z.eqb_refl by lia. cbv zeta.
  rewrite trips_unit, Z.shiftr_div_pow2 by lia.
  pose proof (Z.div_mod n 8 ltac:(lia)) as Hdm. rewrite Hmod in Hdm.
  change (2 ^ 3) with 8.
  destruct (Z.to_nat (n / 8 - 0)) as [|cnt] eqn:Hc; [lia|].
  rewrite for_loop_S. unfold bind at 1. unfold bind at 1.
  unfold load_long, store_long.
  assert (from +> 8 *! 0 = from) as ->.
  { destruct from as [b o]. unfold padd, mul64. simpl in *.
    change (u64 0) with 0. by rewrite Z.add_0_r, u64_small. }
  destruct (load_in_range from 8 m buf Hfrom) as [bs ->]; [lia..|].
  rewrite store_null; [done|]. by destruct to.
Qed.

Section NullScratch.

Variable compar : elem -> elem -> Z.

Lemma p_merge_null size es key pv (l : nat) r md :
  0 < size -> size mod 8 = 0 ->
  uniform size es -> Z.of_nat (length es) * size < 2 ^ 63 ->
  (l < length es)%nat -> Z.of_nat l <= md < 2 ^ 63 ->
  p_merge compar (eptr size Base 0) (eptr size Temp 0) size (Z.of_nat l) r md
    (cm (AState es None key pv))
  = Err NullDeref.
Proof.
  intros Hs Hmod Hu Hb Hl Hmd. unfold p_merge. cbv zeta.
  pose proof (Z.div_mod size 8 ltac:(lia)) as Hdm. rewrite Hmod in Hdm.
  rewrite trips_unit.
  replace (md -! Z.of_nat l +! 1 - 0) with (md - Z.of_nat l + 1) by (unwrap; lia).
  destruct (Z.to_nat (md - Z.of_nat l + 1)) as [|cnt] eqn:Hc; [lia|].
  rewrite for_loop_S. unfold copy_body.
  unfold bind at 1. unfold bind at 1.
  assert (8 <= size) as Hs8 by lia.
  assert (Z.of_nat l < 2 ^ 63) as Hl63 by nia.
  assert (Z.of_nat l * size < 2 ^ 63) as Hls by nia.
  assert (Z.of_nat l * size + size <= Z.of_nat (length es) * size) as Hle by nia.
  erewrite my_memcpy_null; [done|done|done|done|reflexivity| |].
  - unfold eptr, padd, add64, mul64. simpl p_off.
    rewrite !Z.add_0_l. rewrite (u64_small (Z.of_nat l)) by lia.
    rewrite !(u64_small (Z.of_nat l * size)) by lia. lia.
  - unfold eptr, padd, add64, mul64. simpl p_off.
    rewrite !Z.add_0_l. rewrite (u64_small (Z.of_nat l)) by lia.
    rewrite !(u64_small (Z.of_nat l * size)) by lia. simpl m_base.
    rewrite (length_concat_uniform size es Hu). lia.
Qed.

(** With a null scratch pointer a range of [p_merge_sort] either is left
    to the insertion sort, which does not use the scratch buffer, or ends
    in the first copy of [p_merge] through the null pointer. *)
Lemma p_merge_sort_null size grain :
  0 < size -> size mod 8 = 0 ->
  forall fuel pre X post key pv nelem l r,
  (1 <= length X <= fuel)%nat ->
  uniform size (pre ++ X ++ post) ->
  Z.of_nat (length (pre ++ X ++ post)) * size < 2 ^ 63 ->
  nelem = Z.of_nat (length X) ->
  l = Z.of_nat (length pre) ->
  r = Z.of_nat (length pre + length X) - 1 ->
  ((exists X' key',
      X' ≡ₚ X /\
      p_merge_sort compar fuel (eptr size Base 0) (eptr size Temp 0) nelem size l r grain
        (cm (AState (pre ++ X ++ post) None key pv))
      = Ok (tt, cm (AState (pre ++ X' ++ post) None key' pv))) \/
   p_merge_sort compar fuel (eptr size Base 0) (eptr size Temp 0) nelem size l r grain
     (cm (AState (pre ++ X ++ post) None key pv))
   = Err NullDeref) /\
  ((2 <= length X)%nat ->
   grain < Z.of_nat (length X) \/ P_MERGE_INSERTION_COND < Z.of_nat (length X) ->
   p_merge_sort compar fuel (eptr size Base 0) (eptr size Temp 0) nelem size l r grain
     (cm (AState (pre ++ X ++ post) None key pv))
   = Err NullDeref).
Proof.
  intros Hs Hmod. induction fuel as [|fuel IH];
    intros pre X post key pv nelem l r Hlen Hu Hb Hnelem Hl Hr; [lia|].
  pose proof Hb as Hb'. lin Hb'.
  assert (Z.of_nat (length pre + (length X + length post)) < 2 ^ 63) as HN by nia.
  rewrite p_merge_sort_S. cbv zeta.
  set (h := Z.to_nat ((Z.of_nat (length X) - 1) / 2 + 1)).
  assert ((2 <= length X)%nat ->
    (p_merge_sort compar fuel (eptr size Base 0) (eptr size Temp 0)
       ((l +! r) / 2 -! l +! 1) size l ((l +! r) / 2) grain ;;;
     p_merge_sort compar fuel (eptr size Base 0) (eptr size Temp 0)
       (r -! (l +! r) / 2) size ((l +! r) / 2 +! 1) r grain ;;;
     p_merge compar (eptr size Base 0) (eptr size Temp 0) size l r ((l +! r) / 2))
      (cm (AState (pre ++ X ++ post) None key pv))
    = Err NullDeref) as Hsplit.
  { intros H2.
    pose proof (Z.div_mod (Z.of_nat (length X) - 1) 2 ltac:(lia)) as Hdm.
    pose proof (Z.mod_pos_bound (Z.of_nat (length X) - 1) 2 ltac:(lia)) as Hmb.
    assert (1 <= h < length X)%nat as Hh by (unfold h; lia).
    assert ((l +! r) / 2 = Z.of_nat (length pre + h) - 1) as ->.
    { unfold add64. rewrite u64_small by (subst l r; lia). subst l r.
      symmetry. apply Z.div_unique with (r := (Z.of_nat (length X) - 1) mod 2); [lia|].
      unfold h. lia. }
    clear Hdm Hmb. clearbody h.
    remember (take h X) as X1 eqn:HX1. remember (drop h X) as X2 eqn:HX2.
    assert (length X1 = h) as HlX1 by (subst X1; rewrite length_take; lia).
    assert (length X2 = (length X - h)%nat) as HlX2 by (subst X2; by rewrite length_drop).
    assert (X = X1 ++ X2) as HX by (subst X1 X2; by rewrite take_drop).
    clear HX1 HX2. subst X.
    rewrite <- !app_assoc in *.
    destruct (IH pre X1 (X2 ++ post) key pv
                (Z.of_nat (length pre + h) - 1 -! l +! 1) l (Z.of_nat (length pre + h) - 1))
      as [[(L & key1 & HpL & Hrun1)|Herr1] _]; [lia|done|done| |done|lia| |].
    { subst l. unfold add64, sub64. repeat unwrap_step. lia. }
    2: { by erewrite bind_Err by exact Herr1. }
    erewrite bind_Ok by exact Hrun1.
    pose proof (Permutation_length HpL) as HlL.
    assert (uniform size (pre ++ L ++ X2 ++ post)) as HuL.
    { unfold uniform in *. by rewrite HpL. }
    destruct (IH (pre ++ L) X2 post key1 pv
                (r -! (Z.of_nat (length pre + h) - 1))
                (Z.of_nat (length pre + h) - 1 +! 1) r)
      as [[(R & key2 & HpR & Hrun2)|Herr2] _]; [lia| | | | | | |].
    { by rewrite <- app_assoc. }
    { lens. lin Hb. lia. }
    { subst l r. unfold add64, sub64. repeat unwrap_step. len. }
    { subst l r. unfold add64, sub64. repeat unwrap_step. len. }
    { subst l r. len. }
    2: { rewrite <- !app_assoc in Herr2. by erewrite bind_Err by exact Herr2. }
    rewrite <- !app_assoc in Hrun2.
    erewrite bind_Ok by exact Hrun2.
    pose proof (Permutation_length HpR) as HlR.
    subst l. apply p_merge_null; try done.
    - unfold uniform in *. by rewrite HpR.
    - lens. lin Hb. lia.
    - len.
    - lia. }
  destruct (l <? r) eqn:Hlr.
  2: { apply Z.ltb_ge in Hlr. split; [|intros; lia].
       left. exists X, key. done. }
  apply Z.ltb_lt in Hlr. subst nelem.
  assert ((1 <? Z.of_nat (length X)) = true) as H1 by (apply Z.ltb_lt; lia).
  rewrite H1.
  destruct (grain <? Z.of_nat (length X)) eqn:Hg.
  { split; [right|intros _ _]; apply Hsplit; lia. }
  apply Z.ltb_ge in Hg.
  destruct (Z.of_nat (length X) <=? P_MERGE_INSERTION_COND) eqn:Hc.
  2: { split; [right|intros _ _]; apply Hsplit; lia. }
  apply Z.leb_le in Hc. split; [|intros; lia].
  left. exists (isort compar X), []. split; [apply isort_perm|].
  subst l. to_eptr (length pre).
  by apply insertion_sort_spec.
Qed.


End NullScratch.


Lemma merge_grain_lt n : 1 <= n -> merge_grain n < n.
Proof.
  intros Hn. unfold merge_grain, P_MERGE_FACTOR_HIGH, P_MERGE_FACTOR_LOW.
  destruct (P_MERGE_SIZE_HIGH <? n); rewrite Z.shiftr_div_pow2 by lia.
  - change (2 ^ 6) with 64. pose proof (Z.div_mod n 64 ltac:(lia)).
    pose proof (Z.mod_pos_bound n 64 ltac:(lia)). lia.
  - change (2 ^ 3) with 8. pose proof (Z.div_mod n 8 ltac:(lia)).
    pose proof (Z.mod_pos_bound n 8 ltac:(lia)). lia.
Qed.

Lemma merge_sort_call_null compar size es :
  0 < size -> size mod 8 = 0 -> uniform size es ->
  Z.of_nat (length es) * size < 2 ^ 63 -> (2 <= length es)%nat ->
  (malloc_temp false (size *! Z.of_nat (length es)) ;;;
   p_merge_sort compar (Z.to_nat (Z.of_nat (length es))) (Ptr Base 0) (Ptr Temp 0)
     (Z.of_nat (length es)) size 0 (Z.of_nat (length es) -! 1)
     (merge_grain (Z.of_nat (length es))) ;;;
   free_temp) (Mem (concat es) None [] [])
  = Err NullDeref.
Proof.
  intros Hs Hmod Hu Hb Hlen.
  unfold bind at 1. unfold malloc_temp at 1. unfold bind at 1.
  change (Mem _ None _ _) with (cm (AState es None [] [])).
  assert (Z.of_nat (length es) < 2 ^ 63) as Hn by nia.
  destruct (p_merge_sort_null compar size (merge_grain (Z.of_nat (length es))) Hs Hmod
              (length es) [] es [] [] [] (Z.of_nat (length es)) 0
              (Z.of_nat (length es) -! 1)) as [_ Herr].
  - lia.
  - by rewrite app_nil_r.
  - simpl. by rewrite app_nil_r.
  - done.
  - done.
  - unfold sub64. rewrite u64_small by lia. simpl. lia.
  - simpl in Herr. rewrite app_nil_r in Herr.
    rewrite Nat2Z.id.
    change (Ptr Base 0) with (eptr size Base 0).
    change (Ptr Temp 0) with (eptr size Temp 0).
    rewrite Herr; [done|lia|]. left. apply merge_grain_lt. lia.
Qed.

(** C3, as the code has it: the result of [malloc] is not looked at.
    When the allocation of the scratch buffer fails, [emu_sort_local_merge]
    (from two records on) and [emu_sort_local] (from 32 records on) go on
    with the null pointer, and the run ends at the first copy of [p_merge]
    into the scratch buffer, a store through the null pointer. *)
Theorem null_scratch_is_dereferenced compar libc_qsort size es :
  0 < size -> size mod 8 = 0 -> uniform size es ->
  Z.of_nat (length es) * size < 2 ^ 63 ->
  ((2 <= length es)%nat ->
   run (fun base => emu_sort_local_merge compar false base (Z.of_nat (length es)) size)
     (concat es) = Err NullDeref) /\
  (MIN_BITONIC_LENGTH <= Z.of_nat (length es) ->
   run (fun base => emu_sort_local compar libc_qsort false base (Z.of_nat (length es)) size)
     (concat es) = Err NullDeref).
Proof.
  intros Hs Hmod Hu Hb. split.
  - intros Hlen. unfold run, emu_sort_local_merge.
    destruct (1 <? Z.of_nat (length es)) eqn:H1; [|lia].
    pose proof (merge_sort_call_null compar size es Hs Hmod Hu Hb Hlen) as Hrun.
    rewrite Nat2Z.id in Hrun. rewrite Nat2Z.id. by rewrite Hrun.
  - intros Hlen. unfold MIN_BITONIC_LENGTH in Hlen. unfold run, emu_sort_local.
    destruct (MIN_BITONIC_LENGTH <=? Z.of_nat (length es)) eqn:H1;
      [|unfold MIN_BITONIC_LENGTH in H1; lia].
    pose proof (merge_sort_call_null compar size es Hs Hmod Hu Hb ltac:(lia)) as Hrun.
    rewrite Nat2Z.id in Hrun. rewrite Nat2Z.id. by rewrite Hrun.
Qed.

Lemma null_scratch_is_dereferenced_witness :
  ((2 <= length six_records)%nat ->
   run (fun base => emu_sort_local_merge key_compar false base
                      (Z.of_nat (length six_records)) 8)
     (concat six_records) = Err NullDeref) /\
  (MIN_BITONIC_LENGTH <= Z.of_nat (length six_records) ->
   run (fun base => emu_sort_local key_compar isort false base
                      (Z.of_nat (length six_records)) 8)
     (concat six_records) = Err NullDeref).
Proof.
  apply (null_scratch_is_dereferenced key_compar isort 8 six_records).
  - lia.
  - reflexivity.
  - repeat constructor.
  - simpl. lia.
Defined.

(** The allocation that fails returns the null pointer and nothing else,
    and the merge sort of six records then stores through it. *)
Lemma failed_allocation_goes_unnoticed :
  malloc_temp false (8 *! 6) (Mem (concat six_records) None [] [])
  = Ok (tt, Mem (concat six_records) None [] []) /\
  run (fun base => emu_sort_local_merge key_compar false base 6 8) (concat six_records)
  = Err NullDeref.
Proof. split; reflexivity. Qed.


(** ** Sorting what is sorted *)

Section Idempotence.

Variable compar : elem -> elem -> Z.
Hypothesis Hto : total_order compar.

(** Two sorted lists with the same records in every class of equal
    records, class by class in the same order, are the same list. *)
Lemma sorted_stable_unique l1 : forall l2,
  StronglySorted (cle compar) l1 -> StronglySorted (cle compar) l2 ->
  (forall x, eq_class compar x l1 = eq_class compar x l2) ->
  l1 = l2.
Proof.
  induction l1 as [|a l1 IH]; intros l2 Hs1 Hs2 Hst.
  - destruct l2 as [|b l2]; [done|].
    assert (compar b b = 0) as Hbb by (pose proof (compar_antisym _ Hto b b); lia).
    specialize (Hst b). unfold eq_class in Hst.
    by rewrite (filter_cons_True _ b) in Hst.
  - apply StronglySorted_inv in Hs1 as [Hs1 Ha].
    assert (compar a a = 0) as Haa.
    { pose proof (compar_antisym _ Hto a a). lia. }
    assert (a ∈ l2) as Hal2.
    { pose proof (Hst a) as H. unfold eq_class in H.
      rewrite filter_cons_True in H by done.
      assert (a ∈ filter (fun y => compar y a = 0) l2) as Hin by (rewrite <- H; left).
      by apply list_elem_of_filter in Hin as [_ ?]. }
    destruct l2 as [|b l2]; [by apply elem_of_nil in Hal2|].
    apply StronglySorted_inv in Hs2 as [Hs2 Hb].
    assert (compar b b = 0) as Hbb.
    { pose proof (compar_antisym _ Hto b b). lia. }
    assert (b ∈ a :: l1) as Hbl1.
    { pose proof (Hst b) as H. unfold eq_class in H.
      rewrite (filter_cons_True _ b l2) in H by done.
      assert (b ∈ filter (fun y => compar y b = 0) (a :: l1)) as Hin by (rewrite H; left).
      by apply list_elem_of_filter in Hin as [_ ?]. }
    assert (compar b a = 0) as Hba.
    { assert (cle compar a b) as Hab.
      { apply elem_of_cons in Hbl1 as [->|Hin]; [unfold cle; lia|].
        rewrite Forall_forall in Ha. by apply Ha. }
      assert (cle compar b a) as Hba'.
      { apply elem_of_cons in Hal2 as [->|Hin]; [unfold cle; lia|].
        rewrite Forall_forall in Hb. by apply Hb. }
      unfold cle in *. pose proof (compar_antisym _ Hto a b). lia. }
    assert (a = b) as <-.
    { pose proof (Hst a) as H. unfold eq_class in H.
      rewrite !filter_cons_True in H by done. by injection H. }
    f_equal. apply IH; [done|done|].
    intros x. specialize (Hst x). unfold eq_class in *.
    rewrite !filter_cons in Hst.
    destruct (decide (compar a x = 0)); [by injection Hst|done].
Qed.


End Idempotence.



Lemma bytes_compar_eq a : forall b, bytes_compar a b = 0 -> a = b.
Proof.
  induction a as [|x a IH]; intros [|y b] H; simpl in H; try done.
  destruct (x =? y) eqn:Hxy; [|apply Z.eqb_neq in Hxy; lia].
  apply Z.eqb_eq in Hxy as ->. f_equal. by apply IH.
Qed.

Lemma bytes_compar_total_order : total_order bytes_compar.
Proof.
  split.
  - intros x. induction x as [|a x IH]; intros [|b y]; simpl; try done.
    rewrite (Z.eqb_sym b a). destruct (a =? b) eqn:Hab; [apply IH|].
    apply Z.eqb_neq in Hab. lia.
  - intros x. induction x as [|a x IH]; intros [|b y] [|c z]; simpl; try done; try lia.
    destruct (Z.eqb_spec a b), (Z.eqb_spec b c), (Z.eqb_spec a c); subst; try lia.
    apply IH.
Qed.




(** ** The partition of the quick sort on records of 16 bytes *)

(** C7 at a record size of 16 bytes: the first partition of
    [emu_sort_local_quick] on ten records with the keys
    [1, 7, 2, 3, 5, 4, 8, 9, 9, 9].  The pivot is the record with the key
    [5]; the loop exchanges the records 1 and 5 and ends with the cursors
    [i = 5] and [j = 3].  The exchange moved the first 8 bytes of the
    records 1 and 5 and then the 8 bytes that lie 64 bytes further (the
    first halves of the records 5 and 9): the record [7, 1] of the input is
    gone, and the buffer is not a rearrangement of the records it held. *)
Theorem partition_tears_records_of_16_bytes :
  quick_partition key_compar 12 (Ptr Base 0) 16 0 9
    (Mem (concat (tagged16 [1; 7; 2; 3; 5; 4; 8; 9; 9; 9])) None [] [])
  = Ok ((5, 3),
        Mem (concat [rec16 1 0;
                     take 8 (rec16 4 5) ++ drop 8 (rec16 7 1);
                     rec16 2 2; rec16 3 3; rec16 5 4;
                     take 8 (rec16 9 9) ++ drop 8 (rec16 4 5);
                     rec16 8 6; rec16 9 7; rec16 9 8;
                     take 8 (rec16 7 1) ++ drop 8 (rec16 9 9)])
            None [] (rec16 5 4)) /\
  ~ ([rec16 1 0;
      take 8 (rec16 4 5) ++ drop 8 (rec16 7 1);
      rec16 2 2; rec16 3 3; rec16 5 4;
      take 8 (rec16 9 9) ++ drop 8 (rec16 4 5);
      rec16 8 6; rec16 9 7; rec16 9 8;
      take 8 (rec16 7 1) ++ drop 8 (rec16 9 9)]
     ≡ₚ tagged16 [1; 7; 2; 3; 5; 4; 8; 9; 9; 9]) /\
  run (fun base => emu_sort_local_quick key_compar 12 base 10 16)
    (concat (tagged16 [1; 7; 2; 3; 5; 4; 8; 9; 9; 9]))
  = Err OutOfRange.
Proof.
  split; [reflexivity|]. split; [|reflexivity].
  intros Hperm.
  assert (rec16 7 1 ∈ tagged16 [1; 7; 2; 3; 5; 4; 8; 9; 9; 9]) as Hin
    by (right; left).
  rewrite <- Hperm in Hin.
  repeat (apply elem_of_cons in Hin as [Hin|Hin]; [discriminate Hin|]).
  by apply elem_of_nil in Hin.
Qed.


(** ** The entry points *)

(** C1, for the record sizes the code is written for: with a record size
    that is a multiple of 8, a valid comparator, and a platform [qsort]
    that sorts, [emu_sort_local] and [emu_sort_local_merge] return with the
    buffer holding the records of the input in non-decreasing order; so
    does [emu_sort_local_bitonic] below 32 records, where it hands the call
    to [qsort], and [emu_sort_local_quick] on at least one record of 8
    bytes. *)
Theorem entry_points_sort compar libc_qsort size es :
  total_order compar ->
  0 < size -> size mod 8 = 0 -> uniform size es ->
  Z.of_nat (length es) * size < 2 ^ 63 ->
  (forall l, libc_qsort compar l ≡ₚ l /\ StronglySorted (cle compar) (libc_qsort compar l)) ->
  (exists out,
     run (fun base => emu_sort_local compar libc_qsort true base (Z.of_nat (length es)) size)
       (concat es) = Ok (concat out) /\
     out ≡ₚ es /\ StronglySorted (cle compar) out) /\
  (exists out,
     run (fun base => emu_sort_local_merge compar true base (Z.of_nat (length es)) size)
       (concat es) = Ok (concat out) /\
     out ≡ₚ es /\ StronglySorted (cle compar) out) /\
  (Z.of_nat (length es) < MIN_BITONIC_LENGTH ->
   exists out,
     run (fun base => emu_sort_local_bitonic compar libc_qsort base
                        (Z.of_nat (length es)) size) (concat es) = Ok (concat out) /\
     out ≡ₚ es /\ StronglySorted (cle compar) out) /\
  (size = 8 -> (1 <= length es)%nat ->
   forall fuel, (length es + 1 <= fuel)%nat ->
   exists out,
     run (fun base => emu_sort_local_quick compar fuel base (Z.of_nat (length es)) size)
       (concat es) = Ok (concat out) /\
     out ≡ₚ es /\ StronglySorted (cle compar) out).
Proof.
  intros Hto Hs Hmod Hu Hb Hlibc.
  split; [|split; [|split]].
  - eexists. split; [apply emu_sort_local_run; try done; apply Hlibc|].
    destruct (MIN_BITONIC_LENGTH <=? Z.of_nat (length es)).
    + split; [apply msort_perm|by apply msort_sorted].
    + apply Hlibc.
  - eexists. split; [by apply emu_sort_local_merge_run|].
    split; [apply msort_perm|by apply msort_sorted].
  - intros Hsmall. eexists.
    split; [apply emu_sort_local_bitonic_small; try done; apply Hlibc|]. apply Hlibc.
  - intros -> H1 fuel Hf.
    destruct (emu_sort_local_quick_run compar Hto fuel es Hu Hb H1 Hf)
      as (out & Hperm & Hsort & Hrun).
    by exists out.
Qed.

Lemma entry_points_sort_witness :
  (exists out,
     run (fun base => emu_sort_local key_compar isort true base
                        (Z.of_nat (length six_records)) 8)
       (concat six_records) = Ok (concat out) /\
     out ≡ₚ six_records /\ StronglySorted (cle key_compar) out) /\
  (exists out,
     run (fun base => emu_sort_local_merge key_compar true base
                        (Z.of_nat (length six_records)) 8)
       (concat six_records) = Ok (concat out) /\
     out ≡ₚ six_records /\ StronglySorted (cle key_compar) out) /\
  (Z.of_nat (length six_records) < MIN_BITONIC_LENGTH ->
   exists out,
     run (fun base => emu_sort_local_bitonic key_compar isort base
                        (Z.of_nat (length six_records)) 8)
       (concat six_records) = Ok (concat out) /\
     out ≡ₚ six_records /\ StronglySorted (cle key_compar) out) /\
  (8 = 8 -> (1 <= length six_records)%nat ->
   forall fuel, (length six_records + 1 <= fuel)%nat ->
   exists out,
     run (fun base => emu_sort_local_quick key_compar fuel base
                        (Z.of_nat (length six_records)) 8)
       (concat six_records) = Ok (concat out) /\
     out ≡ₚ six_records /\ StronglySorted (cle key_compar) out).
Proof.
  apply (entry_points_sort key_compar isort 8 six_records).
  - exact key_compar_total_order.
  - lia.
  - reflexivity.
  - repeat constructor.
  - simpl. lia.
  - intros l. split; [apply isort_perm|apply (isort_sorted _ key_compar_total_order)].
Defined.

(** Three records of 4 bytes: the quick sort stops at the assertion of the
    copy of the pivot, and the buffer is not sorted. *)
Lemma records_of_4_bytes_are_not_sorted :
  run (fun base => emu_sort_local_quick key_compar 5 base 3 4)
    (concat [rec4 3 0; rec4 1 1; rec4 2 2])
  = Err AssertFail.
Proof. reflexivity. Qed.


(** The bitonic sort on 33 records that are in order already: the two
    halves are sorted in the directions [asec] and [!asec], the merge of
    a range whose length is no power of two needs them the other way
    round, and the records come back out of order. *)
Lemma bitonic_sort_of_33_records :
  match run (fun base => emu_sort_local_bitonic key_compar isort base 33 8)
          (concat (tagged8 (map Z.of_nat (seq 0 33)))) with
  | Ok buf => ascending key_compar (reshape (replicate 33 8%nat) buf)
  | _ => true
  end = false.
Proof. vm_compute. reflexivity. Qed.


(** * Further properties of the routines *)

(** ** The insertion sort *)

(** X1: [insertion_sort] on [nelem] records of a size that is a multiple
    of 8, anywhere in a buffer: it returns with these records in
    non-decreasing order, those that compare equal in the order they had,
    the records before and after them as they were, and its key buffer
    freed. *)
Theorem insertion_sort_sorts_range compar size pre X post ts key pv :
  total_order compar ->
  0 < size -> size mod 8 = 0 ->
  uniform size (pre ++ X ++ post) ->
  Z.of_nat (length (pre ++ X ++ post)) * size < 2 ^ 63 ->
  exists out,
    insertion_sort compar (eptr size Base (length pre)) (Z.of_nat (length X)) size
      (cm (AState (pre ++ X ++ post) ts key pv))
    = Ok (tt, cm (AState (pre ++ out ++ post) ts [] pv)) /\
    out ≡ₚ X /\ StronglySorted (cle compar) out /\ stable compar X out.
Proof.
  intros Hto Hs Hmod Hu Hb. exists (isort compar X).
  split; [by apply insertion_sort_spec|].
  split; [apply isort_perm|].
  split; [by apply isort_sorted|by apply isort_stable].
Qed.

Lemma insertion_sort_sorts_range_witness :
  exists out,
    insertion_sort key_compar (eptr 8 Base (length [rec8 9 0]))
      (Z.of_nat (length [rec8 3 1; rec8 1 2; rec8 3 3; rec8 1 4])) 8
      (cm (AState ([rec8 9 0] ++ [rec8 3 1; rec8 1 2; rec8 3 3; rec8 1 4] ++ [rec8 0 5])
             None [] []))
    = Ok (tt, cm (AState ([rec8 9 0] ++ out ++ [rec8 0 5]) None [] [])) /\
    out ≡ₚ [rec8 3 1; rec8 1 2; rec8 3 3; rec8 1 4] /\
    StronglySorted (cle key_compar) out /\
    stable key_compar [rec8 3 1; rec8 1 2; rec8 3 3; rec8 1 4] out.
Proof.
  apply (insertion_sort_sorts_range key_compar 8 [rec8 9 0]
           [rec8 3 1; rec8 1 2; rec8 3 3; rec8 1 4] [rec8 0 5] None [] []).
  - exact key_compar_total_order.
  - lia.
  - reflexivity.
  - repeat constructor.
  - simpl. lia.
Defined.

(** X2: the edge and error behaviour of [insertion_sort].  With at most
    one record its loop is not entered: nothing is copied, whatever the
    record size, and the memory is as before but for the key buffer, which
    is allocated and freed.  With two records or more and a record size
    that is not a multiple of 8 the first copy into the key buffer stops at
    the assertion of [my_memcpy]. *)
Theorem insertion_sort_edges compar base nelem size m :
  0 <= size ->
  (nelem <= 1 -> insertion_sort compar base nelem size m = Ok (tt, set_blk Key [] m)) /\
  (2 <= nelem -> size mod 8 <> 0 ->
   insertion_sort compar base nelem size m = Err AssertFail).
Proof.
  intros Hs. split.
  - intros Hn. unfold insertion_sort. rewrite trips_unit.
    replace (Z.to_nat (nelem - 1)) with 0%nat by lia.
    by destruct m.
  - intros Hn Hmod. by apply insertion_sort_assert.
Qed.

Lemma insertion_sort_edges_witness :
  (1 <= 1 ->
   insertion_sort key_compar (Ptr Base 0) 1 4 (Mem (rec4 7 0) None [] [])
   = Ok (tt, set_blk Key [] (Mem (rec4 7 0) None [] []))) /\
  (2 <= 1 -> 4 mod 8 <> 0 ->
   insertion_sort key_compar (Ptr Base 0) 1 4 (Mem (rec4 7 0) None [] [])
   = Err AssertFail).
Proof.
  apply (insertion_sort_edges key_compar (Ptr Base 0) 1 4 (Mem (rec4 7 0) None [] [])).
  lia.
Defined.


(** ** The merge sort on a range *)

(** X3: [p_merge_sort] on the records [l .. r] of a buffer, with a scratch
    buffer of the same shape and a record size that is a multiple of 8: it
    returns with the records of the range in non-decreasing order and
    those that compare equal in the order they had; the records of the
    buffer outside the range, and those of the scratch buffer outside the
    range, are as they were. *)
Theorem p_merge_sort_sorts_range compar size grain fuel
    pre X post tpre tmid tpost key pv :
  total_order compar ->
  0 < size -> size mod 8 = 0 ->
  (1 <= length X <= fuel)%nat ->
  length tpre = length pre -> length tmid = length X ->
  uniform size (pre ++ X ++ post) ->
  Z.of_nat (length (pre ++ X ++ post)) * size < 2 ^ 63 ->
  uniform size (tpre ++ tmid ++ tpost) ->
  Z.of_nat (length (tpre ++ tmid ++ tpost)) * size < 2 ^ 63 ->
  exists out tmid' key',
    p_merge_sort compar fuel (eptr size Base 0) (eptr size Temp 0)
      (Z.of_nat (length X)) size
      (Z.of_nat (length pre)) (Z.of_nat (length pre + length X) - 1) grain
      (cm (AState (pre ++ X ++ post) (Some (tpre ++ tmid ++ tpost)) key pv))
    = Ok (tt, cm (AState (pre ++ out ++ post) (Some (tpre ++ tmid' ++ tpost)) key' pv)) /\
    length tmid' = length X /\
    out ≡ₚ X /\ StronglySorted (cle compar) out /\ stable compar X out.
Proof.
  intros Hto Hs Hmod Hlen Hpre Hmid Hu Hb Hut Hbt.
  destruct (p_merge_sort_spec compar size grain Hs Hmod fuel pre X post tpre tmid tpost
              key pv (Z.of_nat (length X)) (Z.of_nat (length pre))
              (Z.of_nat (length pre + length X) - 1))
    as (tmid' & key' & Hl' & _ & Hrun); try done.
  exists (msort compar fuel grain X), tmid', key'.
  split; [done|]. split; [done|].
  split; [apply msort_perm|].
  split; [apply msort_sorted; [done|lia]|apply msort_stable; [done|lia]].
Qed.

Lemma p_merge_sort_sorts_range_witness :
  exists out tmid' key',
    p_merge_sort key_compar 6 (eptr 8 Base 0) (eptr 8 Temp 0)
      (Z.of_nat (length six_records)) 8
      (Z.of_nat (length [rec8 9 0]))
      (Z.of_nat (length [rec8 9 0] + length six_records) - 1) 0
      (cm (AState ([rec8 9 0] ++ six_records ++ [rec8 0 1])
             (Some ([rec8 0 0] ++ replicate 6 (rec8 0 0) ++ [rec8 0 0])) [] []))
    = Ok (tt, cm (AState ([rec8 9 0] ++ out ++ [rec8 0 1])
                    (Some ([rec8 0 0] ++ tmid' ++ [rec8 0 0])) key' [])) /\
    length tmid' = length six_records /\
    out ≡ₚ six_records /\ StronglySorted (cle key_compar) out /\
    stable key_compar six_records out.
Proof.
  apply (p_merge_sort_sorts_range key_compar 8 0 6 [rec8 9 0] six_records [rec8 0 1]
           [rec8 0 0] (replicate 6 (rec8 0 0)) [rec8 0 0] [] []).
  - exact key_compar_total_order.
  - lia.
  - reflexivity.
  - simpl. lia.
  - reflexivity.
  - reflexivity.
  - repeat constructor.
  - simpl. lia.
  - repeat constructor.
  - simpl. lia.
Defined.

(** X4: [p_merge] never loses a record.  Whatever the order inside the two
    halves [l .. m] and [m + 1 .. r], it returns with the records of the
    range rearranged among themselves and the scratch buffer holding, on
    the range, the records as they were before the call; with an empty
    right half ([m = r]) the range is as it was. *)
Theorem p_merge_keeps_records compar size pre L R post tpre tmid tpost key pv :
  0 < size -> size mod 8 = 0 ->
  length tpre = length pre -> length tmid = (length L + length R)%nat ->
  (0 < length L)%nat ->
  uniform size (pre ++ L ++ R ++ post) ->
  Z.of_nat (length (pre ++ L ++ R ++ post)) * size < 2 ^ 63 ->
  uniform size (tpre ++ tmid ++ tpost) ->
  Z.of_nat (length (tpre ++ tmid ++ tpost)) * size < 2 ^ 63 ->
  exists out,
    p_merge compar (eptr size Base 0) (eptr size Temp 0) size
      (Z.of_nat (length pre))
      (Z.of_nat (length pre + length L + length R) - 1)
      (Z.of_nat (length pre + length L) - 1)
      (cm (AState (pre ++ L ++ R ++ post) (Some (tpre ++ tmid ++ tpost)) key pv))
    = Ok (tt, cm (AState (pre ++ out ++ post)
                    (Some (tpre ++ (L ++ R) ++ tpost)) key pv)) /\
    out ≡ₚ L ++ R /\ (R = [] -> out = L).
Proof.
  intros Hs Hmod Hpre Hmid HL Hu Hb Hut Hbt. exists (merge compar L R).
  split; [|split].
  - rewrite <- (app_assoc L R tpost). by apply p_merge_spec.
  - apply merge_perm.
  - intros ->. apply merge_nil_r.
Qed.

Lemma p_merge_keeps_records_witness :
  exists out,
    p_merge key_compar (eptr 8 Base 0) (eptr 8 Temp 0) 8
      (Z.of_nat (length [rec8 0 0]))
      (Z.of_nat (length [rec8 0 0] + length [rec8 5 1; rec8 2 2] + length [rec8 4 3]) - 1)
      (Z.of_nat (length [rec8 0 0] + length [rec8 5 1; rec8 2 2]) - 1)
      (cm (AState ([rec8 0 0] ++ [rec8 5 1; rec8 2 2] ++ [rec8 4 3] ++ [])
             (Some ([rec8 0 0] ++ replicate 3 (rec8 0 0) ++ [])) [] []))
    = Ok (tt, cm (AState ([rec8 0 0] ++ out ++ [])
                    (Some ([rec8 0 0] ++ ([rec8 5 1; rec8 2 2] ++ [rec8 4 3]) ++ []))
                    [] [])) /\
    out ≡ₚ [rec8 5 1; rec8 2 2] ++ [rec8 4 3] /\ ([rec8 4 3] = [] -> out = [rec8 5 1; rec8 2 2]).
Proof.
  apply (p_merge_keeps_records key_compar 8 [rec8 0 0] [rec8 5 1; rec8 2 2] [rec8 4 3] []
           [rec8 0 0] (replicate 3 (rec8 0 0)) [] [] []).
  - lia.
  - reflexivity.
  - reflexivity.
  - reflexivity.
  - simpl. lia.
  - repeat constructor.
  - simpl. lia.
  - repeat constructor.
  - simpl. lia.
Defined.


(** ** The quick sort on records of 8 bytes *)

(** [p_quick_sort] hands [nelem] on to its recursive calls and reads it
    nowhere. *)
Lemma p_quick_sort_nelem compar fuel base nelem nelem' size left right grain m :
  p_quick_sort compar fuel base nelem size left right grain m
  = p_quick_sort compar fuel base nelem' size left right grain m.
Proof. by destruct fuel. Qed.

(** X5: [p_quick_sort] on the records [left .. right] of a buffer of
    8-byte records: it returns with the records of the range in
    non-decreasing order, a rearrangement of those it found, and the
    records outside the range as they were.  Its parameter [nelem] plays
    no part: the memory on return is the same for every [nelem]. *)
Theorem p_quick_sort_sorts_range compar grain fuel pre X post ts key pv :
  total_order compar ->
  uniform 8 (pre ++ X ++ post) ->
  Z.of_nat (length (pre ++ X ++ post)) * 8 < 2 ^ 63 ->
  (1 <= length X)%nat -> (length X + 1 <= fuel)%nat ->
  exists out pv',
    out ≡ₚ X /\ StronglySorted (cle compar) out /\
    forall nelem,
      p_quick_sort compar fuel (eptr 8 Base 0) nelem 8
        (Z.of_nat (length pre)) (Z.of_nat (length pre + length X) - 1) grain
        (cm (AState (pre ++ X ++ post) ts key pv))
      = Ok (tt, cm (AState (pre ++ out ++ post) ts key pv')).
Proof.
  intros Hto Hu Hb HX Hf.
  destruct (p_quick_sort_spec compar Hto grain fuel pre X post ts key pv 0
              (Z.of_nat (length pre)) (Z.of_nat (length pre + length X) - 1))
    as (out & pv' & Hperm & Hsort & Hrun); try done.
  exists out, pv'. split; [done|]. split; [done|].
  intros nelem. by rewrite (p_quick_sort_nelem compar fuel _ nelem 0).
Qed.

Lemma p_quick_sort_sorts_range_witness :
  exists out pv',
    out ≡ₚ six_records /\ StronglySorted (cle key_compar) out /\
    forall nelem,
      p_quick_sort key_compar 7 (eptr 8 Base 0) nelem 8
        (Z.of_nat (length [rec8 9 0]))
        (Z.of_nat (length [rec8 9 0] + length six_records) - 1) 0
        (cm (AState ([rec8 9 0] ++ six_records ++ [rec8 0 1]) None [] []))
      = Ok (tt, cm (AState ([rec8 9 0] ++ out ++ [rec8 0 1]) None [] pv')).
Proof.
  apply (p_quick_sort_sorts_range key_compar 0 7 [rec8 9 0] six_records [rec8 0 1]
           None [] []).
  - exact key_compar_total_order.
  - repeat constructor.
  - simpl. lia.
  - simpl. lia.
  - simpl. lia.
Defined.

(** X6: the partition of [p_quick_sort] on the records [left .. right] of
    a buffer of 8-byte records.  The pivot is a copy of one of the records
    of the buffer; the loop ends with the cursors crossed, [j < i], inside
    [left - 1 .. right + 1]; the records from [left] to [j] are not above
    the pivot and those from [i] to [right] are not below it; the records
    of the range are rearranged among themselves and the others are as
    they were. *)
Theorem quick_partition_splits_range compar (left right : nat) es ts key pv0 fuel :
  total_order compar ->
  uniform 8 es -> Z.of_nat (length es) * 8 < 2 ^ 63 ->
  (left <= right < length es)%nat -> (right - left + 2 <= fuel)%nat ->
  exists es' pv' (i j : Z),
    quick_partition compar fuel (eptr 8 Base 0) 8 (Z.of_nat left) (Z.of_nat right)
      (cm (AState es ts key pv0))
    = Ok ((i, j), cm (AState es' ts key pv')) /\
    j < i /\ Z.of_nat left <= i /\ j <= Z.of_nat right /\
    es' ≡ₚ es /\
    (forall k : nat, (k < left \/ right < k)%nat -> es' !! k = es !! k) /\
    pv' ∈ es /\
    (forall (k : nat) x, Z.of_nat left <= Z.of_nat k <= j -> es' !! k = Some x ->
       compar x pv' <= 0) /\
    (forall (k : nat) x, i <= Z.of_nat k <= Z.of_nat right -> es' !! k = Some x ->
       0 <= compar x pv').
Proof.
  intros Hto Hu Hb Hlr Hf.
  destruct (quick_partition_spec compar Hto left right es ts key pv0 fuel Hu Hb Hlr Hf)
    as (es' & pv' & i & j & Hrun & Hji & Hi & Hj & [Hperm Hout] & Hpv & Hle & Hge).
  exists es', pv', i, j.
  split; [done|]. split; [done|]. split; [done|]. split; [done|].
  split; [done|]. split; [done|]. split; [done|]. split.
  - intros k x Hk. apply Hle. lia.
  - intros k x Hk. apply Hge. lia.
Qed.

Lemma quick_partition_splits_range_witness :
  exists es' pv' (i j : Z),
    quick_partition key_compar 7 (eptr 8 Base 0) 8 (Z.of_nat 0) (Z.of_nat 5)
      (cm (AState six_records None [] []))
    = Ok ((i, j), cm (AState es' None [] pv')) /\
    j < i /\ Z.of_nat 0 <= i /\ j <= Z.of_nat 5 /\
    es' ≡ₚ six_records /\
    (forall k : nat, (k < 0 \/ 5 < k)%nat -> es' !! k = six_records !! k) /\
    pv' ∈ six_records /\
    (forall (k : nat) x, Z.of_nat 0 <= Z.of_nat k <= j -> es' !! k = Some x ->
       key_compar x pv' <= 0) /\
    (forall (k : nat) x, i <= Z.of_nat k <= Z.of_nat 5 -> es' !! k = Some x ->
       0 <= key_compar x pv').
Proof.
  apply (quick_partition_splits_range key_compar 0 5 six_records None [] [] 7).
  - exact key_compar_total_order.
  - repeat constructor.
  - simpl. lia.
  - simpl. lia.
  - lia.
Defined.


(** ** The copy and the exchange of records *)

(** X7: [my_memcpy] of [n] bytes, [n] a multiple of 8, between two regions
    that lie inside their blocks and do not overlap: it returns with the
    [n] bytes of the source in the destination, the source as it was, and
    every other byte of the memory as the plain store of these bytes
    leaves it. *)
Theorem my_memcpy_copies to from n m bs m' :
  0 <= n -> n mod 8 = 0 ->
  p_off to + n < 2 ^ 64 -> p_off from + n < 2 ^ 64 ->
  load from n m = Ok (bs, m) ->
  store to bs m = Ok (tt, m') ->
  p_blk to <> p_blk from \/ p_off to + n <= p_off from \/ p_off from + n <= p_off to ->
  my_memcpy to from n m = Ok (tt, m') /\
  load to n m' = Ok (bs, m') /\
  load from n m' = Ok (bs, m').
Proof.
  intros Hn Hmod Hto Hfrom Hload Hstore Hdisj.
  assert (Z.of_nat (length bs) = n) as Hlen.
  { apply load_Ok in Hload as (_ & buf & _ & Hr).
    apply read_bytes_Some in Hr as (? & ? & ? & ->).
    rewrite length_take, length_drop. lia. }
  split; [by eapply my_memcpy_ok|]. split.
  - rewrite <- Hlen. by eapply load_store_same.
  - eapply load_store_other; [exact Hstore|exact Hload|]. rewrite Hlen.
    destruct Hdisj as [?|[?|?]]; [by left|right; by right|right; by left].
Qed.

Lemma my_memcpy_copies_witness :
  my_memcpy (Ptr Base 8) (Ptr Base 0) 8 (Mem (rec8 7 1 ++ rec8 0 0) None [] [])
  = Ok (tt, Mem (rec8 7 1 ++ rec8 7 1) None [] []) /\
  load (Ptr Base 8) 8 (Mem (rec8 7 1 ++ rec8 7 1) None [] [])
  = Ok (rec8 7 1, Mem (rec8 7 1 ++ rec8 7 1) None [] []) /\
  load (Ptr Base 0) 8 (Mem (rec8 7 1 ++ rec8 7 1) None [] [])
  = Ok (rec8 7 1, Mem (rec8 7 1 ++ rec8 7 1) None [] []).
Proof.
  apply (my_memcpy_copies (Ptr Base 8) (Ptr Base 0) 8
           (Mem (rec8 7 1 ++ rec8 0 0) None [] []) (rec8 7 1)
           (Mem (rec8 7 1 ++ rec8 7 1) None [] [])).
  - lia.
  - reflexivity.
  - simpl. lia.
  - simpl. lia.
  - reflexivity.
  - reflexivity.
  - right. right. simpl. lia.
Defined.

(** X8: on records of 8 bytes [swap] exchanges the records at two indices
    of the buffer, so that a second call with the same pointers restores
    the memory, and a call with twice the same pointer changes nothing. *)
Theorem swap_twice_restores es ts key pv (i j : nat) :
  uniform 8 es -> Z.of_nat (length es) * 8 < 2 ^ 63 ->
  (i < length es)%nat -> (j < length es)%nat ->
  (swap (eptr 8 Base i) (eptr 8 Base j) 8 ;;;
   swap (eptr 8 Base i) (eptr 8 Base j) 8) (cm (AState es ts key pv))
  = Ok (tt, cm (AState es ts key pv)) /\
  swap (eptr 8 Base i) (eptr 8 Base i) 8 (cm (AState es ts key pv))
  = Ok (tt, cm (AState es ts key pv)).
Proof.
  intros Hu Hb Hi Hj.
  destruct (lookup_lt_is_Some_2 es i Hi) as [x Hx].
  destruct (lookup_lt_is_Some_2 es j Hj) as [y Hy].
  split.
  - unfold bind. rewrite (swap_elem8 es ts key pv i j x y) by done.
    set (es1 := <[j:=x]> (<[i:=y]> es)).
    assert (uniform 8 es1) as Hu1.
    { apply uniform_insert; [apply uniform_insert; [done|]|];
        eapply uniform_lookup; eauto. }
    assert (length es1 = length es) as Hl1 by (unfold es1; by rewrite !length_insert).
    assert (es1 !! j = Some x) as Hj1.
    { unfold es1. apply list_lookup_insert_eq. rewrite length_insert. lia. }
    assert (es1 !! i = Some (if decide (i = j) then x else y)) as Hi1.
    { unfold es1. destruct (decide (i = j)) as [->|Hne]; [done|].
      rewrite list_lookup_insert_ne by done. by apply list_lookup_insert_eq. }
    rewrite (swap_elem8 es1 ts key pv i j _ x Hu1) by (try done; lia).
    do 4 f_equal. apply list_eq. intros k.
    destruct (decide (k = j)) as [->|Hkj].
    + rewrite list_lookup_insert_eq by (rewrite length_insert; lia).
      destruct (decide (i = j)) as [->|Hne]; [|done]. by simplify_eq.
    + rewrite list_lookup_insert_ne by done.
      destruct (decide (k = i)) as [->|Hki].
      * rewrite list_lookup_insert_eq by lia. done.
      * rewrite list_lookup_insert_ne by done. unfold es1.
        by rewrite !list_lookup_insert_ne.
  - rewrite (swap_elem8 es ts key pv i i x x) by done.
    do 4 f_equal.
    rewrite list_insert_insert_eq. by apply list_insert_id.
Qed.

Lemma swap_twice_restores_witness :
  (swap (eptr 8 Base 0) (eptr 8 Base 2) 8 ;;;
   swap (eptr 8 Base 0) (eptr 8 Base 2) 8)
    (cm (AState [rec8 7 0; rec8 3 1; rec8 5 2] None [] []))
  = Ok (tt, cm (AState [rec8 7 0; rec8 3 1; rec8 5 2] None [] [])) /\
  swap (eptr 8 Base 0) (eptr 8 Base 0) 8
    (cm (AState [rec8 7 0; rec8 3 1; rec8 5 2] None [] []))
  = Ok (tt, cm (AState [rec8 7 0; rec8 3 1; rec8 5 2] None [] [])).
Proof.
  apply (swap_twice_restores [rec8 7 0; rec8 3 1; rec8 5 2] None [] [] 0 2).
  - repeat constructor.
  - simpl. lia.
  - simpl. lia.
  - simpl. lia.
Defined.


(** ** The quick sort of no record *)

(** X9: [emu_sort_local_quick] has no test of the count.  With
    [num = 0] it calls [p_quick_sort] on the range [0 .. num - 1], whose
    right end is [-1] as a [long]: the pointer [hi] wraps to the last
    record of the address space, the middle pointer lands near the
    address [2 ^ 63], and the first comparison of the pivot selection
    reads there.  For every buffer below [2 ^ 62] bytes and every record
    size up to [2 ^ 60] the call ends in that access outside the buffer,
    whatever the comparator. *)
Theorem quick_sort_of_no_record_reads_outside compar fuel size buf :
  0 < size <= 2 ^ 60 -> Z.of_nat (length buf) < 2 ^ 62 -> (1 <= fuel)%nat ->
  run (fun base => emu_sort_local_quick compar fuel base 0 size) buf = Err OutOfRange.
Proof.
  intros Hs Hbuf Hf. destruct fuel as [|fuel]; [lia|].
  unfold run, emu_sort_local_quick.
  change (s64 (0 -! 1)) with (-1).
  rewrite p_quick_sort_S. unfold bind at 1.
  assert (select_pivot compar (Ptr Base 0) size 0 (-1) (Mem buf None [] [])
          = Err OutOfRange) as ->; [|done].
  unfold select_pivot. cbv zeta.
  unfold bind at 1. unfold alloca_pivot at 1. unfold bind at 1.
  set (q := (2 ^ 64 - size) / size).
  pose proof (Z.div_mod (2 ^ 64 - size) size ltac:(lia)) as Hq.
  pose proof (Z.mod_pos_bound (2 ^ 64 - size) size ltac:(lia)) as Hqr.
  fold q in Hq.
  pose proof (Z.div_mod q 2 ltac:(lia)) as Hk.
  pose proof (Z.mod_pos_bound q 2 ltac:(lia)) as Hkr.
  assert (0 <= q) as Hq0 by (apply Z.div_pos; lia).
  assert (0 <= q / 2) as Hk0 by (apply Z.div_pos; lia).
  assert (2 ^ 62 <= size * (q / 2) < 2 ^ 63) as Hmid by nia.
  assert (Ptr Base 0 +> u64 0 *! size = Ptr Base 0) as Hlo by reflexivity.
  assert (Ptr Base 0 +> u64 (-1) *! size = Ptr Base (2 ^ 64 - size)) as Hhi.
  { unfold padd, mul64. simpl p_blk. simpl p_off. f_equal.
    change (u64 (-1)) with (2 ^ 64 - 1). rewrite Z.add_0_l.
    replace (u64 ((2 ^ 64 - 1) * size)) with (2 ^ 64 - size).
    - apply u64_small. lia.
    - unfold u64. apply Z.mod_unique with (q := size - 1); lia. }
  rewrite Hlo, Hhi. simpl p_off.
  rewrite Z.sub_0_r, (u64_small (2 ^ 64 - size)) by lia.
  fold q. rewrite Z.shiftr_div_pow2 by lia. change (2 ^ 1) with 2.
  assert (Ptr Base 0 +> size *! (q / 2) = Ptr Base (size * (q / 2))) as ->.
  { unfold padd, mul64. simpl p_blk. simpl p_off. rewrite Z.add_0_l.
    by rewrite !(u64_small (size * (q / 2))) by lia. }
  unfold call_compar. unfold bind at 1. unfold bind at 1.
  unfold load at 1. simpl get_blk. unfold read_bytes, in_range. simpl p_off.
  destruct (size * (q / 2) + size <=? Z.of_nat (length buf)) eqn:Hr;
    [apply Z.leb_le in Hr; lia|].
  by rewrite andb_false_r.
Qed.

Lemma quick_sort_of_no_record_reads_outside_witness :
  run (fun base => emu_sort_local_quick key_compar 3 base 0 8) (concat six_records)
  = Err OutOfRange.
Proof.
  apply (quick_sort_of_no_record_reads_outside key_compar 3 8 (concat six_records)).
  - lia.
  - simpl. lia.
  - lia.
Defined.


(** ** The leaves of the bitonic sort *)

Lemma StronglySorted_reverse_flip {A} (R : relation A) l :
  StronglySorted R l -> StronglySorted (flip R) (reverse l).
Proof.
  induction 1 as [|x l Hl IH Hx]; [constructor|].
  rewrite reverse_cons. apply StronglySorted_app. split; [|split; [done|]].
  - intros y z Hy Hz. apply list_elem_of_singleton in Hz. subst z.
    rewrite elem_of_reverse in Hy. rewrite Forall_forall in Hx. unfold flip. by apply Hx.
  - repeat constructor.
Qed.

Section BitonicLeaf.

Variable compar : elem -> elem -> Z.
Variable libc_qsort : (elem -> elem -> Z) -> list elem -> list elem.

(** The reversal loop exchanges the two ends of what is left between its
    cursors. *)
Lemma reverse_loop_spec pre post ts key pv : forall fuel A Mid B,
  uniform 8 (pre ++ A ++ Mid ++ B ++ post) ->
  Z.of_nat (length (pre ++ A ++ Mid ++ B ++ post)) * 8 < 2 ^ 63 ->
  (1 <= length A + length Mid)%nat ->
  (length Mid < 2 * fuel)%nat ->
  reverse_loop fuel (eptr 8 Base 0) (Z.of_nat (length pre)) 8
    (Z.of_nat (length A)) (Z.of_nat (length A + length Mid) - 1)
    (cm (AState (pre ++ A ++ Mid ++ B ++ post) ts key pv))
  = Ok (tt, cm (AState (pre ++ A ++ reverse Mid ++ B ++ post) ts key pv)).
Proof.
  induction fuel as [|fuel IH]; intros A Mid B Hu Hb Hne Hf; [lia|].
  cbn [reverse_loop].
  destruct (Z.of_nat (length A) <? Z.of_nat (length A + length Mid) - 1) eqn:Hij.
  2: { apply Z.ltb_ge in Hij.
       destruct Mid as [|x [|y Mid]]; [done|done|simpl in Hij; lia]. }
  apply Z.ltb_lt in Hij.
  destruct Mid as [|x M']; [simpl in Hij; lia|].
  destruct (exists_last (l := M')) as (M & y & ->).
  { intros ->. simpl in Hij. lia. }
  pose proof Hb as Hb'. lin Hb'.
  assert (Z.of_nat (length pre + (length A + (S (length M + 1) + (length B + length post))))
          < 2 ^ 60) as HN by lia.
  set (i := (length pre + length A)%nat).
  set (j := (length pre + length A + length M + 1)%nat).
  assert (eptr 8 Base 0 +> (Z.of_nat (length A) +! Z.of_nat (length pre)) *! 8
          = eptr 8 Base i) as ->.
  { apply eptr_add; [lia|unfold mul64; apply u64_range|unwrap; unfold i; lia|unfold i; lia]. }
  assert (eptr 8 Base 0 +>
            (Z.of_nat (length A + length (x :: M ++ [y])) - 1 +! Z.of_nat (length pre)) *! 8
          = eptr 8 Base j) as ->.
  { lens. apply eptr_add; [lia|unfold mul64; apply u64_range|unwrap; unfold j; lia|
                           unfold j; lia]. }
  assert (pre ++ A ++ (x :: M ++ [y]) ++ B ++ post
          = (pre ++ A) ++ x :: M ++ y :: B ++ post) as Hshape.
  { rewrite <- ?app_assoc. simpl. by rewrite <- ?app_assoc. }
  assert ((pre ++ A ++ (x :: M ++ [y]) ++ B ++ post) !! i = Some x) as Hx.
  { rewrite Hshape. rewrite lookup_app_r by (unfold i; len).
    replace (i - length (pre ++ A))%nat with 0%nat by (unfold i; len). done. }
  assert ((pre ++ A ++ (x :: M ++ [y]) ++ B ++ post) !! j = Some y) as Hy.
  { rewrite Hshape. rewrite lookup_app_r by (unfold j; len).
    replace (j - length (pre ++ A))%nat with (S (length M)) by (unfold j; len).
    simpl. rewrite lookup_app_r by lia. by rewrite Nat.sub_diag. }
  unfold bind.
  rewrite (swap_elem8 _ ts key pv i j x y Hu Hb Hx Hy).
  assert (<[j:=x]> (<[i:=y]> (pre ++ A ++ (x :: M ++ [y]) ++ B ++ post))
          = pre ++ (A ++ [y]) ++ M ++ (x :: B) ++ post) as ->.
  { rewrite Hshape.
    rewrite (insert_middle (pre ++ A) _ i y x) by (unfold i; len).
    replace ((pre ++ A) ++ y :: M ++ y :: B ++ post)
      with (((pre ++ A) ++ y :: M) ++ y :: B ++ post) by (by rewrite <- !app_assoc).
    rewrite (insert_middle _ _ j x y) by (unfold j; len).
    rewrite <- ?app_assoc. simpl. by rewrite <- ?app_assoc. }
  replace (Z.of_nat (length A) +! 1) with (Z.of_nat (length (A ++ [y])))
    by (lens; unwrap; lia).
  replace (Z.of_nat (length A + length (x :: M ++ [y])) - 1 -! 1)
    with (Z.of_nat (length (A ++ [y]) + length M) - 1) by (lens; unwrap; lia).
  rewrite IH.
  - do 4 f_equal. rewrite reverse_cons, reverse_app. simpl.
    rewrite <- ?app_assoc. simpl. by rewrite <- ?app_assoc.
  - unfold uniform in *. rewrite Hshape in Hu.
    assert (pre ++ (A ++ [y]) ++ M ++ (x :: B) ++ post
            ≡ₚ (pre ++ A) ++ x :: M ++ y :: B ++ post) as ->; [|done].
    rewrite <- !app_assoc. simpl. apply Permutation_app_head, Permutation_app_head.
    rewrite <- !Permutation_middle. apply perm_swap.
  - lens. lia.
  - len.
  - lin Hf. lia.
Qed.

Lemma sort_leaf_spec (asec : bool) pre X post ts key pv :
  uniform 8 (pre ++ X ++ post) ->
  Z.of_nat (length (pre ++ X ++ post)) * 8 < 2 ^ 63 ->
  (1 <= length X)%nat ->
  libc_qsort compar X ≡ₚ X ->
  sort_leaf compar libc_qsort (eptr 8 Base 0) (Z.of_nat (length pre))
    (Z.of_nat (length X)) asec 8
    (cm (AState (pre ++ X ++ post) ts key pv))
  = Ok (tt, cm (AState (pre ++ (if asec then libc_qsort compar X
                                else reverse (libc_qsort compar X)) ++ post)
                  ts key pv)).
Proof.
  intros Hu Hb HX Hperm. pose proof Hb as Hb'. lin Hb'.
  pose proof (Permutation_length Hperm) as Hlq.
  unfold sort_leaf.
  assert (eptr 8 Base 0 +> 8 *! Z.of_nat (length pre) = eptr 8 Base (length pre)) as ->.
  { apply eptr_add; [lia|unfold mul64; apply u64_range|unwrap; lia|lia]. }
  unfold bind. rewrite qsort_spec by (done || lia).
  destruct asec; simpl negb; cbv iota; [done|].
  replace (Z.of_nat (length X) -! 1)
    with (Z.of_nat (length (@nil (list Z)) + length (libc_qsort compar X)) - 1)
    by (simpl; unwrap; lia).
  rewrite Nat2Z.id.
  pose proof (reverse_loop_spec pre post ts key pv (length X) []
                (libc_qsort compar X) []) as Hrev.
  simpl app in Hrev. simpl length in *. apply Hrev.
  - unfold uniform in *. by rewrite Hperm.
  - lens. lia.
  - lia.
  - lia.
Qed.


End BitonicLeaf.

(** X10: a range of 8-byte records at or below the grain is a leaf of the
    bitonic sort.  Both [p_bitonic_sort] and [p_bitonic_merge] hand it to
    the platform's [qsort] and, for the descending direction, reverse
    what comes back: the range ends in non-decreasing order for
    [asec = true] and in non-increasing order for [asec = false], a
    rearrangement of its records, with the records outside it as they
    were. *)
Theorem bitonic_leaf_sorts_in_direction compar libc_qsort fuel grain (asec : bool)
    pre X post ts key pv :
  (forall l, libc_qsort compar l ≡ₚ l /\ StronglySorted (cle compar) (libc_qsort compar l)) ->
  uniform 8 (pre ++ X ++ post) ->
  Z.of_nat (length (pre ++ X ++ post)) * 8 < 2 ^ 63 ->
  (2 <= length X)%nat -> Z.of_nat (length X) <= grain ->
  exists out,
    p_bitonic_sort compar libc_qsort (S fuel) (eptr 8 Base 0)
      (Z.of_nat (length pre)) (Z.of_nat (length X)) asec 8 grain
      (cm (AState (pre ++ X ++ post) ts key pv))
    = Ok (tt, cm (AState (pre ++ out ++ post) ts key pv)) /\
    p_bitonic_merge compar libc_qsort (S fuel) (eptr 8 Base 0)
      (Z.of_nat (length pre)) (Z.of_nat (length X)) asec 8 grain
      (cm (AState (pre ++ X ++ post) ts key pv))
    = Ok (tt, cm (AState (pre ++ out ++ post) ts key pv)) /\
    out ≡ₚ X /\
    (if asec then StronglySorted (cle compar) out
     else StronglySorted (flip (cle compar)) out).
Proof.
  intros Hlibc Hu Hb HX Hg.
  destruct (Hlibc X) as [Hperm Hsort].
  exists (if asec then libc_qsort compar X else reverse (libc_qsort compar X)).
  assert ((grain <? Z.of_nat (length X)) = false) as Hgr by (apply Z.ltb_ge; lia).
  assert ((1 <? Z.of_nat (length X)) = true) as H1 by (apply Z.ltb_lt; lia).
  split; [|split; [|split]].
  - cbn [p_bitonic_sort]. rewrite Hgr, H1. apply sort_leaf_spec; try done. lia.
  - rewrite p_bitonic_merge_S, Hgr, H1. apply sort_leaf_spec; try done. lia.
  - destruct asec; [done|]. by rewrite reverse_Permutation.
  - destruct asec; [done|]. by apply StronglySorted_reverse_flip.
Qed.

Lemma bitonic_leaf_sorts_in_direction_witness :
  exists out,
    p_bitonic_sort key_compar isort 1 (eptr 8 Base 0)
      (Z.of_nat (length [rec8 9 0])) (Z.of_nat (length six_records)) false 8 6
      (cm (AState ([rec8 9 0] ++ six_records ++ [rec8 0 1]) None [] []))
    = Ok (tt, cm (AState ([rec8 9 0] ++ out ++ [rec8 0 1]) None [] [])) /\
    p_bitonic_merge key_compar isort 1 (eptr 8 Base 0)
      (Z.of_nat (length [rec8 9 0])) (Z.of_nat (length six_records)) false 8 6
      (cm (AState ([rec8 9 0] ++ six_records ++ [rec8 0 1]) None [] []))
    = Ok (tt, cm (AState ([rec8 9 0] ++ out ++ [rec8 0 1]) None [] [])) /\
    out ≡ₚ six_records /\
    (if false then StronglySorted (cle key_compar) out
     else StronglySorted (flip (cle key_compar)) out).
Proof.
  apply (bitonic_leaf_sorts_in_direction key_compar isort 0 6 false
           [rec8 9 0] six_records [rec8 0 1] None [] []).
  - intros l. split; [apply isort_perm|apply (isort_sorted _ key_compar_total_order)].
  - repeat constructor.
  - simpl. lia.
  - simpl. lia.
  - simpl. lia.
Defined.


(** ** The entry points below and above 32 records *)

(** X11: below 32 records [emu_sort_local] and [emu_sort_local_bitonic]
    hand the whole call to the platform's [qsort]: no record is copied by
    [my_memcpy], so the record size need not be a multiple of 8, no
    scratch buffer is allocated, and the buffer comes back as [qsort]
    leaves it. *)
Theorem below_32_records_qsort_sorts compar libc_qsort size es :
  0 < size -> uniform size es -> Z.of_nat (length es) * size < 2 ^ 63 ->
  Z.of_nat (length es) < MIN_BITONIC_LENGTH ->
  libc_qsort compar es ≡ₚ es ->
  (forall malloc_ok,
     run (fun base => emu_sort_local compar libc_qsort malloc_ok base
                        (Z.of_nat (length es)) size) (concat es)
     = Ok (concat (libc_qsort compar es))) /\
  run (fun base => emu_sort_local_bitonic compar libc_qsort base
                     (Z.of_nat (length es)) size) (concat es)
  = Ok (concat (libc_qsort compar es)).
Proof.
  intros Hs Hu Hb Hn Hperm. split.
  - intros malloc_ok. by apply emu_sort_local_small.
  - by apply emu_sort_local_bitonic_small.
Qed.

Lemma below_32_records_qsort_sorts_witness :
  (forall malloc_ok,
     run (fun base => emu_sort_local key_compar isort malloc_ok base
                        (Z.of_nat (length [rec4 5 0; rec4 3 1; rec4 4 2])) 4)
       (concat [rec4 5 0; rec4 3 1; rec4 4 2])
     = Ok (concat (isort key_compar [rec4 5 0; rec4 3 1; rec4 4 2]))) /\
  run (fun base => emu_sort_local_bitonic key_compar isort base
                     (Z.of_nat (length [rec4 5 0; rec4 3 1; rec4 4 2])) 4)
    (concat [rec4 5 0; rec4 3 1; rec4 4 2])
  = Ok (concat (isort key_compar [rec4 5 0; rec4 3 1; rec4 4 2])).
Proof.
  apply (below_32_records_qsort_sorts key_compar isort 4 [rec4 5 0; rec4 3 1; rec4 4 2]).
  - lia.
  - repeat constructor.
  - simpl. lia.
  - simpl. unfold MIN_BITONIC_LENGTH. lia.
  - apply isort_perm.
Defined.

(** X12: from 32 records on [emu_sort_local] is the merge sort of
    [emu_sort_local_merge], with the same grain: for a record size that is
    a multiple of 8 the two calls return the same buffer, whatever the
    platform's [qsort] does, and so [emu_sort_local] is stable there: the
    buffer comes back in non-decreasing order with the records that
    compare equal in the order they had. *)
Theorem emu_sort_local_is_the_merge_sort compar libc_qsort size es :
  total_order compar ->
  0 < size -> size mod 8 = 0 -> uniform size es ->
  Z.of_nat (length es) * size < 2 ^ 63 ->
  MIN_BITONIC_LENGTH <= Z.of_nat (length es) ->
  exists out,
    run (fun base => emu_sort_local compar libc_qsort true base
                       (Z.of_nat (length es)) size) (concat es) = Ok (concat out) /\
    run (fun base => emu_sort_local_merge compar true base
                       (Z.of_nat (length es)) size) (concat es) = Ok (concat out) /\
    out ≡ₚ es /\ StronglySorted (cle compar) out /\ stable compar es out.
Proof.
  intros Hto Hs Hmod Hu Hb H32. unfold MIN_BITONIC_LENGTH in H32.
  exists (msort compar (length es) (merge_grain (Z.of_nat (length es))) es).
  split; [|split; [by apply emu_sort_local_merge_run|]].
  - unfold emu_sort_local, run.
    destruct (MIN_BITONIC_LENGTH <=? Z.of_nat (length es)) eqn:Ht;
      [|unfold MIN_BITONIC_LENGTH in Ht; lia].
    destruct (merge_sort_call compar size es [] [] Hs Hmod Hu Hb ltac:(lia))
      as (key' & Hrun).
    change (Mem (concat es) None [] []) with (cm (AState es None [] [])).
    rewrite Nat2Z.id in Hrun. rewrite Nat2Z.id. by rewrite Hrun.
  - split; [apply msort_perm|].
    split; [by apply msort_sorted|by apply msort_stable].
Qed.

Lemma emu_sort_local_is_the_merge_sort_witness :
  exists out,
    run (fun base => emu_sort_local key_compar isort true base
                       (Z.of_nat (length forty_records)) 8) (concat forty_records)
    = Ok (concat out) /\
    run (fun base => emu_sort_local_merge key_compar true base
                       (Z.of_nat (length forty_records)) 8) (concat forty_records)
    = Ok (concat out) /\
    out ≡ₚ forty_records /\ StronglySorted (cle key_compar) out /\
    stable key_compar forty_records out.
Proof.
  apply (emu_sort_local_is_the_merge_sort key_compar isort 8 forty_records).
  - exact key_compar_total_order.
  - lia.
  - reflexivity.
  - repeat constructor.
  - simpl. lia.
  - simpl. unfold MIN_BITONIC_LENGTH. lia.
Defined.


(** ** The bitonic sort keeps the records *)

Section BitonicPerm.

Variable compar : elem -> elem -> Z.
Variable libc_qsort : (elem -> elem -> Z) -> list elem -> list elem.
Hypothesis Hlibc : forall l, libc_qsort compar l ≡ₚ l.

Lemma p_bitonic_leaf_perm (asec : bool) pre X post ts key pv :
  uniform 8 (pre ++ X ++ post) ->
  Z.of_nat (length (pre ++ X ++ post)) * 8 < 2 ^ 63 ->
  exists out, out ≡ₚ X /\
    (if 1 <? Z.of_nat (length X)
     then sort_leaf compar libc_qsort (eptr 8 Base 0) (Z.of_nat (length pre))
            (Z.of_nat (length X)) asec 8
     else ret tt) (cm (AState (pre ++ X ++ post) ts key pv))
    = Ok (tt, cm (AState (pre ++ out ++ post) ts key pv)).
Proof.
  intros Hu Hb. destruct (1 <? Z.of_nat (length X)) eqn:H1.
  - apply Z.ltb_lt in H1.
    exists (if asec then libc_qsort compar X else reverse (libc_qsort compar X)).
    split; [|apply sort_leaf_spec; try done; lia].
    destruct asec; [done|]. by rewrite reverse_Permutation.
  - by exists X.
Qed.

Lemma p_bitonic_merge_perm ts key pv grain :
  1 <= grain ->
  forall fuel (asec : bool) pre X post,
  uniform 8 (pre ++ X ++ post) ->
  Z.of_nat (length (pre ++ X ++ post)) * 8 < 2 ^ 63 ->
  (1 <= fuel)%nat -> (length X <= fuel)%nat ->
  exists out, out ≡ₚ X /\
    p_bitonic_merge compar libc_qsort fuel (eptr 8 Base 0)
      (Z.of_nat (length pre)) (Z.of_nat (length X)) asec 8 grain
      (cm (AState (pre ++ X ++ post) ts key pv))
    = Ok (tt, cm (AState (pre ++ out ++ post) ts key pv)).
Proof.
  intros Hgrain. induction fuel as [|fuel IH];
    intros asec pre X post Hu Hb Hf1 Hf; [lia|].
  destruct (grain <? Z.of_nat (length X)) eqn:Hg.
  2: { rewrite p_bitonic_merge_S, Hg. by apply p_bitonic_leaf_perm. }
  apply Z.ltb_lt in Hg. pose proof Hb as Hb'. lin Hb'.
  destruct (p_bitonic_merge_split compar libc_qsort fuel asec grain
              (length pre) (length X) (pre ++ X ++ post) ts key pv)
    as (m & Hm & Hmn & Hrun); [lia|done|done|done|len|].
  rewrite Hrun. clear Hrun.
  destruct (exchange_pass_spec compar asec m (length X - m) (length pre)
              (pre ++ X ++ post)) as (Hperm & _ & Hrest); [lia|len|].
  destruct (frame_split pre X post
              (exchange_pass compar asec m (length X - m) (length pre) (pre ++ X ++ post)))
    as (X1 & -> & HX1); [lia| |].
  { split; [done|]. intros k Hk. apply Hrest; lia. }
  pose proof (Permutation_length HX1) as HlX1.
  assert (uniform 8 (pre ++ X1 ++ post)) as Hu1 by (unfold uniform in *; by rewrite HX1).
  rewrite <- (take_drop m X1) in Hu1, HX1 |- *.
  remember (take m X1) as L eqn:HL. remember (drop m X1) as R eqn:HR.
  assert (length L = m) as HlL by (subst L; rewrite length_take; lia).
  assert (length R = (length X - m)%nat) as HlR by (subst R; rewrite length_drop; lia).
  clear HL HR. rewrite <- !app_assoc in *.
  destruct (IH asec pre L (R ++ post)) as (out1 & Hp1 & Hrun1); [done|len|lia|lia|].
  pose proof (Permutation_length Hp1) as Hl1.
  rewrite HlL in Hrun1. unfold bind at 1. rewrite Hrun1.
  destruct (IH asec (pre ++ out1) R post) as (out2 & Hp2 & Hrun2).
  { unfold uniform in *. rewrite <- app_assoc. by rewrite Hp1. }
  { lens. lia. }
  { lia. }
  { lia. }
  rewrite <- !app_assoc in Hrun2.
  replace (Z.of_nat (length (pre ++ out1))) with (Z.of_nat (length pre + m)) in Hrun2 by len.
  rewrite HlR in Hrun2. rewrite Hrun2.
  exists (out1 ++ out2). split; [|by rewrite <- !app_assoc].
  by rewrite Hp1, Hp2.
Qed.

Lemma p_bitonic_sort_perm ts key pv grain :
  1 <= grain ->
  forall fuel (asec : bool) pre X post,
  uniform 8 (pre ++ X ++ post) ->
  Z.of_nat (length (pre ++ X ++ post)) * 8 < 2 ^ 63 ->
  (1 <= fuel)%nat -> (length X <= fuel)%nat ->
  exists out, out ≡ₚ X /\
    p_bitonic_sort compar libc_qsort fuel (eptr 8 Base 0)
      (Z.of_nat (length pre)) (Z.of_nat (length X)) asec 8 grain
      (cm (AState (pre ++ X ++ post) ts key pv))
    = Ok (tt, cm (AState (pre ++ out ++ post) ts key pv)).
Proof.
  intros Hgrain. induction fuel as [|fuel IH];
    intros asec pre X post Hu Hb Hf1 Hf; [lia|].
  cbn [p_bitonic_sort].
  destruct (grain <? Z.of_nat (length X)) eqn:Hg.
  2: { by apply p_bitonic_leaf_perm. }
  apply Z.ltb_lt in Hg. pose proof Hb as Hb'. lin Hb'. cbv zeta.
  pose proof (Z.div_mod (Z.of_nat (length X)) 2 ltac:(lia)) as Hdm.
  pose proof (Z.mod_pos_bound (Z.of_nat (length X)) 2 ltac:(lia)) as Hmb.
  set (m := Z.to_nat (Z.of_nat (length X) / 2)).
  assert (1 <= m < length X)%nat as Hm by (unfold m; lia).
  replace (Z.of_nat (length X) / 2) with (Z.of_nat m) by (unfold m; lia).
  clearbody m. clear Hdm Hmb.
  replace (Z.of_nat (length X) -! Z.of_nat m) with (Z.of_nat (length X - m))
    by (unwrap; lia).
  replace (Z.of_nat (length pre) +! Z.of_nat m) with (Z.of_nat (length pre + m))
    by (unwrap; lia).
  assert (length X = length (take m X ++ drop m X)) as HlX by (by rewrite take_drop).
  rewrite <- (take_drop m X) in Hu.
  assert (forall st, st = cm (AState (pre ++ X ++ post) ts key pv) ->
            st = cm (AState (pre ++ (take m X ++ drop m X) ++ post) ts key pv)) as Hst
    by (intros st ->; by rewrite take_drop).
  rewrite (Hst _ eq_refl). clear Hst.
  assert (exists out, out ≡ₚ take m X ++ drop m X /\ length out = length X /\
            (p_bitonic_sort compar libc_qsort fuel (eptr 8 Base 0)
               (Z.of_nat (length pre)) (Z.of_nat m) asec 8 grain ;;;
             p_bitonic_sort compar libc_qsort fuel (eptr 8 Base 0)
               (Z.of_nat (length pre + m)) (Z.of_nat (length X - m)) (negb asec) 8 grain)
              (cm (AState (pre ++ (take m X ++ drop m X) ++ post) ts key pv))
            = Ok (tt, cm (AState (pre ++ out ++ post) ts key pv)))
    as (out & Hpo & Hlo & Hrun).
  { remember (take m X) as L eqn:HL. remember (drop m X) as R eqn:HR.
    assert (length L = m) as HlL by (subst L; rewrite length_take; lia).
    assert (length R = (length X - m)%nat) as HlR by (subst R; by rewrite length_drop).
    clear HL HR. rewrite <- !app_assoc in *.
    destruct (IH asec pre L (R ++ post)) as (out1 & Hp1 & Hrun1); [done|len|lia|lia|].
    pose proof (Permutation_length Hp1) as Hl1.
    rewrite HlL in Hrun1. unfold bind at 1. rewrite Hrun1.
    destruct (IH (negb asec) (pre ++ out1) R post) as (out2 & Hp2 & Hrun2).
    { unfold uniform in *. rewrite <- app_assoc. by rewrite Hp1. }
    { lens. lia. }
    { lia. }
    { lia. }
    rewrite <- !app_assoc in Hrun2.
    replace (Z.of_nat (length (pre ++ out1))) with (Z.of_nat (length pre + m))
      in Hrun2 by len.
    rewrite HlR in Hrun2. rewrite Hrun2.
    pose proof (Permutation_length Hp2) as Hl2.
    exists (out1 ++ out2). split; [by rewrite Hp1, Hp2|].
    split; [len|by rewrite <- !app_assoc]. }
  unfold bind at 1. unfold bind at 1 in Hrun.
  destruct (p_bitonic_sort compar libc_qsort fuel (eptr 8 Base 0)
              (Z.of_nat (length pre)) (Z.of_nat m) asec 8 grain
              (cm (AState (pre ++ (take m X ++ drop m X) ++ post) ts key pv)))
    as [[[] m1]| |] eqn:H1; try done.
  unfold bind at 1. rewrite Hrun.
  rewrite take_drop in Hpo.
  destruct (p_bitonic_merge_perm ts key pv grain Hgrain (length X) asec pre out post)
    as (out' & Hp' & Hrun'); [| |lia|lia|].
  { unfold uniform in *. rewrite Hpo. by rewrite take_drop in Hu. }
  { lens. lia. }
  rewrite Nat2Z.id. rewrite Hlo in Hrun'. rewrite Hrun'.
  exists out'. split; [by rewrite Hp'|done].
Qed.

Lemma emu_sort_local_bitonic_perm es :
  uniform 8 es -> Z.of_nat (length es) * 8 < 2 ^ 63 ->
  exists out,
    run (fun base => emu_sort_local_bitonic compar libc_qsort base
                       (Z.of_nat (length es)) 8) (concat es) = Ok (concat out) /\
    out ≡ₚ es.
Proof.
  intros Hu Hb. destruct (Z_lt_le_dec (Z.of_nat (length es)) MIN_BITONIC_LENGTH) as [Hs|Hl].
  - exists (libc_qsort compar es). split; [|done].
    by apply emu_sort_local_bitonic_small.
  - unfold MIN_BITONIC_LENGTH in Hl. unfold emu_sort_local_bitonic, run.
    destruct (MIN_BITONIC_LENGTH <=? Z.of_nat (length es)) eqn:Ht;
      [|unfold MIN_BITONIC_LENGTH in Ht; lia].
    assert (1 <= BITONIC_GRAIN (Z.of_nat (length es))) as Hgrain.
    { unfold BITONIC_GRAIN. rewrite Z.shiftr_div_pow2 by lia. change (2 ^ 5) with 32.
      apply Z.div_le_lower_bound; lia. }
    destruct (p_bitonic_sort_perm None [] [] _ Hgrain (length es) true [] es [])
      as (out & Hp & Hrun).
    { by rewrite app_nil_r. }
    { simpl. by rewrite app_nil_r. }
    { lia. }
    { lia. }
    simpl in Hrun. rewrite app_nil_r in Hrun. change (Z.of_nat 0) with 0 in Hrun.
    change (Mem (concat es) None [] []) with (cm (AState es None [] [])).
    change (Ptr Base 0) with (eptr 8 Base 0).
    rewrite Nat2Z.id, Hrun. exists out. split; [|done].
    simpl. by rewrite app_nil_r.
Qed.


End BitonicPerm.

(** X13: [emu_sort_local_bitonic] on 8-byte records never loses a record.
    For every count and every comparator (also one that is no order), if
    the platform's [qsort] returns a rearrangement of what it is given,
    the call returns, and the buffer holds a rearrangement of the records
    of the input. *)
Theorem emu_sort_local_bitonic_keeps_records compar libc_qsort es :
  (forall l, libc_qsort compar l ≡ₚ l) ->
  uniform 8 es -> Z.of_nat (length es) * 8 < 2 ^ 63 ->
  exists out,
    run (fun base => emu_sort_local_bitonic compar libc_qsort base
                       (Z.of_nat (length es)) 8) (concat es) = Ok (concat out) /\
    out ≡ₚ es.
Proof. intros Hlibc Hu Hb. by apply emu_sort_local_bitonic_perm. Qed.

Lemma emu_sort_local_bitonic_keeps_records_witness :
  exists out,
    run (fun base => emu_sort_local_bitonic key_compar isort base
                       (Z.of_nat (length forty_records)) 8) (concat forty_records)
    = Ok (concat out) /\
    out ≡ₚ forty_records.
Proof.
  apply (emu_sort_local_bitonic_keeps_records key_compar isort forty_records).
  - intros l. apply isort_perm.
  - repeat constructor.
  - simpl. lia.
Defined.

(** ** The merge sort and its grain *)

Lemma msort_is_isort compar grain fuel X :
  total_order compar -> (length X <= fuel)%nat ->
  msort compar fuel grain X = isort compar X.
Proof.
  intros Hto Hlen. apply (sorted_stable_unique compar Hto).
  - by apply msort_sorted.
  - by apply isort_sorted.
  - intros x. rewrite (msort_stable compar Hto grain fuel X Hlen x).
    symmetry. by apply isort_stable.
Qed.

(** X14: the grain decides where [p_merge_sort] stops halving and where it
    forks, not what it returns.  For every grain the records of the range
    come back in the one order a stable sort can give them, the order in
    which [insertion_sort] alone leaves the same range. *)
Theorem p_merge_sort_result_is_independent_of_the_grain compar size fuel
    pre X post tpre tmid tpost key pv :
  total_order compar ->
  0 < size -> size mod 8 = 0 ->
  (1 <= length X <= fuel)%nat ->
  length tpre = length pre -> length tmid = length X ->
  uniform size (pre ++ X ++ post) ->
  Z.of_nat (length (pre ++ X ++ post)) * size < 2 ^ 63 ->
  uniform size (tpre ++ tmid ++ tpost) ->
  Z.of_nat (length (tpre ++ tmid ++ tpost)) * size < 2 ^ 63 ->
  exists out,
    insertion_sort compar (eptr size Base (length pre)) (Z.of_nat (length X)) size
      (cm (AState (pre ++ X ++ post) (Some (tpre ++ tmid ++ tpost)) key pv))
    = Ok (tt, cm (AState (pre ++ out ++ post) (Some (tpre ++ tmid ++ tpost)) [] pv)) /\
    forall grain, exists tmid' key',
      p_merge_sort compar fuel (eptr size Base 0) (eptr size Temp 0)
        (Z.of_nat (length X)) size
        (Z.of_nat (length pre)) (Z.of_nat (length pre + length X) - 1) grain
        (cm (AState (pre ++ X ++ post) (Some (tpre ++ tmid ++ tpost)) key pv))
      = Ok (tt, cm (AState (pre ++ out ++ post) (Some (tpre ++ tmid' ++ tpost)) key' pv)).
Proof.
  intros Hto Hs Hmod Hlen Hpre Hmid Hu Hb Hut Hbt.
  exists (isort compar X). split; [by apply insertion_sort_spec|].
  intros grain.
  destruct (p_merge_sort_spec compar size grain Hs Hmod fuel pre X post tpre tmid tpost
              key pv (Z.of_nat (length X)) (Z.of_nat (length pre))
              (Z.of_nat (length pre + length X) - 1))
    as (tmid' & key' & _ & _ & Hrun); try done.
  exists tmid', key'. rewrite Hrun. by rewrite msort_is_isort by (done || lia).
Qed.

Lemma p_merge_sort_result_is_independent_of_the_grain_witness :
  exists out,
    insertion_sort key_compar (eptr 8 Base (length [rec8 9 0]))
      (Z.of_nat (length six_records)) 8
      (cm (AState ([rec8 9 0] ++ six_records ++ [rec8 0 1])
             (Some ([rec8 0 0] ++ replicate 6 (rec8 0 0) ++ [rec8 0 0])) [] []))
    = Ok (tt, cm (AState ([rec8 9 0] ++ out ++ [rec8 0 1])
                    (Some ([rec8 0 0] ++ replicate 6 (rec8 0 0) ++ [rec8 0 0])) [] [])) /\
    forall grain, exists tmid' key',
      p_merge_sort key_compar 6 (eptr 8 Base 0) (eptr 8 Temp 0)
        (Z.of_nat (length six_records)) 8
        (Z.of_nat (length [rec8 9 0]))
        (Z.of_nat (length [rec8 9 0] + length six_records) - 1) grain
        (cm (AState ([rec8 9 0] ++ six_records ++ [rec8 0 1])
               (Some ([rec8 0 0] ++ replicate 6 (rec8 0 0) ++ [rec8 0 0])) [] []))
      = Ok (tt, cm (AState ([rec8 9 0] ++ out ++ [rec8 0 1])
                      (Some ([rec8 0 0] ++ tmid' ++ [rec8 0 0])) key' [])).
Proof.
  apply (p_merge_sort_result_is_independent_of_the_grain key_compar 8 6
           [rec8 9 0] six_records [rec8 0 1]
           [rec8 0 0] (replicate 6 (rec8 0 0)) [rec8 0 0] [] []).
  - exact key_compar_total_order.
  - lia.
  - reflexivity.
  - simpl. lia.
  - reflexivity.
  - reflexivity.
  - repeat constructor.
  - simpl. lia.
  - repeat constructor.
  - simpl. lia.
Defined.

(** ** The bitonic sort on a power of two *)

(** The argument is the one of the zero-one principle.  A threshold [t]
    colours every record by whether it is greater than [t]; a list is in
    order when, under every threshold, no [true] stands before a [false].
    The exchanges of [merge_worker] act on the colours as [&&] and [||],
    so that it is enough to follow two-coloured lists through the merge. *)

Lemma above_monotone compar t : total_order compar -> monotone compar (above compar t).
Proof.
  intros Hto x y Hx Hy. unfold above in *.
  apply Z.ltb_ge in Hx. apply Z.ltb_lt in Hy.
  pose proof (compar_antisym _ Hto x y) as Ha.
  destruct (Z_lt_le_dec (compar x y) 0) as [Hlt|Hge]; [lia|].
  assert (compar y x <= 0) as Hyx by lia.
  pose proof (compar_trans _ Hto y x t Hyx Hx). lia.
Qed.

Lemma monotone_cle compar c x y :
  total_order compar -> monotone compar c -> cle compar x y -> c x = true -> c y = true.
Proof.
  intros Hto Hc Hxy Hx. destruct (c y) eqn:Hy; [done|].
  destruct (Hc y x Hy Hx) as [_ H]. unfold cle in Hxy. lia.
Qed.

Lemma sorted_col_sorted compar c asec l :
  total_order compar -> monotone compar c -> sorted_in compar asec l -> col_sorted c asec l.
Proof.
  intros Hto Hc. unfold sorted_in, col_sorted.
  destruct asec; simpl; induction 1 as [|x l Hl IH Hx].
  - exists 0%nat. by intros i x H.
  - destruct IH as [a Ha]. destruct (c x) eqn:Hcx.
    + exists 0%nat. intros [|i] y Hy; simpl in Hy.
      * injection Hy as <-. done.
      * rewrite bool_decide_eq_true_2 by lia.
        apply (monotone_cle compar c x y); try done.
        rewrite Forall_forall in Hx. apply Hx. by eapply list_elem_of_lookup_2.
    + exists (S a). intros [|i] y Hy; simpl in Hy.
      * injection Hy as <-. rewrite bool_decide_eq_false_2 by lia. done.
      * rewrite (Ha i y Hy). simpl. repeat case_bool_decide; (done || lia).
  - exists 0%nat. by intros i x H.
  - destruct IH as [a Ha]. destruct (c x) eqn:Hcx.
    + exists (S a). intros [|i] y Hy; simpl in Hy.
      * injection Hy as <-. rewrite bool_decide_eq_false_2 by lia. done.
      * rewrite (Ha i y Hy). simpl. repeat case_bool_decide; (done || lia).
    + exists 0%nat. intros [|i] y Hy; simpl in Hy.
      * injection Hy as <-. done.
      * rewrite bool_decide_eq_true_2 by lia. simpl.
        destruct (c y) eqn:Hcy; [|done].
        rewrite Forall_forall in Hx.
        assert (flip (cle compar) x y) as Hyx by (apply Hx; by eapply list_elem_of_lookup_2).
        unfold flip in Hyx.
        by rewrite (monotone_cle compar c y x Hto Hc Hyx Hcy) in Hcx.
Qed.

Lemma col_sorted_tail c asec x l : col_sorted c asec (x :: l) -> col_sorted c asec l.
Proof.
  intros [a Ha]. exists (a - 1)%nat. intros i y Hy.
  rewrite (Ha (S i) y Hy). repeat case_bool_decide; (done || lia).
Qed.

Lemma col_sorted_sorted compar asec l :
  total_order compar ->
  (forall t, col_sorted (above compar t) asec l) -> sorted_in compar asec l.
Proof.
  intros Hto. unfold sorted_in. induction l as [|x l IH]; intros Hall.
  { destruct asec; constructor. }
  assert (forall t, col_sorted (above compar t) asec l) as Htl
    by (intros t; eapply col_sorted_tail; apply Hall).
  specialize (IH Htl).
  assert (compar x x <= 0) as Hxx by (pose proof (compar_antisym _ Hto x x); lia).
  destruct asec; constructor; try done; rewrite Forall_forall; intros y Hy;
    apply list_elem_of_lookup_1 in Hy as [j Hj].
  - destruct (Hall y) as [a Ha].
    assert (compar y y <= 0) as Hyy by (pose proof (compar_antisym _ Hto y y); lia).
    pose proof (Ha (S j) y Hj) as H1. pose proof (Ha 0%nat x eq_refl) as H0.
    unfold above in H0, H1. simpl in H0, H1.
    destruct (0 <? compar y y) eqn:E; [apply Z.ltb_lt in E; lia|].
    symmetry in H1. apply bool_decide_eq_false in H1.
    rewrite bool_decide_eq_false_2 in H0 by lia.
    apply Z.ltb_ge in H0. done.
  - destruct (Hall x) as [a Ha].
    pose proof (Ha (S j) y Hj) as H1. pose proof (Ha 0%nat x eq_refl) as H0.
    unfold above in H0, H1. simpl in H0, H1.
    destruct (0 <? compar x x) eqn:E; [apply Z.ltb_lt in E; lia|].
    symmetry in H0. apply negb_false_iff, bool_decide_eq_true in H0.
    rewrite bool_decide_eq_true_2 in H1 by lia. simpl in H1.
    apply Z.ltb_ge in H1. done.
Qed.

(** Decides a goal on [bool_decide]s of linear facts by cases. *)
Ltac bd := simpl; repeat case_bool_decide; first [done | lia].

(** A rising list followed by a falling one, or a falling one followed by
    a rising one, changes colour at most twice. *)
Lemma col_sorted_app_bitonic c asec L R :
  col_sorted c asec L -> col_sorted c (negb asec) R -> col_bitonic c (L ++ R).
Proof.
  intros [a1 H1] [a2 H2].
  exists (negb asec), (a1 `min` length L)%nat, (a2 + length L)%nat.
  intros i x Hx. apply lookup_app_Some in Hx as [Hx|[Hge Hx]].
  - pose proof (lookup_lt_Some _ _ _ Hx). rewrite (H1 i x Hx). bd.
  - rewrite (H2 _ x Hx). destruct asec; bd.
Qed.

(** Two lists in order, of which the first has only the low colour or the
    second only the high one, are in order together. *)
Lemma col_sorted_app c asec L R :
  col_sorted c asec L -> col_sorted c asec R ->
  (forall x, x ∈ L -> c x = negb asec) \/ (forall x, x ∈ R -> c x = asec) ->
  col_sorted c asec (L ++ R).
Proof.
  intros [a1 H1] [a2 H2] [Hl|Hr].
  - exists (length L + a2)%nat. intros i x Hx.
    apply lookup_app_Some in Hx as [Hx|[Hge Hx]].
    + pose proof (lookup_lt_Some _ _ _ Hx).
      rewrite (Hl x) by (by eapply list_elem_of_lookup_2). destruct asec; bd.
    + rewrite (H2 _ x Hx). bd.
  - exists (a1 `min` length L)%nat. intros i x Hx.
    apply lookup_app_Some in Hx as [Hx|[Hge Hx]].
    + pose proof (lookup_lt_Some _ _ _ Hx). rewrite (H1 i x Hx). bd.
    + rewrite (Hr x) by (by eapply list_elem_of_lookup_2). destruct asec; bd.
Qed.

(** The exchange of a pair leaves the lower colour first for [asec], the
    higher one first otherwise. *)
Lemma exchange_colours compar c asec x y :
  monotone compar c ->
  c (if out_of_order compar asec x y then y else x)
  = (if asec then c x && c y else c x || c y) /\
  c (if out_of_order compar asec x y then x else y)
  = (if asec then c x || c y else c x && c y).
Proof.
  intros Hc. unfold out_of_order.
  destruct (c x) eqn:Hx, (c y) eqn:Hy.
  - destruct asec, (_ <? _); by rewrite ?Hx, ?Hy.
  - destruct (Hc y x Hy Hx) as [H1 H2].
    destruct asec.
    + destruct (0 <? compar x y) eqn:E; [by rewrite Hx, Hy|apply Z.ltb_ge in E; lia].
    + destruct (compar x y <? 0) eqn:E; [apply Z.ltb_lt in E; lia|by rewrite Hx, Hy].
  - destruct (Hc x y Hx Hy) as [H1 H2].
    destruct asec.
    + destruct (0 <? compar x y) eqn:E; [apply Z.ltb_lt in E; lia|by rewrite Hx, Hy].
    + destruct (compar x y <? 0) eqn:E; [by rewrite Hx, Hy|apply Z.ltb_ge in E; lia].
  - destruct asec, (_ <? _); by rewrite ?Hx, ?Hy.
Qed.

(** The pass touches the records of its range only. *)
Lemma exchange_pass_frame compar asec m pre post : forall cnt i X,
  (i + cnt + m <= length X)%nat ->
  exchange_pass compar asec m cnt (length pre + i) (pre ++ X ++ post)
  = pre ++ exchange_pass compar asec m cnt i X ++ post.
Proof.
  induction cnt as [|cnt IH]; intros i X Hlen; [done|].
  simpl.
  destruct (lookup_lt_is_Some_2 X i ltac:(lia)) as [x Hx].
  destruct (lookup_lt_is_Some_2 X (i + m) ltac:(lia)) as [y Hy].
  rewrite <- Nat.add_assoc.
  assert (forall k z, X !! k = Some z ->
            (pre ++ X ++ post) !! (length pre + k)%nat = Some z) as Hlk.
  { intros k z Hz. rewrite lookup_app_r by lia.
    replace (length pre + k - length pre)%nat with k by lia.
    by apply lookup_app_l_Some. }
  rewrite (Hlk _ _ Hx), (Hlk _ _ Hy), Hx, Hy.
  replace (S (length pre + i)) with (length pre + S i)%nat by lia.
  destruct (out_of_order compar asec x y).
  - rewrite !insert_app_r. rewrite !insert_app_l by (rewrite ?length_insert; lia).
    apply IH. rewrite !length_insert. lia.
  - apply IH. lia.
Qed.

Lemma and_shape (a b m k : nat) :
  bool_decide (a <= k < b)%nat && bool_decide (a <= k + m < b)%nat
  = bool_decide (a <= k < b - m)%nat.
Proof. bd. Qed.

Lemma or_shape (a b m : nat) :
  exists neg' a' b',
    (forall k, (k < m)%nat ->
       bool_decide (a <= k < b)%nat || bool_decide (a <= k + m < b)%nat
       = xorb neg' (bool_decide (a' <= k < b')%nat)) /\
    ((forall k, (k < m)%nat -> bool_decide (a <= k < b - m)%nat = false) \/
     (forall k, (k < m)%nat -> xorb neg' (bool_decide (a' <= k < b')%nat) = true)).
Proof.
  destruct (le_lt_dec m a) as [Hma|Hma].
  { exists false, (a - m)%nat, (b - m)%nat. split; [intros k Hk; bd|].
    left. intros k Hk. bd. }
  destruct (le_lt_dec b m) as [Hbm|Hbm].
  { exists false, a, b. split; [intros k Hk; bd|]. left. intros k Hk. bd. }
  destruct (le_lt_dec a (b - m)) as [Hab|Hab].
  { exists true, 0%nat, 0%nat. split; [intros k Hk; bd|]. right. intros k Hk. bd. }
  exists true, (b - m)%nat, a. split; [intros k Hk; bd|]. left. intros k Hk. bd.
Qed.

(** One pass over a list of [2 * m] records whose colours change at most
    twice: both halves still change colour at most twice, and one of them
    has a single colour. *)
Lemma half_cleaner compar c asec (m : nat) X :
  monotone compar c -> length X = (2 * m)%nat -> col_bitonic c X ->
  col_bitonic c (take m (exchange_pass compar asec m m 0 X)) /\
  col_bitonic c (drop m (exchange_pass compar asec m m 0 X)) /\
  ((forall x, x ∈ take m (exchange_pass compar asec m m 0 X) -> c x = negb asec) \/
   (forall x, x ∈ drop m (exchange_pass compar asec m m 0 X) -> c x = asec)).
Proof.
  intros Hc Hlen (neg & a & b & Hs).
  destruct (exchange_pass_spec compar asec m m 0 X) as (_ & Hpairs & _); [lia|lia|].
  pose proof (length_exchange_pass compar asec m m 0%nat X) as HlX'.
  remember (exchange_pass compar asec m m 0 X) as X' eqn:HX'. clear HX'.
  set (f := fun i => xorb neg (bool_decide (a <= i < b)%nat)).
  assert (forall k x', take m X' !! k = Some x' ->
            (k < m)%nat /\
            c x' = if asec then f k && f (k + m)%nat else f k || f (k + m)%nat) as Hlo.
  { intros k x' Hk. apply lookup_take_Some in Hk as [Hk Hkm]. split; [done|].
    destruct (Hpairs k ltac:(lia)) as (x & y & Hx & Hy & H1 & _).
    rewrite Hk in H1. injection H1 as ->.
    rewrite (proj1 (exchange_colours compar c asec x y Hc)).
    unfold f. by rewrite (Hs _ _ Hx), (Hs _ _ Hy). }
  assert (forall k x', drop m X' !! k = Some x' ->
            (k < m)%nat /\
            c x' = if asec then f k || f (k + m)%nat else f k && f (k + m)%nat) as Hhi.
  { intros k x' Hk. rewrite lookup_drop in Hk.
    assert (k < m)%nat as Hkm.
    { apply lookup_lt_Some in Hk.
      rewrite HlX' in Hk. lia. }
    split; [done|].
    destruct (Hpairs k ltac:(lia)) as (x & y & Hx & Hy & _ & H1).
    rewrite (Nat.add_comm m k), H1 in Hk. injection Hk as <-.
    rewrite (proj2 (exchange_colours compar c asec x y Hc)).
    unfold f. by rewrite (Hs _ _ Hx), (Hs _ _ Hy). }
  clear Hpairs Hs.
  destruct (or_shape a b m) as (neg' & a' & b' & Hor & Hclean).
  assert (forall k, (k < m)%nat -> f k && f (k + m)%nat
            = if neg then negb (xorb neg' (bool_decide (a' <= k < b')%nat))
              else bool_decide (a <= k < b - m)%nat) as Hand.
  { intros k Hk. unfold f. destruct neg.
    - rewrite <- (Hor k Hk). simpl. by rewrite negb_orb.
    - simpl. apply and_shape. }
  assert (forall k, (k < m)%nat -> f k || f (k + m)%nat
            = if neg then negb (bool_decide (a <= k < b - m)%nat)
              else xorb neg' (bool_decide (a' <= k < b')%nat)) as Hor'.
  { intros k Hk. unfold f. destruct neg.
    - simpl. rewrite <- and_shape. by rewrite negb_andb.
    - simpl. by apply Hor. }
  clearbody f.
  split; [|split].
  - destruct asec, neg.
    + exists (negb neg'), a', b'. intros k x Hx. destruct (Hlo k x Hx) as [Hk ->].
      rewrite Hand by done. by destruct neg', (bool_decide _).
    + exists false, a, (b - m)%nat. intros k x Hx. destruct (Hlo k x Hx) as [Hk ->].
      by rewrite Hand by done.
    + exists true, a, (b - m)%nat. intros k x Hx. destruct (Hlo k x Hx) as [Hk ->].
      by rewrite Hor' by done.
    + exists neg', a', b'. intros k x Hx. destruct (Hlo k x Hx) as [Hk ->].
      by rewrite Hor' by done.
  - destruct asec, neg.
    + exists true, a, (b - m)%nat. intros k x Hx. destruct (Hhi k x Hx) as [Hk ->].
      by rewrite Hor' by done.
    + exists neg', a', b'. intros k x Hx. destruct (Hhi k x Hx) as [Hk ->].
      by rewrite Hor' by done.
    + exists (negb neg'), a', b'. intros k x Hx. destruct (Hhi k x Hx) as [Hk ->].
      rewrite Hand by done. by destruct neg', (bool_decide _).
    + exists false, a, (b - m)%nat. intros k x Hx. destruct (Hhi k x Hx) as [Hk ->].
      by rewrite Hand by done.
  - assert (forall P : elem -> Prop, forall l : list elem,
              (forall k x, l !! k = Some x -> P x) -> forall x, x ∈ l -> P x) as Hin.
    { intros P l H x Hx. apply list_elem_of_lookup_1 in Hx as [k Hk]. by eapply H. }
    destruct Hclean as [Hcl|Hcl]; destruct asec, neg.
    + right. apply Hin. intros k x Hx. destruct (Hhi k x Hx) as [Hk ->].
      rewrite Hor', Hcl by done. done.
    + left. apply Hin. intros k x Hx. destruct (Hlo k x Hx) as [Hk ->].
      rewrite Hand, Hcl by done. done.
    + left. apply Hin. intros k x Hx. destruct (Hlo k x Hx) as [Hk ->].
      rewrite Hor', Hcl by done. done.
    + right. apply Hin. intros k x Hx. destruct (Hhi k x Hx) as [Hk ->].
      rewrite Hand, Hcl by done. done.
    + left. apply Hin. intros k x Hx. destruct (Hlo k x Hx) as [Hk ->].
      rewrite Hand, Hcl by done. done.
    + right. apply Hin. intros k x Hx. destruct (Hhi k x Hx) as [Hk ->].
      rewrite Hor', Hcl by done. done.
    + right. apply Hin. intros k x Hx. destruct (Hhi k x Hx) as [Hk ->].
      rewrite Hand, Hcl by done. done.
    + left. apply Hin. intros k x Hx. destruct (Hlo k x Hx) as [Hk ->].
      rewrite Hor', Hcl by done. done.
Qed.

(** Below a power of two the split is in the middle. *)
Lemma highestPowerofTwoLessThan_pow2 (j m : nat) :
  (1 <= j)%nat -> Z.of_nat (2 ^ j) <= 2 ^ 63 ->
  Z.of_nat m = highestPowerofTwoLessThan (Z.of_nat (2 ^ j)) -> m = (2 ^ (j - 1))%nat.
Proof.
  intros Hj Hb Hm. rewrite Nat2Z.inj_pow in Hb, Hm. change (Z.of_nat 2) with 2 in Hb, Hm.
  assert (2 <= 2 ^ Z.of_nat j) as H2.
  { change 2 with (2 ^ 1) at 1. apply Z.pow_le_mono_r; lia. }
  destruct (highestPowerofTwoLessThan_spec (2 ^ Z.of_nat j)) as (k & Hk & Hhp & Hlt & Hle);
    [lia|].
  apply Z.pow_lt_mono_r_iff in Hlt; [|lia|lia].
  apply Z.pow_le_mono_r_iff in Hle; [|lia|lia].
  assert (k = Z.of_nat (j - 1)) as -> by lia.
  apply Nat2Z.inj. rewrite Hm, Hhp, Nat2Z.inj_pow. done.
Qed.

Lemma sorted_in_short compar asec (l : list elem) :
  (length l <= 1)%nat -> sorted_in compar asec l.
Proof.
  intros Hl. destruct l as [|x [|y l]]; [| |simpl in Hl; lia];
    destruct asec; repeat constructor.
Qed.

Section BitonicSorts.

Variable compar : elem -> elem -> Z.
Variable libc_qsort : (elem -> elem -> Z) -> list elem -> list elem.
Hypothesis Hto : total_order compar.
Hypothesis Hlibc : forall l,
  libc_qsort compar l ≡ₚ l /\ StronglySorted (cle compar) (libc_qsort compar l).

Lemma p_bitonic_leaf_sorts (asec : bool) pre X post ts key pv :
  uniform 8 (pre ++ X ++ post) ->
  Z.of_nat (length (pre ++ X ++ post)) * 8 < 2 ^ 63 ->
  exists out, out ≡ₚ X /\
    (if 1 <? Z.of_nat (length X)
     then sort_leaf compar libc_qsort (eptr 8 Base 0) (Z.of_nat (length pre))
            (Z.of_nat (length X)) asec 8
     else ret tt) (cm (AState (pre ++ X ++ post) ts key pv))
    = Ok (tt, cm (AState (pre ++ out ++ post) ts key pv)) /\
    sorted_in compar asec out.
Proof.
  intros Hu Hb. destruct (Hlibc X) as [Hperm Hsort].
  destruct (1 <? Z.of_nat (length X)) eqn:H1.
  - apply Z.ltb_lt in H1.
    exists (if asec then libc_qsort compar X else reverse (libc_qsort compar X)).
    split; [|split; [apply sort_leaf_spec; try done; lia|]].
    + destruct asec; [done|]. by rewrite reverse_Permutation.
    + unfold sorted_in. destruct asec; [done|]. by apply StronglySorted_reverse_flip.
  - apply Z.ltb_ge in H1. exists X. split; [done|]. split; [done|].
    apply sorted_in_short. lia.
Qed.

Lemma p_bitonic_merge_sorts ts key pv grain :
  1 <= grain ->
  forall fuel (asec : bool) pre X post,
  (exists j : nat, length X = (2 ^ j)%nat) ->
  uniform 8 (pre ++ X ++ post) ->
  Z.of_nat (length (pre ++ X ++ post)) * 8 < 2 ^ 63 ->
  (1 <= fuel)%nat -> (length X <= fuel)%nat ->
  exists out, out ≡ₚ X /\
    p_bitonic_merge compar libc_qsort fuel (eptr 8 Base 0)
      (Z.of_nat (length pre)) (Z.of_nat (length X)) asec 8 grain
      (cm (AState (pre ++ X ++ post) ts key pv))
    = Ok (tt, cm (AState (pre ++ out ++ post) ts key pv)) /\
    forall c, monotone compar c -> col_bitonic c X -> col_sorted c asec out.
Proof.
  intros Hgrain. induction fuel as [|fuel IH];
    intros asec pre X post [j Hj] Hu Hb Hf1 Hf; [lia|].
  destruct (grain <? Z.of_nat (length X)) eqn:Hg.
  2: { rewrite p_bitonic_merge_S, Hg.
       destruct (p_bitonic_leaf_sorts asec pre X post ts key pv Hu Hb)
         as (out & Hp & Hrun & Hs).
       exists out. split; [done|]. split; [done|].
       intros c Hc _. by apply (sorted_col_sorted compar). }
  apply Z.ltb_lt in Hg. pose proof Hb as Hb'. lin Hb'.
  destruct (p_bitonic_merge_split compar libc_qsort fuel asec grain
              (length pre) (length X) (pre ++ X ++ post) ts key pv)
    as (m & Hm & Hmn & Hrun); [lia|done|done|done|len|].
  rewrite Hrun. clear Hrun.
  assert (1 <= j)%nat as Hj1.
  { destruct j; [simpl in Hj; lia|lia]. }
  rewrite Hj in Hm. apply highestPowerofTwoLessThan_pow2 in Hm; [|done|rewrite <- Hj; lia].
  assert (length X = (2 * m)%nat) as HlX.
  { rewrite Hj, Hm. replace j with (S (j - 1)) at 1 by lia. simpl. lia. }
  replace (length X - m)%nat with m by lia.
  pose proof (exchange_pass_frame compar asec m pre post m 0%nat X ltac:(lia)) as Hfr.
  rewrite Nat.add_0_r in Hfr. rewrite Hfr. clear Hfr.
  destruct (exchange_pass_spec compar asec m m 0%nat X) as (HX1 & _ & _); [lia|lia|].
  pose proof (fun c Hc => half_cleaner compar c asec m X Hc HlX) as Hhalf.
  remember (exchange_pass compar asec m m 0 X) as X1 eqn:HeqX1. clear HeqX1.
  pose proof (Permutation_length HX1) as HlX1.
  assert (uniform 8 (pre ++ X1 ++ post)) as Hu1 by (unfold uniform in *; by rewrite HX1).
  rewrite <- (take_drop m X1) in Hu1, HX1 |- *.
  remember (take m X1) as L eqn:HL. remember (drop m X1) as R eqn:HR.
  assert (length L = m) as HlL by (subst L; rewrite length_take; lia).
  assert (length R = m) as HlR by (subst R; rewrite length_drop; lia).
  clear HL HR. rewrite <- !app_assoc in *.
  destruct (IH asec pre L (R ++ post)) as (out1 & Hp1 & Hrun1 & Hc1);
    [exists (j - 1)%nat; lia|done|len|lia|lia|].
  pose proof (Permutation_length Hp1) as Hl1.
  rewrite HlL in Hrun1. unfold bind at 1. rewrite Hrun1.
  destruct (IH asec (pre ++ out1) R post) as (out2 & Hp2 & Hrun2 & Hc2).
  { exists (j - 1)%nat; lia. }
  { unfold uniform in *. rewrite <- app_assoc. by rewrite Hp1. }
  { lens. lia. }
  { lia. }
  { lia. }
  rewrite <- !app_assoc in Hrun2.
  replace (Z.of_nat (length (pre ++ out1))) with (Z.of_nat (length pre + m)) in Hrun2 by len.
  rewrite HlR in Hrun2. rewrite Hrun2.
  exists (out1 ++ out2). split; [by rewrite Hp1, Hp2|].
  split; [by rewrite <- !app_assoc|].
  intros c Hc Hbit. destruct (Hhalf c Hc Hbit) as (HbL & HbR & Hclean).
  apply col_sorted_app; [by apply Hc1|by apply Hc2|].
  destruct Hclean as [Hcl|Hcl]; [left|right]; intros x Hx; apply Hcl.
  - by rewrite <- Hp1.
  - by rewrite <- Hp2.
Qed.

Lemma p_bitonic_sort_sorts ts key pv grain :
  1 <= grain ->
  forall fuel (asec : bool) pre X post,
  (exists j : nat, length X = (2 ^ j)%nat) ->
  uniform 8 (pre ++ X ++ post) ->
  Z.of_nat (length (pre ++ X ++ post)) * 8 < 2 ^ 63 ->
  (1 <= fuel)%nat -> (length X <= fuel)%nat ->
  exists out, out ≡ₚ X /\
    p_bitonic_sort compar libc_qsort fuel (eptr 8 Base 0)
      (Z.of_nat (length pre)) (Z.of_nat (length X)) asec 8 grain
      (cm (AState (pre ++ X ++ post) ts key pv))
    = Ok (tt, cm (AState (pre ++ out ++ post) ts key pv)) /\
    sorted_in compar asec out.
Proof.
  intros Hgrain. induction fuel as [|fuel IH];
    intros asec pre X post [j Hj] Hu Hb Hf1 Hf; [lia|].
  cbn [p_bitonic_sort].
  destruct (grain <? Z.of_nat (length X)) eqn:Hg.
  2: { by apply p_bitonic_leaf_sorts. }
  apply Z.ltb_lt in Hg. pose proof Hb as Hb'. lin Hb'. cbv zeta.
  assert (1 <= j)%nat as Hj1.
  { destruct j; [simpl in Hj; lia|lia]. }
  remember (2 ^ (j - 1))%nat as m eqn:Hm.
  assert (length X = (2 * m)%nat) as HlX.
  { rewrite Hj, Hm. replace j with (S (j - 1)) at 1 by lia. simpl. lia. }
  assert (1 <= m)%nat as Hm1 by lia.
  replace (Z.of_nat (length X) / 2) with (Z.of_nat m)
    by (rewrite HlX, Nat2Z.inj_mul, Z.mul_comm, Z.div_mul; lia).
  replace (Z.of_nat (length X) -! Z.of_nat m) with (Z.of_nat m) by (unwrap; lia).
  replace (Z.of_nat (length pre) +! Z.of_nat m) with (Z.of_nat (length pre + m))
    by (unwrap; lia).
  assert (exists out1 out2, out1 ≡ₚ take m X /\ out2 ≡ₚ drop m X /\
            sorted_in compar asec out1 /\ sorted_in compar (negb asec) out2 /\
            (p_bitonic_sort compar libc_qsort fuel (eptr 8 Base 0)
               (Z.of_nat (length pre)) (Z.of_nat m) asec 8 grain ;;;
             p_bitonic_sort compar libc_qsort fuel (eptr 8 Base 0)
               (Z.of_nat (length pre + m)) (Z.of_nat m) (negb asec) 8 grain)
              (cm (AState (pre ++ X ++ post) ts key pv))
            = Ok (tt, cm (AState (pre ++ (out1 ++ out2) ++ post) ts key pv)))
    as (out1 & out2 & Hp1 & Hp2 & Hs1 & Hs2 & Hrun).
  { pose proof (take_drop m X) as HX.
    remember (take m X) as L eqn:HL. remember (drop m X) as R eqn:HR.
    assert (length L = m) as HlL by (rewrite HL, length_take; lia).
    assert (length R = m) as HlR by (rewrite HR, length_drop; lia).
    clear HL HR. subst X. rewrite <- !app_assoc in *.
    destruct (IH asec pre L (R ++ post)) as (out1 & Hp1 & Hrun1 & Hs1);
      [exists (j - 1)%nat; lia|done|len|lia|lia|].
    pose proof (Permutation_length Hp1) as Hl1.
    rewrite HlL in Hrun1. unfold bind at 1. rewrite Hrun1.
    destruct (IH (negb asec) (pre ++ out1) R post) as (out2 & Hp2 & Hrun2 & Hs2).
    { exists (j - 1)%nat; lia. }
    { unfold uniform in *. rewrite <- app_assoc. by rewrite Hp1. }
    { lens. lia. }
    { lia. }
    { lia. }
    rewrite <- !app_assoc in Hrun2.
    replace (Z.of_nat (length (pre ++ out1))) with (Z.of_nat (length pre + m))
      in Hrun2 by len.
    rewrite HlR in Hrun2. rewrite Hrun2.
    exists out1, out2. by rewrite <- !app_assoc. }
  assert (out1 ++ out2 ≡ₚ X) as Hpo by (by rewrite Hp1, Hp2, take_drop).
  pose proof (Permutation_length Hpo) as Hlo.
  unfold bind at 1. unfold bind at 1 in Hrun.
  destruct (p_bitonic_sort compar libc_qsort fuel (eptr 8 Base 0)
              (Z.of_nat (length pre)) (Z.of_nat m) asec 8 grain
              (cm (AState (pre ++ X ++ post) ts key pv)))
    as [[[] m1]| |] eqn:H1; try done.
  unfold bind at 1. rewrite Hrun.
  destruct (p_bitonic_merge_sorts ts key pv grain Hgrain (length X) asec pre
              (out1 ++ out2) post)
    as (out' & Hp' & Hrun' & Hc'); [| | |lia|lia|].
  { exists j. by rewrite Hlo. }
  { unfold uniform in *. by rewrite Hpo. }
  { lens. lin Hlo. lia. }
  rewrite Nat2Z.id. rewrite Hlo in Hrun'. rewrite Hrun'.
  exists out'. split; [by rewrite Hp'|]. split; [done|].
  apply col_sorted_sorted; [done|]. intros t.
  apply Hc'; [by apply above_monotone|].
  apply (col_sorted_app_bitonic _ asec); apply (sorted_col_sorted compar);
    try done; by apply above_monotone.
Qed.

Lemma emu_sort_local_bitonic_sorts es :
  (exists j : nat, length es = (2 ^ j)%nat) ->
  uniform 8 es -> Z.of_nat (length es) * 8 < 2 ^ 63 ->
  exists out,
    run (fun base => emu_sort_local_bitonic compar libc_qsort base
                       (Z.of_nat (length es)) 8) (concat es) = Ok (concat out) /\
    out ≡ₚ es /\ StronglySorted (cle compar) out.
Proof.
  intros Hpow Hu Hb.
  destruct (Z_lt_le_dec (Z.of_nat (length es)) MIN_BITONIC_LENGTH) as [Hs|Hl].
  - exists (libc_qsort compar es). destruct (Hlibc es) as [Hp Hsort].
    split; [|done]. by apply emu_sort_local_bitonic_small.
  - unfold MIN_BITONIC_LENGTH in Hl. unfold emu_sort_local_bitonic, run.
    destruct (MIN_BITONIC_LENGTH <=? Z.of_nat (length es)) eqn:Ht;
      [|unfold MIN_BITONIC_LENGTH in Ht; lia].
    assert (1 <= BITONIC_GRAIN (Z.of_nat (length es))) as Hgrain.
    { unfold BITONIC_GRAIN. rewrite Z.shiftr_div_pow2 by lia. change (2 ^ 5) with 32.
      apply Z.div_le_lower_bound; lia. }
    destruct (p_bitonic_sort_sorts None [] [] _ Hgrain (length es) true [] es [])
      as (out & Hp & Hrun & Hsort).
    { done. }
    { by rewrite app_nil_r. }
    { simpl. by rewrite app_nil_r. }
    { lia. }
    { lia. }
    simpl in Hrun. rewrite app_nil_r in Hrun. change (Z.of_nat 0) with 0 in Hrun.
    change (Mem (concat es) None [] []) with (cm (AState es None [] [])).
    change (Ptr Base 0) with (eptr 8 Base 0).
    rewrite Nat2Z.id, Hrun. exists out. split; [|done].
    simpl. by rewrite app_nil_r.
Qed.

End BitonicSorts.

(** Order of a list of records given in full, under [key_compar]. *)
Ltac sorted_list :=
  repeat match goal with
         | |- StronglySorted _ [] => apply SSorted_nil
         | |- StronglySorted _ (_ :: _) => apply SSorted_cons
         | |- Forall _ [] => apply Forall_nil_2
         | |- Forall _ (_ :: _) => apply Forall_cons_2
         | |- flip _ _ _ => unfold flip
         | |- cle _ _ _ => unfold cle, key_compar; simpl; lia
         end.

(** X15: for a number of 8-byte records that is a power of two
    [emu_sort_local_bitonic] sorts.  With a consistent comparator and a
    platform [qsort] that sorts, the call returns with the records of the
    input in non-decreasing order. *)
Theorem emu_sort_local_bitonic_sorts_powers_of_two compar libc_qsort es (j : nat) :
  total_order compar ->
  (forall l, libc_qsort compar l ≡ₚ l /\ StronglySorted (cle compar) (libc_qsort compar l)) ->
  length es = (2 ^ j)%nat ->
  uniform 8 es -> Z.of_nat (length es) * 8 < 2 ^ 63 ->
  exists out,
    run (fun base => emu_sort_local_bitonic compar libc_qsort base
                       (Z.of_nat (length es)) 8) (concat es) = Ok (concat out) /\
    out ≡ₚ es /\ StronglySorted (cle compar) out.
Proof.
  intros Hto Hlibc Hj Hu Hb.
  apply emu_sort_local_bitonic_sorts; try done. by exists j.
Qed.

Lemma emu_sort_local_bitonic_sorts_powers_of_two_witness :
  exists out,
    run (fun base => emu_sort_local_bitonic key_compar isort base
                       (Z.of_nat (length sixty_four_records)) 8)
      (concat sixty_four_records) = Ok (concat out) /\
    out ≡ₚ sixty_four_records /\ StronglySorted (cle key_compar) out.
Proof.
  apply (emu_sort_local_bitonic_sorts_powers_of_two key_compar isort
           sixty_four_records 6).
  - exact key_compar_total_order.
  - intros l. split; [apply isort_perm|apply isort_sorted, key_compar_total_order].
  - reflexivity.
  - repeat constructor.
  - simpl. lia.
Defined.

(** X16: [p_bitonic_merge] sorts a bitonic range.  On [2 ^ j] records of
    8 bytes of which a first part is in order in one direction and the
    rest in the opposite direction, wherever the turn lies and whichever
    part rises, the call returns with the records of the range in the
    direction [asec], and with the records outside the range as they
    were. *)
Theorem p_bitonic_merge_sorts_bitonic_ranges compar libc_qsort grain fuel
    (asec d : bool) (j : nat) pre A B post ts key pv :
  total_order compar ->
  (forall l, libc_qsort compar l ≡ₚ l /\ StronglySorted (cle compar) (libc_qsort compar l)) ->
  1 <= grain ->
  length (A ++ B) = (2 ^ j)%nat -> (length (A ++ B) <= fuel)%nat ->
  sorted_in compar d A -> sorted_in compar (negb d) B ->
  uniform 8 (pre ++ (A ++ B) ++ post) ->
  Z.of_nat (length (pre ++ (A ++ B) ++ post)) * 8 < 2 ^ 63 ->
  exists out,
    p_bitonic_merge compar libc_qsort fuel (eptr 8 Base 0)
      (Z.of_nat (length pre)) (Z.of_nat (length (A ++ B))) asec 8 grain
      (cm (AState (pre ++ (A ++ B) ++ post) ts key pv))
    = Ok (tt, cm (AState (pre ++ out ++ post) ts key pv)) /\
    out ≡ₚ A ++ B /\ sorted_in compar asec out.
Proof.
  intros Hto Hlibc Hgrain Hj Hf HA HB Hu Hb.
  assert (1 <= length (A ++ B))%nat as H1.
  { rewrite Hj. clear. induction j; simpl; lia. }
  destruct (p_bitonic_merge_sorts compar libc_qsort Hto Hlibc ts key pv grain Hgrain
              fuel asec pre (A ++ B) post) as (out & Hp & Hrun & Hc);
    [by exists j|done|done|lia|done|].
  exists out. split; [done|]. split; [done|].
  apply col_sorted_sorted; [done|]. intros t.
  apply Hc; [by apply above_monotone|].
  apply (col_sorted_app_bitonic _ d); apply (sorted_col_sorted compar);
    try done; by apply above_monotone.
Qed.

Lemma p_bitonic_merge_sorts_bitonic_ranges_witness :
  exists out,
    p_bitonic_merge key_compar isort 4 (eptr 8 Base 0)
      (Z.of_nat (length [rec8 9 0]))
      (Z.of_nat (length ([rec8 1 0; rec8 3 1; rec8 4 2] ++ [rec8 2 3]))) false 8 1
      (cm (AState ([rec8 9 0] ++ ([rec8 1 0; rec8 3 1; rec8 4 2] ++ [rec8 2 3])
                     ++ [rec8 0 4]) None [] []))
    = Ok (tt, cm (AState ([rec8 9 0] ++ out ++ [rec8 0 4]) None [] [])) /\
    out ≡ₚ [rec8 1 0; rec8 3 1; rec8 4 2] ++ [rec8 2 3] /\
    sorted_in key_compar false out.
Proof.
  apply (p_bitonic_merge_sorts_bitonic_ranges key_compar isort 1 4 false true 2
           [rec8 9 0] [rec8 1 0; rec8 3 1; rec8 4 2] [rec8 2 3] [rec8 0 4] None [] []).
  - exact key_compar_total_order.
  - intros l. split; [apply isort_perm|apply isort_sorted, key_compar_total_order].
  - lia.
  - reflexivity.
  - simpl. lia.
  - cbv [sorted_in negb]; sorted_list.
  - cbv [sorted_in negb]; sorted_list.
  - repeat constructor.
  - simpl. lia.
Defined.

(** X17: the pass of [merge_worker] over a bitonic range separates its
    halves.  On [2 * m] records of 8 bytes, the first [m] in order in one
    direction and the other [m] in the opposite direction, the pass over
    the pairs [(i, i + m)] leaves in the first half only records that are
    not greater (for [asec], not less otherwise) than every record of the
    second half; the range keeps its records and the rest of the buffer
    is as it was. *)
Theorem merge_worker_separates_halves compar (asec d : bool) pre A B post ts key pv :
  total_order compar ->
  length A = length B ->
  sorted_in compar d A -> sorted_in compar (negb d) B ->
  uniform 8 (pre ++ (A ++ B) ++ post) ->
  Z.of_nat (length (pre ++ (A ++ B) ++ post)) * 8 < 2 ^ 63 ->
  exists A' B',
    merge_worker compar (eptr 8 Base 0) asec (Z.of_nat (length A)) 8
      (Z.of_nat (length pre)) (Z.of_nat (length pre + length A))
      (cm (AState (pre ++ (A ++ B) ++ post) ts key pv))
    = Ok (tt, cm (AState (pre ++ (A' ++ B') ++ post) ts key pv)) /\
    length A' = length A /\ length B' = length B /\
    A' ++ B' ≡ₚ A ++ B /\
    forall x y, x ∈ A' -> y ∈ B' ->
      if asec then cle compar x y else cle compar y x.
Proof.
  intros Hto Hlen HA HB Hu Hb. pose proof Hb as Hb'. lin Hb'.
  remember (length A) as m eqn:Hm.
  assert (length (A ++ B) = (2 * m)%nat) as HlX by len.
  exists (take m (exchange_pass compar asec m m 0 (A ++ B))),
         (drop m (exchange_pass compar asec m m 0 (A ++ B))).
  pose proof (length_exchange_pass compar asec m m 0%nat (A ++ B)) as HlX'.
  destruct (exchange_pass_spec compar asec m m 0%nat (A ++ B)) as (HX1 & _ & _);
    [lia|lia|].
  split; [|split; [|split; [|split]]].
  - rewrite take_drop. unfold merge_worker. rewrite trips_unit.
    replace (Z.to_nat (Z.of_nat (length pre + m) - Z.of_nat (length pre))) with m by lia.
    pose proof (merge_worker_loop compar asec m ts key pv m (length pre)
                  (pre ++ (A ++ B) ++ post) Hu Hb ltac:(len)) as Hpass.
    cbv zeta in Hpass. rewrite Hpass.
    pose proof (exchange_pass_frame compar asec m pre post m 0%nat (A ++ B) ltac:(lia))
      as Hfr.
    rewrite Nat.add_0_r in Hfr. by rewrite Hfr.
  - rewrite length_take. lia.
  - rewrite length_drop. lia.
  - by rewrite take_drop.
  - intros x y Hx Hy.
    assert (forall t, col_bitonic (above compar t) (A ++ B)) as Hbit.
    { intros t. apply (col_sorted_app_bitonic _ d); apply (sorted_col_sorted compar);
        try done; by apply above_monotone. }
    assert (forall z, above compar z z = false) as Hzz.
    { intros z. unfold above. apply Z.ltb_ge.
      pose proof (compar_antisym _ Hto z z). lia. }
    destruct asec.
    + destruct (half_cleaner compar (above compar y) true m (A ++ B)
                  (above_monotone compar y Hto) HlX (Hbit y)) as (_ & _ & [Hcl|Hcl]).
      * specialize (Hcl x Hx). unfold above in Hcl. simpl in Hcl.
        apply Z.ltb_ge in Hcl. done.
      * specialize (Hcl y Hy). by rewrite Hzz in Hcl.
    + destruct (half_cleaner compar (above compar x) false m (A ++ B)
                  (above_monotone compar x Hto) HlX (Hbit x)) as (_ & _ & [Hcl|Hcl]).
      * specialize (Hcl x Hx). by rewrite Hzz in Hcl.
      * specialize (Hcl y Hy). unfold above in Hcl. apply Z.ltb_ge in Hcl. done.
Qed.

Lemma merge_worker_separates_halves_witness :
  exists A' B',
    merge_worker key_compar (eptr 8 Base 0) true
      (Z.of_nat (length [rec8 1 0; rec8 5 1; rec8 7 2])) 8
      (Z.of_nat (length [rec8 9 0]))
      (Z.of_nat (length [rec8 9 0] + length [rec8 1 0; rec8 5 1; rec8 7 2]))
      (cm (AState ([rec8 9 0] ++ ([rec8 1 0; rec8 5 1; rec8 7 2]
                                    ++ [rec8 6 3; rec8 4 4; rec8 2 5]) ++ [rec8 0 6])
             None [] []))
    = Ok (tt, cm (AState ([rec8 9 0] ++ (A' ++ B') ++ [rec8 0 6]) None [] [])) /\
    length A' = length [rec8 1 0; rec8 5 1; rec8 7 2] /\
    length B' = length [rec8 6 3; rec8 4 4; rec8 2 5] /\
    A' ++ B' ≡ₚ [rec8 1 0; rec8 5 1; rec8 7 2] ++ [rec8 6 3; rec8 4 4; rec8 2 5] /\
    forall x y, x ∈ A' -> y ∈ B' ->
      if true then cle key_compar x y else cle key_compar y x.
Proof.
  apply (merge_worker_separates_halves key_compar true true
           [rec8 9 0] [rec8 1 0; rec8 5 1; rec8 7 2] [rec8 6 3; rec8 4 4; rec8 2 5]
           [rec8 0 6] None [] []).
  - exact key_compar_total_order.
  - reflexivity.
  - cbv [sorted_in negb]; sorted_list.
  - cbv [sorted_in negb]; sorted_list.
  - repeat constructor.
  - simpl. lia.
Defined.
